(** * Zero-shot portfolio selection: greedy forward selection, backward
      pruning and the cross-validation driver.

    Shallow embedding of [autogluon_zeroshot/simulation/config_generator.py].

    Scores are the numbers returned by the scoring oracle; they are compared
    with [<], [<=] and [==] and added to the pruning slack.  The modules
    [Value], [Heap] and [CV] take them as rationals ([Q]) with exact
    arithmetic, which leaves out the rounding of a float sum and NaN; the
    module [Binary64] takes them as binary64 floats and carries the
    properties for which rounding or NaN matter.  A configuration slot holds
    a Python [str] or [None] ([option string]): the sequential selector
    starts from [best_next_config = None]. *)

From Stdlib Require Import QArith Lqa.
From Stdlib Require Floats.
From stdpp Require Import base option list strings gmap sorting.
From Equations Require Import Equations.
From Equations.Prop Require Import Logic.

Open Scope Q_scope.

(** ** Data model *)

(** A configuration identifier. *)
Definition config := string.

(** What a portfolio slot can hold at run time: a configuration or [None]. *)
Abbreviation pyconfig := (option config) (only parsing).

(** The scoring oracle [config_scorer.score]: deterministic and total. *)
Definition scorer := list pyconfig → Q.

(** Python's [a < b], [a <= b] and [a == b] on numbers. *)
Definition py_lt (a b : Q) : bool := negb (Qle_bool b a).
Definition py_le (a b : Q) : bool := Qle_bool a b.
Definition py_eq (a b : Q) : bool := Qeq_bool a b.

(** * The selector on list values *)
Module Value.

(** ** The two selectors *)

(** The initial [best_score] of [_select_sequential]. *)
Definition sentinel : Q := 999999999.

(** Body of the [for config in configs] loop of [_select_sequential]; the
    loop state is [(best_next_config, best_score)]. *)
Definition sequential_step (config_scorer : scorer) (prior_configs : list pyconfig)
    (st : pyconfig * Q) (config : config) : pyconfig * Q :=
  let '(best_next_config, best_score) := st in
  let config_selected := prior_configs ++ [Some config] in
  let config_score := config_scorer config_selected in
  if py_lt config_score best_score
  then (Some config, config_score)
  else (best_next_config, best_score).

Definition _select_sequential (configs : list config) (prior_configs : list pyconfig)
    (config_scorer : scorer) : pyconfig * Q :=
  fold_left (sequential_step config_scorer prior_configs) configs (None, sentinel).

(** [score_config_ray]: the remote task. *)
Definition score_config_ray (config_scorer : scorer) (existing_configs : list pyconfig)
    (new_config : config) : Q :=
  let configs := existing_configs ++ [Some new_config] in
  config_scorer configs.

(** Python's [min(l)]: the first element that no later element is strictly
    below; [ValueError] ([None]) on the empty list. *)
Definition py_min (l : list Q) : option Q :=
  match l with
  | [] => None
  | x :: xs => Some (fold_left (λ m y, if py_lt y m then y else m) xs x)
  end.

(** Python's [l.index(v)]: the first position holding a value [== v];
    [ValueError] ([None]) when there is none. *)
Fixpoint py_index (l : list Q) (v : Q) : option nat :=
  match l with
  | [] => None
  | x :: xs => if py_eq x v then Some 0%nat else S <$> py_index xs v
  end.

(** [_select_ray]: [ray.get] returns the scores in submission order. *)
Definition _select_ray (configs : list config) (prior_configs : list pyconfig)
    (config_scorer : scorer) : option (pyconfig * Q) :=
  let result := map (score_config_ray config_scorer prior_configs) configs in
  m ← py_min result;
  result_idx_min ← py_index result m;
  best_next_config ← configs !! result_idx_min;
  best_score ← result !! result_idx_min;
  Some (Some best_next_config, best_score).


(** ** Order facts about scores *)

Lemma py_lt_true a b : py_lt a b = true ↔ a < b.
Proof.
  unfold py_lt. rewrite negb_true_iff, <- not_true_iff_false, Qle_bool_iff.
  split; [apply Qnot_le_lt | apply Qlt_not_le].
Qed.

Lemma py_lt_false a b : py_lt a b = false ↔ b <= a.
Proof. unfold py_lt. rewrite negb_false_iff. apply Qle_bool_iff. Qed.



Lemma py_eq_true a b : py_eq a b = true ↔ a == b.
Proof. apply Qeq_bool_iff. Qed.

(** [first_argmin scores i s]: position [i] holds [s], no position holds a
    smaller score and every earlier position holds a strictly larger one. *)
Definition first_argmin (scores : list Q) (i : nat) (s : Q) : Prop :=
  scores !! i = Some s
  ∧ (∀ j t, scores !! j = Some t → s <= t)
  ∧ (∀ j t, (j < i)%nat → scores !! j = Some t → s < t).

Lemma first_argmin_unique scores i s i' s' :
  first_argmin scores i s → first_argmin scores i' s' → i = i' ∧ s = s'.
Proof.
  intros (Hi & Hle & Hlt) (Hi' & Hle' & Hlt').
  destruct (lt_eq_lt_dec i i') as [[Hc | ->] | Hc].
  - specialize (Hlt' _ _ Hc Hi). specialize (Hle _ _ Hi'). lra.
  - split; [done | congruence].
  - specialize (Hlt _ _ Hc Hi'). specialize (Hle' _ _ Hi). lra.
Qed.

Lemma first_argmin_snoc_keep scores i s y :
  first_argmin scores i s → s <= y → first_argmin (scores ++ [y]) i s.
Proof.
  intros (Hi & Hle & Hlt) Hy. split; [|split].
  - by apply lookup_app_l_Some.
  - intros j t [Hj | [_ Hj]]%lookup_app_Some; [by eapply Hle|].
    by apply list_lookup_singleton_Some in Hj as [_ <-].
  - intros j t Hji [Hj | [Hge _]]%lookup_app_Some; [by eapply Hlt|].
    apply lookup_lt_Some in Hi. lia.
Qed.

Lemma first_argmin_snoc_new scores y :
  (∀ j t, scores !! j = Some t → y < t) →
  first_argmin (scores ++ [y]) (length scores) y.
Proof.
  intros Hall. split; [|split].
  - by rewrite list_lookup_middle.
  - intros j t [Hj | [_ Hj]]%lookup_app_Some.
    + apply Qlt_le_weak. by eapply Hall.
    + apply list_lookup_singleton_Some in Hj as [_ <-]. apply Qle_refl.
  - intros j t Hji [Hj | [Hge _]]%lookup_app_Some; [by eapply Hall | lia].
Qed.

Lemma py_min_spec (l : list Q) :
  l ≠ [] → ∃ i m, py_min l = Some m ∧ first_argmin l i m.
Proof.
  destruct l as [|x xs]; [done|intros _]. simpl.
  induction xs as [|y xs IH] using rev_ind.
  - exists 0%nat, x. split; [done|]. split; [done|]. split.
    + intros j t Hj. apply list_lookup_singleton_Some in Hj as [_ <-]. apply Qle_refl.
    + intros; lia.
  - destruct IH as (i & m & [= Hm] & Harg).
    rewrite fold_left_app. simpl. rewrite Hm.
    change (x :: xs ++ [y]) with ((x :: xs) ++ [y]).
    destruct (py_lt y m) eqn:Hlt.
    + apply py_lt_true in Hlt.
      exists (length (x :: xs)), y. split; [done|].
      apply first_argmin_snoc_new. intros j t Hj.
      destruct Harg as (_ & Hle & _). specialize (Hle _ _ Hj). lra.
    + apply py_lt_false in Hlt. exists i, m. split; [done|].
      by apply first_argmin_snoc_keep.
Qed.

Lemma py_index_first_argmin (l : list Q) i m :
  first_argmin l i m → py_index l m = Some i.
Proof.
  revert i. induction l as [|x xs IH]; intros i (Hi & Hle & Hlt).
  - by rewrite lookup_nil in Hi.
  - destruct i as [|i]; simplify_eq/=.
    + replace (py_eq m m) with true; [done|].
      symmetry. apply py_eq_true. reflexivity.
    + assert (m < x) as Hx by (apply (Hlt 0%nat); [lia|done]).
      replace (py_eq x m) with false.
      * rewrite (IH i); [done|]. split; [done|]. split.
        -- intros j t Hj. by apply (Hle (S j)).
        -- intros j t Hji Hj. apply (Hlt (S j)); [lia|done].
      * symmetry. apply not_true_iff_false. rewrite py_eq_true. intros Heq. lra.
Qed.

(** The scores the selectors compare, in candidate order. *)
Definition candidate_scores (config_scorer : scorer) (prior_configs : list pyconfig)
    (configs : list config) : list Q :=
  map (score_config_ray config_scorer prior_configs) configs.

Lemma select_ray_spec configs prior_configs config_scorer :
  configs ≠ [] →
  ∃ i c s, configs !! i = Some c
    ∧ first_argmin (candidate_scores config_scorer prior_configs configs) i s
    ∧ _select_ray configs prior_configs config_scorer = Some (Some c, s).
Proof.
  intros Hne. unfold _select_ray, candidate_scores.
  set (result := map _ configs).
  destruct (py_min_spec result) as (i & m & Hmin & Harg).
  { subst result. by destruct configs. }
  pose proof (py_index_first_argmin _ _ _ Harg) as Hidx.
  pose proof Harg as (Hi & _).
  destruct (configs !! i) as [c|] eqn:Hc.
  2:{ subst result. rewrite list_lookup_fmap, Hc in Hi. done. }
  exists i, c, m. split; [done|]. split; [done|].
  rewrite Hmin. simpl. rewrite Hidx. simpl. rewrite Hc. simpl. by rewrite Hi.
Qed.

Lemma select_sequential_spec configs prior_configs config_scorer :
  let scores := candidate_scores config_scorer prior_configs configs in
  (_select_sequential configs prior_configs config_scorer = (None, sentinel)
     ∧ ∀ j t, scores !! j = Some t → sentinel <= t)
  ∨ (∃ i c s, configs !! i = Some c ∧ first_argmin scores i s ∧ s < sentinel
      ∧ _select_sequential configs prior_configs config_scorer = (Some c, s)).
Proof.
  unfold _select_sequential, candidate_scores.
  induction configs as [|x configs IH] using rev_ind; simpl.
  - left. split; [done|]. intros j t Hj. by rewrite lookup_nil in Hj.
  - rewrite fold_left_app, map_app. simpl.
    set (sx := score_config_ray config_scorer prior_configs x).
    destruct IH as [[-> Hall] | (i & c & s & Hc & Harg & Hs & ->)]; simpl;
      fold (score_config_ray config_scorer prior_configs x); fold sx.
    + destruct (py_lt sx sentinel) eqn:Hlt.
      * apply py_lt_true in Hlt. right.
        exists (length configs), x, sx. split; [by rewrite list_lookup_middle|].
        split; [|done].
        rewrite <- (length_map (score_config_ray config_scorer prior_configs)).
        apply first_argmin_snoc_new. intros j t Hj. specialize (Hall _ _ Hj). lra.
      * apply py_lt_false in Hlt. left. split; [done|].
        intros j t [Hj | [_ Hj]]%lookup_app_Some; [by eapply Hall|].
        by apply list_lookup_singleton_Some in Hj as [_ <-].
    + destruct (py_lt sx s) eqn:Hlt.
      * apply py_lt_true in Hlt. right.
        exists (length configs), x, sx. split; [by rewrite list_lookup_middle|].
        split; [|split; [lra|done]].
        rewrite <- (length_map (score_config_ray config_scorer prior_configs)).
        apply first_argmin_snoc_new. intros j t Hj.
        destruct Harg as (_ & Hle & _). specialize (Hle _ _ Hj). lra.
      * apply py_lt_false in Hlt. right.
        exists i, c, s. split; [by apply lookup_app_l_Some|].
        split; [|done]. by apply first_argmin_snoc_keep.
Qed.

(** ** The greedy selector *)

Record ZeroshotConfigGenerator := {
  config_scorer : scorer;
  all_configs : list config;
  backend : string;
}.

(** [selector]: [_select_ray] when [backend == 'ray'], [_select_sequential]
    otherwise.  The outer [option] is the exception channel. *)
Definition selector (self : ZeroshotConfigGenerator) (configs : list config)
    (prior_configs : list pyconfig) (config_scorer : scorer) : option (pyconfig * Q) :=
  if String.eqb (backend self) "ray"
  then _select_ray configs prior_configs config_scorer
  else Some (_select_sequential configs prior_configs config_scorer).

(** [valid_configs = [c for c in self.all_configs if c not in zeroshot_configs]] *)
Definition valid_configs_of (self : ZeroshotConfigGenerator)
    (zeroshot_configs : list pyconfig) : list config :=
  filter (λ c, Some c ∉ zeroshot_configs) (all_configs self).

(** The [while len(zeroshot_configs) < num_zeroshot] loop. *)
Equations? forward_selection (self : ZeroshotConfigGenerator) (num_zeroshot : Z)
    (zeroshot_configs : list pyconfig) : option (list pyconfig)
    by wf (Z.to_nat (num_zeroshot - Z.of_nat (length zeroshot_configs))) lt :=
  forward_selection self num_zeroshot zeroshot_configs
    with inspect (bool_decide (Z.of_nat (length zeroshot_configs) < num_zeroshot)%Z) := {
    | exist _ false _ => Some zeroshot_configs
    | exist _ true Hlen with valid_configs_of self zeroshot_configs := {
      | [] => Some zeroshot_configs
      | c :: cs with selector self (c :: cs) zeroshot_configs (config_scorer self) := {
        | None => None
        | Some (best_next_config, best_score) =>
            forward_selection self num_zeroshot (zeroshot_configs ++ [best_next_config]) } } }.
Proof.
  apply bool_decide_eq_true in Hlen. rewrite length_app. simpl. lia.
Qed.

(** ** Backward pruning *)

(** Body of [for config in zeroshot_configs] in one pruning round; the loop
    state is [(best_remove_config, best_score)]. *)
Definition prune_step (config_scorer : scorer) (removal_threshold : Q)
    (zeroshot_configs : list pyconfig) (st : pyconfig * Q) (config : pyconfig)
    : pyconfig * Q :=
  let '(best_remove_config, best_score) := st in
  let config_selected := filter (λ c, c ≠ config) zeroshot_configs in
  let config_score := config_scorer config_selected in
  match best_remove_config with
  | None =>
      if py_le config_score (best_score + removal_threshold)
      then (config, config_score) else (best_remove_config, best_score)
  | Some _ =>
      if py_le config_score best_score
      then (config, config_score) else (best_remove_config, best_score)
  end.

Definition prune_round (config_scorer : scorer) (removal_threshold : Q)
    (best_score : Q) (zeroshot_configs : list pyconfig) : pyconfig * Q :=
  fold_left (prune_step config_scorer removal_threshold zeroshot_configs)
    zeroshot_configs (None, best_score).

(** Python's [l.remove(x)]: drops the first occurrence; [ValueError] when
    [x] does not occur. *)
Fixpoint py_remove (x : pyconfig) (l : list pyconfig) : option (list pyconfig) :=
  match l with
  | [] => None
  | y :: l' => if decide (y = x) then Some l' else (y ::.) <$> py_remove x l'
  end.

Lemma py_remove_length x l l' :
  py_remove x l = Some l' → length l = S (length l').
Proof.
  revert l'. induction l as [|y l IH]; intros l' H; simplify_eq/=.
  case_decide; simplify_option_eq; [done|].
  simpl. f_equal. by apply IH.
Qed.

(** The [while not finished_removal] loop, entered with the current
    [best_score]. *)
Equations? prune_loop (config_scorer : scorer) (removal_threshold : Q)
    (best_score : Q) (zeroshot_configs : list pyconfig) : option (list pyconfig)
    by wf (length zeroshot_configs) lt :=
  prune_loop config_scorer removal_threshold best_score zeroshot_configs
    with prune_round config_scorer removal_threshold best_score zeroshot_configs := {
    | (None, _) => Some zeroshot_configs
    | (Some best_remove_config, best_score')
        with inspect (py_remove (Some best_remove_config) zeroshot_configs) := {
        | exist _ None _ => None
        | exist _ (Some zeroshot_configs') Hrm =>
            prune_loop config_scorer removal_threshold best_score' zeroshot_configs' } }.
Proof.
  apply py_remove_length in Hrm. lia.
Qed.

Definition prune_zeroshot_configs (self : ZeroshotConfigGenerator)
    (zeroshot_configs : list pyconfig) (removal_threshold : Q)
    : option (list pyconfig) :=
  let best_score := config_scorer self zeroshot_configs in
  prune_loop (config_scorer self) removal_threshold best_score zeroshot_configs.

(** [select_zeroshot_configs]; [zeroshot_configs = None] is the default
    argument.  [config_scorer_test] only adds a test score to the printed
    progress line and is left out. *)
Definition select_zeroshot_configs (self : ZeroshotConfigGenerator)
    (num_zeroshot : Z) (zeroshot_configs : option (list config))
    (removal_stage : bool) (removal_threshold : Q) : option (list pyconfig) :=
  let zeroshot_configs :=
    match zeroshot_configs with
    | None => []
    | Some l => Some <$> l
    end in
  zeroshot_configs ← forward_selection self num_zeroshot zeroshot_configs;
  if removal_stage
  then prune_zeroshot_configs self zeroshot_configs removal_threshold
  else Some zeroshot_configs.

(** ** Facts about the forward loop *)

Lemma selector_nonempty self configs prior_configs sc :
  configs ≠ [] → is_Some (selector self configs prior_configs sc).
Proof.
  intros Hne. unfold selector. destruct (String.eqb _ _); [|done].
  destruct (select_ray_spec configs prior_configs sc Hne) as (i & c & s & _ & _ & ->).
  done.
Qed.

(** The loop always runs to completion: no selector call raises. *)
Lemma forward_selection_total self num_zeroshot zeroshot_configs :
  is_Some (forward_selection self num_zeroshot zeroshot_configs).
Proof.
  funelim (forward_selection self num_zeroshot zeroshot_configs);
    try done.
  destruct (selector_nonempty self (c :: cs) zeroshot_configs (config_scorer self))
    as [? Hs]; [done|].
  rewrite Heq in Hs. done.
Qed.

(** Loop-invariant rule for the forward loop, with its exit condition. *)
Lemma forward_selection_inv (P : list pyconfig → Prop) self num_zeroshot :
  (∀ zs best s,
      P zs → (Z.of_nat (length zs) < num_zeroshot)%Z →
      valid_configs_of self zs ≠ [] →
      selector self (valid_configs_of self zs) zs (config_scorer self) = Some (best, s) →
      P (zs ++ [best])) →
  ∀ zeroshot_configs result,
    P zeroshot_configs →
    forward_selection self num_zeroshot zeroshot_configs = Some result →
    P result
    ∧ (¬ (Z.of_nat (length result) < num_zeroshot)%Z ∨ valid_configs_of self result = []).
Proof.
  intros Hstep zeroshot_configs.
  funelim (forward_selection self num_zeroshot zeroshot_configs);
    intros result HP Hres.
  - injection Hres as <-. split; [done|]. left. exact (proj1 (bool_decide_eq_false _) e).
  - injection Hres as <-. split; [done|]. by right.
  - apply (H P); [done| |done].
    pose proof (proj1 (bool_decide_eq_true _) Hlen) as Hlt.
    apply (Hstep _ _ best_score HP Hlt); rewrite Heq0; done.
  - done.
Qed.
(** ** The selectors against [first_argmin] *)

Lemma candidate_scores_lookup sc prior_configs configs j c :
  configs !! j = Some c →
  candidate_scores sc prior_configs configs !! j = Some (sc (prior_configs ++ [Some c])).
Proof. intros Hj. unfold candidate_scores. by rewrite list_lookup_fmap, Hj. Qed.

(** When some candidate scores below the sentinel, the sequential selector
    returns the first minimiser with its score. *)
Lemma select_sequential_below_sentinel configs prior_configs sc :
  (∃ c, c ∈ configs ∧ sc (prior_configs ++ [Some c]) < sentinel) →
  ∃ i c s, configs !! i = Some c
    ∧ first_argmin (candidate_scores sc prior_configs configs) i s
    ∧ _select_sequential configs prior_configs sc = (Some c, s).
Proof.
  intros (c & [j Hj]%list_elem_of_lookup_1 & Hc).
  destruct (select_sequential_spec configs prior_configs sc)
    as [[_ Hall] | (i & c' & s & Hi & Harg & _ & Hsel)].
  - specialize (Hall j _ (candidate_scores_lookup sc prior_configs _ _ _ Hj)). destruct (Qlt_not_le _ _ Hc Hall).
  - by exists i, c', s.
Qed.

(** Below the sentinel the two selectors agree. *)
Lemma select_modes_agree configs prior_configs sc :
  (∃ c, c ∈ configs ∧ sc (prior_configs ++ [Some c]) < sentinel) →
  _select_ray configs prior_configs sc
  = Some (_select_sequential configs prior_configs sc).
Proof.
  intros Hex.
  destruct (select_sequential_below_sentinel _ _ _ Hex) as (i & c & s & Hi & Harg & ->).
  destruct (select_ray_spec configs prior_configs sc) as (i' & c' & s' & Hi' & Harg' & ->).
  { intros ->. by rewrite lookup_nil in Hi. }
  destruct (first_argmin_unique _ _ _ _ _ Harg Harg') as [<- <-].
  rewrite Hi in Hi'. by injection Hi' as ->.
Qed.

(** C9: in sequential mode, when at least one remaining candidate scores
    strictly below the sentinel [999999999], the configuration returned by
    [_select_sequential] is an element of the candidate list; the initial
    [None] is not returned. *)
Theorem select_sequential_returns_candidate
    (configs : list config) (prior_configs : list pyconfig) (sc : scorer) :
  (∃ c, c ∈ configs ∧ sc (prior_configs ++ [Some c]) < sentinel) →
  (∃ c, c ∈ configs ∧ (_select_sequential configs prior_configs sc).1 = Some c)
  ∧ (_select_sequential configs prior_configs sc).1 ≠ None.
Proof.
  intros Hex.
  destruct (select_sequential_below_sentinel _ _ _ Hex) as (i & c & s & Hi & _ & ->).
  split; [|done]. exists c. split; [|done]. by eapply list_elem_of_lookup_2.
Qed.

Lemma select_sequential_returns_candidate_witness :
  (∃ c, c ∈ ["A"; "B"]%string ∧ (λ _ : list pyconfig, 5) ([] ++ [Some c]) < sentinel)
  ∧ (_select_sequential ["A"; "B"]%string [] (λ _, 5)).1 ≠ None.
Proof.
  assert (∃ c, c ∈ ["A"; "B"]%string
               ∧ (λ _ : list pyconfig, 5) ([] ++ [Some c]) < sentinel) as Hex.
  { exists "A"%string. split; [apply list_elem_of_here | reflexivity]. }
  split; [exact Hex|].
  exact (proj2 (select_sequential_returns_candidate _ _ _ Hex)).
Defined.

(** ** Forward selection when the selector returns a candidate *)

(** The selector hands back one of the candidates it was given.  This holds
    in ray mode, and in sequential mode when scores stay below the sentinel. *)
Definition picks_candidate (self : ZeroshotConfigGenerator) : Prop :=
  ∀ configs prior_configs, configs ≠ [] →
    ∃ c s, c ∈ configs
      ∧ selector self configs prior_configs (config_scorer self) = Some (Some c, s).

Lemma ray_picks_candidate self :
  backend self = "ray"%string → picks_candidate self.
Proof.
  intros Hb configs prior_configs Hne. unfold selector. rewrite Hb. simpl.
  destruct (select_ray_spec configs prior_configs (config_scorer self) Hne)
    as (i & c & s & Hi & _ & ->).
  exists c, s. split; [|done]. by eapply list_elem_of_lookup_2.
Qed.

Lemma bounded_picks_candidate self :
  (∀ l, config_scorer self l < sentinel) → picks_candidate self.
Proof.
  intros Hb configs prior_configs Hne. unfold selector.
  assert (∃ c, c ∈ configs ∧ config_scorer self (prior_configs ++ [Some c]) < sentinel)
    as Hex.
  { destruct configs as [|c cs]; [done|]. exists c. split; [left|apply Hb]. }
  destruct (String.eqb _ _).
  - rewrite (select_modes_agree _ _ _ Hex).
    destruct (select_sequential_below_sentinel _ _ _ Hex) as (i & c & s & Hi & _ & ->).
    exists c, s. split; [|done]. by eapply list_elem_of_lookup_2.
  - destruct (select_sequential_below_sentinel _ _ _ Hex) as (i & c & s & Hi & _ & ->).
    exists c, s. split; [|done]. by eapply list_elem_of_lookup_2.
Qed.

Lemma valid_configs_of_elem self zs c :
  c ∈ valid_configs_of self zs ↔ (Some c ∉ zs) ∧ (c ∈ all_configs self).
Proof. unfold valid_configs_of. apply (list_elem_of_filter (λ c, Some c ∉ zs)). Qed.

Lemma forward_selection_NoDup self num_zeroshot zeroshot_configs result :
  picks_candidate self → NoDup zeroshot_configs →
  forward_selection self num_zeroshot zeroshot_configs = Some result →
  NoDup result.
Proof.
  intros Hpick Hnd Hres.
  eapply (forward_selection_inv (λ zs, NoDup zs)); [|exact Hnd|exact Hres].
  intros zs best s Hzs _ Hne Hsel.
  destruct (Hpick _ zs Hne) as (c & s' & Hc & Hsel').
  rewrite Hsel in Hsel'. injection Hsel' as -> _.
  apply valid_configs_of_elem in Hc as [Hc _].
  apply NoDup_app. split; [done|]. split; [|apply NoDup_singleton].
  intros x Hx ->%list_elem_of_singleton. done.
Qed.

Lemma forward_selection_exhausts self num_zeroshot result :
  picks_candidate self → NoDup (all_configs self) →
  (Z.of_nat (length (all_configs self)) < num_zeroshot)%Z →
  forward_selection self num_zeroshot [] = Some result →
  length result = length (all_configs self).
Proof.
  intros Hpick Hnd HK Hres.
  destruct (forward_selection_inv
              (λ zs, NoDup zs ∧ zs ⊆ Some <$> all_configs self)
              self num_zeroshot) with (zeroshot_configs := @nil pyconfig) (result := result)
    as [[Hndr Hsub] Hexit]; [|split; [constructor|set_solver]|done|].
  { intros zs best s [Hzs Hsub] _ Hne Hsel.
    destruct (Hpick _ zs Hne) as (c & s' & Hc & Hsel').
    rewrite Hsel in Hsel'. injection Hsel' as -> _.
    apply valid_configs_of_elem in Hc as [Hc Hin]. split.
    - apply NoDup_app. split; [done|]. split; [|apply NoDup_singleton].
      intros x Hx ->%list_elem_of_singleton. done.
    - intros x [Hx | ->%list_elem_of_singleton]%elem_of_app; [by apply Hsub|].
      by apply list_elem_of_fmap_2. }
  assert (length result ≤ length (all_configs self))%nat as Hle.
  { rewrite <- (length_fmap Some (all_configs self)).
    apply submseteq_length, NoDup_submseteq; done. }
  destruct Hexit as [Hexit | Hexit]; [lia|].
  apply Nat.le_antisymm; [done|].
  rewrite <- (length_fmap Some (all_configs self)).
  apply submseteq_length, NoDup_submseteq.
  - apply NoDup_fmap_2; [|done]. intros ?? [=]. done.
  - intros x (c & -> & Hc)%list_elem_of_fmap.
    destruct (decide (Some c ∈ result)) as [|Hn]; [done|].
    assert (c ∈ valid_configs_of self result) as Hv by by apply valid_configs_of_elem.
    rewrite Hexit in Hv. by apply elem_of_nil in Hv.
Qed.

(** ** Facts about [py_remove] *)

Lemma py_remove_is_Some x l : x ∈ l → is_Some (py_remove x l).
Proof.
  induction l as [|y l IH]; [by intros ?%elem_of_nil|].
  intros [-> | Hx]%elem_of_cons; simpl.
  - by rewrite decide_True.
  - case_decide; [done|]. destruct (IH Hx) as [l' ->]. done.
Qed.

Lemma py_remove_filter x l l' :
  py_remove x l = Some l' →
  filter (λ c, c ≠ x) l' = filter (λ c, c ≠ x) l.
Proof.
  revert l'. induction l as [|y l IH]; intros l' H; [done|]. simpl in H.
  case_decide as Hy.
  - injection H as <-. subst y. by rewrite filter_cons_False by (intros ?; done).
  - destruct (py_remove x l) as [l''|]; [|done]. injection H as <-.
    rewrite !filter_cons_True by done. f_equal. by apply IH.
Qed.

Lemma py_remove_subseteq x l l' : py_remove x l = Some l' → l' ⊆ l.
Proof.
  revert l'. induction l as [|y l IH]; intros l' H; [done|]. simpl in H.
  case_decide.
  - injection H as <-. intros z Hz. by right.
  - destruct (py_remove x l) as [l''|]; [|done]. injection H as <-.
    specialize (IH _ eq_refl).
    intros z [-> | Hz]%elem_of_cons; [left | right; by apply IH].
Qed.

Lemma py_remove_NoDup x l l' : py_remove x l = Some l' → NoDup l → NoDup l' ∧ x ∉ l'.
Proof.
  revert l'. induction l as [|y l IH]; intros l' H Hnd; [done|]. simpl in H.
  apply NoDup_cons in Hnd as [Hy Hnd]. case_decide.
  - injection H as <-. by subst.
  - destruct (py_remove x l) as [l''|] eqn:Hr; [|done]. injection H as <-.
    destruct (IH _ eq_refl Hnd) as [Hnd' Hx].
    pose proof (py_remove_subseteq _ _ _ Hr) as Hsub. split.
    + apply NoDup_cons. split; [|done]. intros Hy'. by apply Hy, Hsub.
    + intros [-> | Hx']%elem_of_cons; done.
Qed.

Lemma filter_ne_not_elem (x : pyconfig) (l : list pyconfig) :
  x ∉ l → filter (λ c, c ≠ x) l = l.
Proof.
  induction l as [|y l IH]; [done|]. intros [Hy Hl]%not_elem_of_cons.
  rewrite filter_cons_True by done. f_equal. by apply IH.
Qed.

(** ** One pruning round *)

(** The score of the portfolio with every occurrence of [x] taken out. *)
Definition removal_score (sc : scorer) (zeroshot_configs : list pyconfig)
    (x : pyconfig) : Q :=
  sc (filter (λ c, c ≠ x) zeroshot_configs).


(** Whatever the round elects is an entry of the portfolio. *)
Lemma prune_fold_elem sc thr zs b (l : list pyconfig) c :
  (fold_left (prune_step sc thr zs) l (None, b)).1 = Some c → Some c ∈ l.
Proof.
  induction l as [|y l IH] using rev_ind; [done|].
  rewrite fold_left_app. simpl.
  destruct (fold_left _ l _) as [brc bs]. unfold prune_step. simpl in IH.
  rewrite elem_of_app, list_elem_of_singleton.
  destruct brc as [c'|]; destruct (py_le _ _); simpl; intros H; auto.
Qed.

Lemma prune_round_elem sc thr b zs c :
  (prune_round sc thr b zs).1 = Some c → Some c ∈ zs.
Proof. apply prune_fold_elem. Qed.

(** ** The pruning loop as a transition system *)

(** A pass of the [while] loop that removes something: from the loop state
    [(best_score, zeroshot_configs)] to the next one. *)
Definition prune_next (sc : scorer) (thr : Q) (st st' : Q * list pyconfig) : Prop :=
  ∃ c, prune_round sc thr st.1 st.2 = (Some c, st'.1)
     ∧ py_remove (Some c) st.2 = Some st'.2.

Lemma prune_loop_stop sc thr b zs :
  (prune_round sc thr b zs).1 = None → prune_loop sc thr b zs = Some zs.
Proof.
  intros Hstop. funelim (prune_loop sc thr b zs); [done| |];
    rewrite Heq in Hstop; done.
Qed.

Lemma prune_loop_next sc thr st st' :
  prune_next sc thr st st' →
  prune_loop sc thr st.1 st.2 = prune_loop sc thr st'.1 st'.2.
Proof.
  destruct st as [b zs], st' as [b' zs']. intros (c & Hr & Hrm). simpl in *.
  funelim (prune_loop sc thr b zs); rewrite Heq in Hr; by simplify_eq/=.
Qed.

Lemma prune_loop_rtc sc thr st st' :
  rtc (prune_next sc thr) st st' →
  prune_loop sc thr st.1 st.2 = prune_loop sc thr st'.1 st'.2.
Proof.
  induction 1 as [|st1 st2 st3 Hstep _ IH]; [done|].
  by rewrite (prune_loop_next _ _ _ _ Hstep).
Qed.

(** The loop always terminates with a result: it walks [prune_next] until
    a round elects nothing, and returns the portfolio of that state. *)
Lemma prune_loop_spec sc thr b zs :
  ∃ b' r, rtc (prune_next sc thr) (b, zs) (b', r)
    ∧ (prune_round sc thr b' r).1 = None
    ∧ prune_loop sc thr b zs = Some r.
Proof.
  funelim (prune_loop sc thr b zs).
  - exists best_score, zeroshot_configs. by rewrite Heq.
  - destruct H as (b' & r & Hrtc & Hstop & Hres).
    exists b', r. split; [|done].
    eapply rtc_l; [|exact Hrtc]. exists best_remove_config. by split.
  - assert (Some best_remove_config ∈ zeroshot_configs) as Hin.
    { eapply prune_round_elem. by rewrite Heq. }
    apply py_remove_is_Some in Hin as [? Hin]. clear H. rewrite Hin in e. done.
Qed.


(** What holds of every loop state reached from a portfolio of
    configurations [p]: the entries are configurations; [best_score] is the
    score of the current portfolio, unless the entry removed last still has
    a copy in it, in which case it is the score without that entry; and a
    portfolio without duplicates stays so. *)
Definition prune_state_ok (sc : scorer) (p : list config) (st : Q * list pyconfig)
    : Prop :=
  (∀ x, x ∈ st.2 → is_Some x)
  ∧ (st.1 = sc st.2 ∨ ∃ c, Some c ∈ st.2 ∧ st.1 = removal_score sc st.2 (Some c))
  ∧ (NoDup p → NoDup st.2 ∧ st.1 = sc st.2).



Lemma prune_zeroshot_configs_total self zeroshot_configs thr :
  is_Some (prune_zeroshot_configs self zeroshot_configs thr).
Proof.
  unfold prune_zeroshot_configs.
  destruct (prune_loop_spec (config_scorer self) thr
              (config_scorer self zeroshot_configs) zeroshot_configs)
    as (b' & r & _ & _ & ->). done.
Qed.




(** ** The loops, one trip at a time *)

Lemma forward_selection_step_eq self num_zeroshot zs :
  forward_selection self num_zeroshot zs
  = if bool_decide (Z.of_nat (length zs) < num_zeroshot)%Z then
      match valid_configs_of self zs with
      | [] => Some zs
      | valid_configs =>
          match selector self valid_configs zs (config_scorer self) with
          | Some (best_next_config, _) =>
              forward_selection self num_zeroshot (zs ++ [best_next_config])
          | None => None
          end
      end
    else Some zs.
Proof.
  funelim (forward_selection self num_zeroshot zs).
  - by rewrite e.
  - by rewrite Hlen, Heq.
  - by rewrite Hlen, Heq0, Heq.
  - by rewrite Hlen, Heq0, Heq.
Qed.

Lemma prune_loop_step_eq sc thr b zs :
  prune_loop sc thr b zs
  = match prune_round sc thr b zs with
    | (None, _) => Some zs
    | (Some c, b') =>
        match py_remove (Some c) zs with
        | Some zs' => prune_loop sc thr b' zs'
        | None => None
        end
    end.
Proof.
  funelim (prune_loop sc thr b zs).
  - by rewrite Heq.
  - by rewrite Heq, Hrm.
  - by rewrite Heq, e.
Qed.

Lemma prune_zeroshot_configs_nil self thr :
  prune_zeroshot_configs self [] thr = Some [].
Proof. unfold prune_zeroshot_configs. by apply prune_loop_stop. Qed.


Lemma select_zeroshot_configs_total self num_zeroshot prior removal_stage thr :
  is_Some (select_zeroshot_configs self num_zeroshot prior removal_stage thr).
Proof.
  unfold select_zeroshot_configs.
  destruct (forward_selection_total self num_zeroshot
              match prior with None => [] | Some l => Some <$> l end) as [zs ->].
  simpl. destruct removal_stage; [apply prune_zeroshot_configs_total | done].
Qed.

(** ** The scenarios of the specification *)

(** Minus the number of configurations of [hi] present in the list. *)
Definition count_scorer (hi : list config) : scorer := λ l,
  - inject_Z (Z.of_nat (length (filter (λ c, Some c ∈ l) hi))).

Example scenario_forward_selection :
  ∀ b, b ∈ ["sequential"; "ray"]%string →
    select_zeroshot_configs
      {| config_scorer := count_scorer ["A"; "C"]%string;
         all_configs := ["A"; "B"; "C"; "D"]%string; backend := b |}
      2 None false 0
    = Some [Some "A"; Some "C"]%string.
Proof.
  intros b [-> | [-> | []%elem_of_nil]%elem_of_cons]%elem_of_cons;
    vm_compute; reflexivity.
Qed.

(** ** The claims about the selectors and the forward loop *)

Definition const_scorer (v : Q) : scorer := λ _, v.

Definition one_config_pool (b : string) : ZeroshotConfigGenerator :=
  {| config_scorer := const_scorer 1000000000;
     all_configs := ["A"%string];
     backend := b |}.

(** C1 (code defect): sequential and ray mode do not select alike when no
    candidate scores below [999999999].  With the single candidate ["A"]
    scored [1000000000], [_select_sequential] returns its initial
    [(None, 999999999)] and [_select_ray] returns [("A", 1000000000)]; the
    portfolios of [select_zeroshot_configs] are [[None]] and [["A"]]. *)
Theorem select_modes_diverge_at_sentinel :
  _select_sequential ["A"%string] [] (const_scorer 1000000000) = (None, sentinel)
  ∧ _select_ray ["A"%string] [] (const_scorer 1000000000)
    = Some (Some "A"%string, 1000000000)
  ∧ select_zeroshot_configs (one_config_pool "sequential") 1 None false 0
    = Some [None]
  ∧ select_zeroshot_configs (one_config_pool "ray") 1 None false 0
    = Some [Some "A"%string].
Proof. repeat split; vm_compute; reflexivity. Qed.

(** Scores ["B"] last at [1000000000] and everything else at [2000000000]. *)
Definition b_best_scorer : scorer := λ l,
  if decide (last l = Some (Some "B"%string)) then 1000000000 else 2000000000.

(** C3 (code defect): in sequential mode the appended entry is not always a
    minimiser.  For the candidates ["A"; "B"] scored [2000000000] and
    [1000000000] the first minimiser is ["B"] (position 1); ray mode appends
    it, sequential mode appends [None]. *)
Theorem sequential_appends_none_for_minimiser :
  first_argmin (candidate_scores b_best_scorer [] ["A"; "B"]%string) 1 1000000000
  ∧ forward_selection
      {| config_scorer := b_best_scorer; all_configs := ["A"; "B"]%string;
         backend := "ray" |} 1 [] = Some [Some "B"%string]
  ∧ forward_selection
      {| config_scorer := b_best_scorer; all_configs := ["A"; "B"]%string;
         backend := "sequential" |} 1 [] = Some [None].
Proof.
  split; [|split; vm_compute; reflexivity].
  split; [reflexivity|]. split.
  - intros [|[|j]] t [= <-]; vm_compute; discriminate.
  - intros [|[|j]] t Hj [= <-]; [vm_compute; reflexivity | lia].
Qed.

(** C4 (code defect): with the pool [["A"]] (size 1, unique identifiers),
    target 3, no prior portfolio and pruning off, sequential mode with every
    score at [1000000000] returns a portfolio of size 3, not 1. *)
Theorem exhausted_pool_not_detected :
  NoDup (all_configs (one_config_pool "sequential"))
  ∧ length (all_configs (one_config_pool "sequential")) = 1%nat
  ∧ select_zeroshot_configs (one_config_pool "sequential") 3 None false 0
    = Some [None; None; None].
Proof.
  split; [apply NoDup_singleton|]. split; [reflexivity|]. vm_compute. reflexivity.
Qed.

(** C8 (code defect): with the pool [["A"]], no prior portfolio, target 2
    and the default pruning stage, sequential mode with every score at
    [1000000000] returns [[None; None]], which repeats an entry. *)
Theorem portfolio_repeats_none :
  NoDup (all_configs (one_config_pool "sequential"))
  ∧ select_zeroshot_configs (one_config_pool "sequential") 2 None true 0
    = Some [None; None]
  ∧ ¬ NoDup [@None config; None].
Proof.
  split; [apply NoDup_singleton|]. split; [vm_compute; reflexivity|].
  intros [Hn _]%NoDup_cons. apply Hn. left.
Qed.

(** ** The claims about pruning *)

(** Scores any portfolio holding ["B"] at 1 and the others at 0. *)
Definition b_penalty_scorer : scorer := λ l,
  if decide (Some "B"%string ∈ l) then 1 else 0.

Definition abc_generator : ZeroshotConfigGenerator :=
  {| config_scorer := b_penalty_scorer;
     all_configs := ["A"; "B"; "C"]%string;
     backend := "sequential" |}.

(** ["A"] and ["C"] each lower the score by 1; ["B"] raises it by 1. *)
Definition b_worse_scorer : scorer := λ l,
  count_scorer ["A"; "C"]%string l + b_penalty_scorer l.

Example scenario_pruning :
  select_zeroshot_configs
    {| config_scorer := b_worse_scorer; all_configs := ["A"; "B"; "C"]%string;
       backend := "sequential" |} 3 None true 0
  = Some [Some "A"; Some "C"]%string.
Proof. vm_compute. reflexivity. Qed.






(** ** Further properties of the selectors *)

(** With scores below the sentinel the selector does not depend on the
    backend. *)
Lemma bounded_selector_sequential self configs prior_configs :
  (∀ l, config_scorer self l < sentinel) → configs ≠ [] →
  selector self configs prior_configs (config_scorer self)
  = Some (_select_sequential configs prior_configs (config_scorer self)).
Proof.
  intros Hb Hne. unfold selector. destruct (String.eqb _ _); [|done].
  apply select_modes_agree. destruct configs as [|c cs]; [done|].
  exists c. split; [left | apply Hb].
Qed.

Lemma bounded_forward_selection_backend sc pool b b' num_zeroshot :
  (∀ l, sc l < sentinel) →
  ∀ zs,
    forward_selection {| config_scorer := sc; all_configs := pool; backend := b |}
      num_zeroshot zs
    = forward_selection {| config_scorer := sc; all_configs := pool; backend := b' |}
        num_zeroshot zs.
Proof.
  intros Hb zs.
  remember (Z.to_nat (num_zeroshot - Z.of_nat (length zs))) as n eqn:Hn.
  revert zs Hn. induction n as [n IH] using lt_wf_ind. intros zs Hn.
  rewrite !forward_selection_step_eq. case_bool_decide as Hlt; [|done].
  unfold valid_configs_of. simpl.
  destruct (filter _ pool) as [|c cs] eqn:Hv; [done|].
  rewrite !bounded_selector_sequential by done. simpl.
  destruct (_select_sequential _ _ _) as [best s].
  apply (IH (Z.to_nat (num_zeroshot - Z.of_nat (length (zs ++ [best]))))); [|done].
  subst n. rewrite length_app. simpl. lia.
Qed.

(** X3: when every score is below [999999999], [select_zeroshot_configs]
    returns the same portfolio whatever the backend (['ray'] or any other
    string), for every pool, target, prior portfolio and pruning setting;
    and on every candidate list with a score below [999999999] the two
    selectors return the same pair. *)
Theorem bounded_scores_backends_agree (sc : scorer) (pool : list config) :
  (∀ l, sc l < sentinel) →
  (∀ b b' num_zeroshot prior removal_stage thr,
      select_zeroshot_configs
        {| config_scorer := sc; all_configs := pool; backend := b |}
        num_zeroshot prior removal_stage thr
      = select_zeroshot_configs
          {| config_scorer := sc; all_configs := pool; backend := b' |}
          num_zeroshot prior removal_stage thr)
  ∧ (∀ configs prior_configs, configs ≠ [] →
      _select_ray configs prior_configs sc
      = Some (_select_sequential configs prior_configs sc)).
Proof.
  intros Hb. split.
  - intros b b' num_zeroshot prior removal_stage thr.
    unfold select_zeroshot_configs.
    by rewrite (bounded_forward_selection_backend sc pool b b' num_zeroshot Hb).
  - intros configs prior_configs Hne. apply select_modes_agree.
    destruct configs as [|c cs]; [done|]. exists c. split; [left | apply Hb].
Qed.

Lemma bounded_scores_backends_agree_witness :
  (∀ l, b_penalty_scorer l < sentinel)
  ∧ select_zeroshot_configs
      {| config_scorer := b_penalty_scorer; all_configs := ["A"; "B"]%string;
         backend := "ray" |} 2 None true 0
    = select_zeroshot_configs
        {| config_scorer := b_penalty_scorer; all_configs := ["A"; "B"]%string;
           backend := "sequential" |} 2 None true 0.
Proof.
  assert (∀ l, b_penalty_scorer l < sentinel) as Hb.
  { intros l. unfold b_penalty_scorer. case_decide; reflexivity. }
  split; [exact Hb|].
  exact (proj1 (bounded_scores_backends_agree b_penalty_scorer _ Hb)
           "ray"%string "sequential"%string 2%Z None true 0).
Defined.


(** ** Further properties of the forward loop *)

Lemma selector_result self configs prior_configs best s :
  selector self configs prior_configs (config_scorer self) = Some (best, s) →
  best = None ∨ ∃ c, best = Some c ∧ c ∈ configs.
Proof.
  unfold selector. destruct (String.eqb _ _).
  - destruct configs as [|c0 cs]; [done|].
    destruct (select_ray_spec (c0 :: cs) prior_configs (config_scorer self))
      as (i & c & s' & Hi & _ & ->); [done|].
    intros [= <- <-]. right. exists c. split; [done|]. by eapply list_elem_of_lookup_2.
  - destruct (select_sequential_spec configs prior_configs (config_scorer self))
      as [[-> _] | (i & c & s' & Hi & _ & _ & ->)]; intros [= <- <-]; [by left|].
    right. exists c. split; [done|]. by eapply list_elem_of_lookup_2.
Qed.

(** What the loop has appended to the portfolio [zs] it started from. *)
Definition appended_ok (self : ZeroshotConfigGenerator) (num_zeroshot : Z)
    (zs added : list pyconfig) : Prop :=
  (length (zs ++ added) ≤ length zs `max` Z.to_nat num_zeroshot)%nat
  ∧ (∀ x, x ∈ added →
       x = None ∨ ∃ c, x = Some c ∧ c ∈ all_configs self ∧ Some c ∉ zs)
  ∧ NoDup (omap id added).

Lemma forward_selection_appends self num_zeroshot zs :
  ∃ added,
    forward_selection self num_zeroshot zs = Some (zs ++ added)
    ∧ appended_ok self num_zeroshot zs added
    ∧ ((Z.of_nat (length (zs ++ added)) < num_zeroshot)%Z →
       valid_configs_of self (zs ++ added) = []).
Proof.
  destruct (forward_selection_total self num_zeroshot zs) as [r Hr].
  destruct (forward_selection_inv
              (λ zs', ∃ added, zs' = zs ++ added ∧ appended_ok self num_zeroshot zs added)
              self num_zeroshot) with (zeroshot_configs := zs) (result := r)
    as [(added & -> & Hok) Hexit]; [| |done|].
  - intros zs' best s (added & -> & Hlen & Hel & Hnd) Hlt Hne Hsel.
    exists (added ++ [best]). split; [by rewrite app_assoc|]. split; [|split].
    + rewrite app_assoc, length_app. simpl. lia.
    + intros x [Hx | ->%list_elem_of_singleton]%elem_of_app; [by apply Hel|].
      apply selector_result in Hsel as [-> | (c & -> & Hc)]; [by left|].
      apply valid_configs_of_elem in Hc as [Hc Hin]. right. exists c.
      split; [done|]. split; [done|]. intros Hzs. apply Hc, elem_of_app. by left.
    + rewrite omap_app. apply NoDup_app. split; [done|].
      apply selector_result in Hsel as [-> | (c & -> & Hc)]; simpl.
      * split; [by intros ?? ?%elem_of_nil | constructor].
      * apply valid_configs_of_elem in Hc as [Hc _].
        split; [|apply NoDup_singleton].
        intros x Hx ->%list_elem_of_singleton. apply Hc, elem_of_app. right.
        apply list_elem_of_omap in Hx as (y & Hy & Hyc). simpl in Hyc. by subst y.
  - exists []. split; [by rewrite app_nil_r|]. split; [|split].
    + rewrite app_nil_r. lia.
    + by intros x ?%elem_of_nil.
    + constructor.
  - exists added. split; [done|]. split; [done|].
    intros Hlt. by destruct Hexit.
Qed.

(** X4: the forward loop of [select_zeroshot_configs] always ends without
    an exception and only appends: the result is the portfolio it started
    from followed by the new entries.  It never grows the portfolio beyond
    the target; every new entry is [None] or a configuration of the pool
    that the starting portfolio does not hold; no configuration is appended
    twice; and when the result is shorter than the target, no configuration
    of the pool is left outside it. *)
Theorem forward_selection_shape (self : ZeroshotConfigGenerator)
    (num_zeroshot : Z) (zs : list pyconfig) :
  ∃ added,
    forward_selection self num_zeroshot zs = Some (zs ++ added)
    ∧ (length (zs ++ added) ≤ length zs `max` Z.to_nat num_zeroshot)%nat
    ∧ (∀ x, x ∈ added →
         x = None ∨ ∃ c, x = Some c ∧ c ∈ all_configs self ∧ Some c ∉ zs)
    ∧ NoDup (omap id added)
    ∧ ((Z.of_nat (length (zs ++ added)) < num_zeroshot)%Z →
       ∀ c, c ∈ all_configs self → Some c ∈ zs ++ added).
Proof.
  destruct (forward_selection_appends self num_zeroshot zs)
    as (added & Hrun & (Hlen & Hel & Hnd) & Hexit).
  exists added. repeat (split; [done|]).
  intros Hlt c Hc. specialize (Hexit Hlt).
  destruct (decide (Some c ∈ zs ++ added)) as [|Hn]; [done|].
  assert (c ∈ valid_configs_of self (zs ++ added)) as Hv
    by by apply valid_configs_of_elem.
  rewrite Hexit in Hv. by apply elem_of_nil in Hv.
Qed.

Lemma NoDup_filter_ne_length (l : list config) c :
  NoDup l → c ∈ l → S (length (filter (λ c', c' ≠ c) l)) = length l.
Proof.
  induction l as [|y l IH]; [by intros _ ?%elem_of_nil|].
  intros [Hy Hl]%NoDup_cons [-> | Hc]%elem_of_cons.
  - rewrite filter_cons_False by (intros ?; done). simpl. f_equal.
    clear IH. induction l as [|z l IH]; [done|].
    apply not_elem_of_cons in Hy as [Hyz Hy]. apply NoDup_cons in Hl as [_ Hl].
    rewrite filter_cons_True by done. simpl. f_equal. by apply IH.
  - rewrite filter_cons_True by (intros ->; done). simpl. f_equal. by apply IH.
Qed.

Lemma valid_configs_of_snoc self zs c :
  valid_configs_of self (zs ++ [Some c])
  = filter (λ c', c' ≠ c) (valid_configs_of self zs).
Proof.
  unfold valid_configs_of. rewrite list_filter_filter. apply list_filter_iff.
  intros c'. rewrite elem_of_app, list_elem_of_singleton. split.
  - intros Hn. split; [intros -> | intros Hin]; apply Hn; auto.
  - intros [Hne Hn] [Hin | [= ->]]; auto.
Qed.

Lemma forward_selection_count self num_zeroshot :
  picks_candidate self → NoDup (all_configs self) →
  ∀ zs, ∃ cs,
    forward_selection self num_zeroshot zs = Some (zs ++ (Some <$> cs))
    ∧ length cs
      = Z.to_nat (num_zeroshot - Z.of_nat (length zs))
        `min` length (valid_configs_of self zs).
Proof.
  intros Hpick Hnd zs.
  remember (Z.to_nat (num_zeroshot - Z.of_nat (length zs))) as n eqn:Hn.
  revert zs Hn. induction n as [n IH] using lt_wf_ind. intros zs Hn.
  rewrite forward_selection_step_eq. case_bool_decide as Hlt.
  2:{ exists []. simpl. rewrite app_nil_r. split; [done|]. lia. }
  destruct (valid_configs_of self zs) as [|c0 cs0] eqn:Hv.
  { exists []. simpl. rewrite app_nil_r. split; [done|]. lia. }
  destruct (Hpick (c0 :: cs0) zs) as (c & s & Hc & ->); [done|].
  destruct (IH (Z.to_nat (num_zeroshot - Z.of_nat (length (zs ++ [Some c])))))
    with (zs := zs ++ [Some c]) as (cs & Hrun & Hlen); [|done|].
  { subst n. rewrite length_app. simpl. lia. }
  exists (c :: cs). split; [by rewrite Hrun, <- app_assoc|].
  simpl. rewrite Hlen, valid_configs_of_snoc, Hv.
  assert (S (length (filter (λ c', c' ≠ c) (c0 :: cs0))) = length (c0 :: cs0)) as Hf.
  { apply NoDup_filter_ne_length; [|done]. rewrite <- Hv.
    by apply NoDup_filter. }
  rewrite length_app in *. simpl in *. lia.
Qed.

(** X5: in ray mode, or with every score below [999999999], and a pool
    of unique identifiers, the forward loop appends configurations only
    (never [None]), all different, taken from the pool and absent from the
    starting portfolio; their number is the smaller of what the target
    still asks for and the number of pool configurations outside the
    starting portfolio. *)
Theorem forward_selection_selects (self : ZeroshotConfigGenerator)
    (num_zeroshot : Z) (zs : list pyconfig) :
  backend self = "ray"%string ∨ (∀ l, config_scorer self l < sentinel) →
  NoDup (all_configs self) →
  ∃ cs,
    forward_selection self num_zeroshot zs = Some (zs ++ (Some <$> cs))
    ∧ NoDup cs
    ∧ (∀ c, c ∈ cs → c ∈ all_configs self ∧ Some c ∉ zs)
    ∧ length cs
      = Z.to_nat (num_zeroshot - Z.of_nat (length zs))
        `min` length (valid_configs_of self zs).
Proof.
  intros Hmode Hnd.
  assert (picks_candidate self) as Hpick
    by (destruct Hmode; [by apply ray_picks_candidate | by apply bounded_picks_candidate]).
  destruct (forward_selection_count self num_zeroshot Hpick Hnd zs)
    as (cs & Hrun & Hlen).
  destruct (forward_selection_appends self num_zeroshot zs)
    as (added & Hrun' & (_ & Hel & Hnd') & _).
  rewrite Hrun in Hrun'. injection Hrun' as Heq%app_inv_head. subst added.
  exists cs. split; [done|]. split; [|split; [|done]].
  - assert (omap id (Some <$> cs) = cs) as Hid
      by (clear; induction cs as [|c cs IH]; [done|]; simpl; f_equal; exact IH).
    by rewrite Hid in Hnd'.
  - intros c Hc.
    destruct (Hel (Some c)) as [? | (c' & [= <-] & Hin & Hn)];
      [by apply list_elem_of_fmap_2 | done | done].
Qed.

Lemma forward_selection_selects_witness :
  (backend abc_generator = "ray"%string ∨ (∀ l, config_scorer abc_generator l < sentinel))
  ∧ NoDup (all_configs abc_generator)
  ∧ ∃ cs, forward_selection abc_generator 2 [] = Some ([] ++ (Some <$> cs))
      ∧ NoDup cs.
Proof.
  assert (backend abc_generator = "ray"%string
          ∨ (∀ l, config_scorer abc_generator l < sentinel)) as Hmode.
  { right. intros l. simpl. unfold b_penalty_scorer. case_decide; reflexivity. }
  assert (NoDup (all_configs abc_generator)) as Hnd
    by (apply (bool_decide_unpack _); vm_compute; exact I).
  split; [exact Hmode|]. split; [exact Hnd|].
  destruct (forward_selection_selects abc_generator 2 [] Hmode Hnd)
    as (cs & Hrun & Hcs & _).
  exists cs. split; [exact Hrun | exact Hcs].
Defined.

(** ** Further properties of pruning *)

Lemma py_remove_sublist x l l' : py_remove x l = Some l' → l' `sublist_of` l.
Proof.
  revert l'. induction l as [|y l IH]; intros l' H; [done|]. simpl in H.
  case_decide.
  - injection H as <-. by apply sublist_cons.
  - destruct (py_remove x l) as [l''|]; [|done]. injection H as <-.
    apply sublist_skip. by apply IH.
Qed.

Lemma py_remove_elem_of x l l' y :
  py_remove x l = Some l' → y ≠ x → y ∈ l → y ∈ l'.
Proof.
  revert l'. induction l as [|z l IH]; intros l' H Hne; [by intros ?%elem_of_nil|].
  simpl in H. case_decide.
  - injection H as <-. subst z. by intros [-> | ?]%elem_of_cons.
  - destruct (py_remove x l) as [l''|]; [|done]. injection H as <-.
    intros [-> | ?]%elem_of_cons; [left | right; by eapply IH].
Qed.

(** X6: [prune_zeroshot_configs] returns for every portfolio (it never
    raises), and its result is the portfolio with some entries taken out:
    nothing is added and the order is kept.  A [None] entry is never taken
    out. *)
Theorem prune_returns_sublist (self : ZeroshotConfigGenerator)
    (zeroshot_configs : list pyconfig) (thr : Q) :
  ∃ r, prune_zeroshot_configs self zeroshot_configs thr = Some r
     ∧ r `sublist_of` zeroshot_configs
     ∧ (None ∈ zeroshot_configs → None ∈ r).
Proof.
  unfold prune_zeroshot_configs.
  destruct (prune_loop_spec (config_scorer self) thr
              (config_scorer self zeroshot_configs) zeroshot_configs)
    as (b' & r & Hrtc & _ & Hres).
  exists r. split; [done|]. clear Hres.
  remember (config_scorer self zeroshot_configs, zeroshot_configs) as st eqn:Hst.
  remember (b', r) as st' eqn:Hst'.
  replace zeroshot_configs with st.2 by by subst.
  replace r with st'.2 by by subst. clear Hst Hst'.
  induction Hrtc as [|st1 st2 st3 (c & _ & Hrm) _ [IH1 IH2]]; [done|]. split.
  - etrans; [exact IH1|]. by eapply py_remove_sublist.
  - intros Hnone. apply IH2. by eapply py_remove_elem_of.
Qed.

End Value.

(** * Selection and pruning with scores as binary64 floats

    The scores that [config_scorer.score] returns are Python floats.  For
    the properties that depend on how floats behave -- the sum
    [best_score + removal_threshold] is rounded, and a NaN is neither [<],
    [<=] nor [==] to anything -- this module embeds the two selectors and
    [prune_zeroshot_configs] once more, with scores in Rocq's primitive
    binary64 floats: [<], [<=], [==] and [+] are the IEEE 754 operations
    that Python uses. *)
Module Binary64.
Import Floats.PrimFloat Floats.SpecFloat Floats.FloatAxioms Floats.FloatOps.

(** ** Python's comparisons and sum of floats *)

(** [a < b], [a <= b], [a == b], [a is b] for two floats of a list, and
    [a + b]. *)
Definition py_lt (a b : float) : bool := PrimFloat.ltb a b.
Definition py_le (a b : float) : bool := PrimFloat.leb a b.
Definition py_eq (a b : float) : bool := PrimFloat.eqb a b.
Definition py_is (a b : float) : bool := PrimFloat.Leibniz.eqb a b.
Definition py_add (a b : float) : float := PrimFloat.add a b.

(** *** The order of floats

    The comparisons are specified on the decoded floats ([Prim2SF]) by
    [SFcompare], which answers [None] when an operand is NaN. *)

Ltac sf_cases :=
  repeat match goal with x : spec_float |- _ => destruct x end;
  simpl in *; try done;
  repeat match goal with b : bool |- _ => destruct b end;
  simpl in *; try (simplify_eq/=; done);
  repeat match goal with
    | |- context [Z.compare ?a ?b] => destruct (Z.compare_spec a b)
    | H : context [Z.compare ?a ?b] |- _ => destruct (Z.compare_spec a b)
    end;
  subst; simpl in *; try lia; try (simplify_eq/=; done);
  rewrite ?Pos.compare_cont_spec in *; simpl in *;
  repeat match goal with
    | |- context [Pos.compare ?a ?b] => destruct (Pos.compare_spec a b)
    | H : context [Pos.compare ?a ?b] |- _ => destruct (Pos.compare_spec a b)
    end;
  subst; simpl in *; try lia; try (simplify_eq/=; done).

Lemma SFcompare_trans x y z c :
  SFcompare x y = Some c → SFcompare y z = Some c → SFcompare x z = Some c.
Proof. intros; sf_cases. Qed.

Lemma SFcompare_Eq_l x y z :
  SFcompare x y = Some Eq → SFcompare x z = SFcompare y z.
Proof. intros; sf_cases. Qed.

Lemma SFcompare_Eq_r x y z :
  SFcompare x y = Some Eq → SFcompare z x = SFcompare z y.
Proof. intros; sf_cases. Qed.

Lemma SFcompare_opp x y c :
  SFcompare x y = Some c → SFcompare y x = Some (CompOpp c).
Proof. intros; sf_cases. Qed.

Lemma SFcompare_refl x y c :
  SFcompare x y = Some c → SFcompare x x = Some Eq ∧ SFcompare y y = Some Eq.
Proof. intros; split; sf_cases. Qed.

Lemma SFcompare_total x y :
  SFcompare x x = Some Eq → SFcompare y y = Some Eq → is_Some (SFcompare x y).
Proof. intros; sf_cases; by eexists. Qed.

(** The outcome of comparing two floats: [None] when one is NaN. *)
Definition cmp (a b : float) : option comparison :=
  SFcompare (Prim2SF a) (Prim2SF b).

Lemma py_lt_cmp a b : py_lt a b = true ↔ cmp a b = Some Lt.
Proof.
  unfold py_lt, cmp. rewrite ltb_spec. unfold SFltb.
  destruct (SFcompare _ _) as [[]|]; split; congruence.
Qed.

Lemma py_le_cmp a b : py_le a b = true ↔ cmp a b = Some Lt ∨ cmp a b = Some Eq.
Proof.
  unfold py_le, cmp. rewrite leb_spec. unfold SFleb.
  destruct (SFcompare _ _) as [[]|]; split; intros; try tauto; try congruence;
    destruct H; congruence.
Qed.

Lemma py_eq_cmp a b : py_eq a b = true ↔ cmp a b = Some Eq.
Proof.
  unfold py_eq, cmp. rewrite eqb_spec. unfold SFeqb.
  destruct (SFcompare _ _) as [[]|]; split; congruence.
Qed.

Lemma py_is_eq a b : py_is a b = true ↔ a = b.
Proof. apply Leibniz.eqb_spec. Qed.

Lemma py_le_trans a b c : py_le a b = true → py_le b c = true → py_le a c = true.
Proof.
  rewrite !py_le_cmp. unfold cmp.
  intros [H1 | H1] [H2 | H2].
  - left. by eapply SFcompare_trans.
  - left. by rewrite <- (SFcompare_Eq_r _ _ _ H2).
  - left. by rewrite (SFcompare_Eq_l _ _ _ H1).
  - right. by eapply SFcompare_trans.
Qed.

Lemma py_lt_trans a b c : py_lt a b = true → py_lt b c = true → py_lt a c = true.
Proof. rewrite !py_lt_cmp. apply SFcompare_trans. Qed.

Lemma py_le_lt_trans a b c : py_le a b = true → py_lt b c = true → py_lt a c = true.
Proof.
  rewrite py_le_cmp, !py_lt_cmp. unfold cmp. intros [H1 | H1] H2.
  - by eapply SFcompare_trans.
  - by rewrite (SFcompare_Eq_l _ _ _ H1).
Qed.

Lemma py_lt_le_trans a b c : py_lt a b = true → py_le b c = true → py_lt a c = true.
Proof.
  rewrite py_le_cmp, !py_lt_cmp. unfold cmp. intros H1 [H2 | H2].
  - by eapply SFcompare_trans.
  - by rewrite <- (SFcompare_Eq_r _ _ _ H2).
Qed.

Lemma py_lt_le a b : py_lt a b = true → py_le a b = true.
Proof. rewrite py_lt_cmp, py_le_cmp. by left. Qed.

Lemma py_lt_irrefl a : py_lt a a = false.
Proof.
  destruct (py_lt a a) eqn:E; [|done]. apply py_lt_cmp in E.
  destruct (SFcompare_refl _ _ _ E) as [E' _]. unfold cmp in E. congruence.
Qed.

Lemma py_lt_not_le a b : py_lt a b = true → py_le b a = false.
Proof.
  intros H%py_lt_cmp. destruct (py_le b a) eqn:E; [|done].
  apply SFcompare_opp in H. simpl in H.
  apply py_le_cmp in E as [E | E]; unfold cmp in E; congruence.
Qed.

(** A float is a number (not NaN) exactly when it is [<=] itself. *)
Lemma py_le_number a b : py_le a b = true → py_le a a = true ∧ py_le b b = true.
Proof.
  rewrite !py_le_cmp. intros [H | H];
    destruct (SFcompare_refl _ _ _ H); split; by right.
Qed.

Lemma py_le_total a b :
  py_le a a = true → py_le b b = true → py_le a b = false → py_lt b a = true.
Proof.
  intros Ha Hb Hab.
  assert (cmp a a = Some Eq) as Ha'.
  { apply py_le_cmp in Ha as [Ha | Ha]; [|done].
    by destruct (SFcompare_refl _ _ _ Ha). }
  assert (cmp b b = Some Eq) as Hb'.
  { apply py_le_cmp in Hb as [Hb | Hb]; [|done].
    by destruct (SFcompare_refl _ _ _ Hb). }
  destruct (SFcompare_total _ _ Ha' Hb') as [c Hc].
  apply py_lt_cmp. unfold cmp. rewrite (SFcompare_opp _ _ _ Hc).
  destruct c; simpl; [| |done].
  - assert (py_le a b = true) by (apply py_le_cmp; by right). congruence.
  - assert (py_le a b = true) by (apply py_le_cmp; by left). congruence.
Qed.

(** Adding [0] does not move a float in the order. *)
Lemma py_add_zero_cmp a b : cmp a (py_add b 0%float) = cmp a b.
Proof.
  unfold cmp, py_add. rewrite add_spec.
  change (Prim2SF 0%float) with (S754_zero false).
  unfold SF64add. generalize (Prim2SF a) (Prim2SF b). intros x y.
  destruct y as [[]|[]| |[] m e]; simpl; try done; destruct x as [[]|[]| |[] ? ?]; done.
Qed.

Lemma py_le_add_zero a b : py_le a (py_add b 0%float) = py_le a b.
Proof.
  apply eq_true_iff_eq. by rewrite !py_le_cmp, py_add_zero_cmp.
Qed.


(** ** The two selectors *)

(** The scoring oracle [config_scorer.score], returning a float. *)
Definition scorer := list pyconfig → float.

(** The initial [best_score] of [_select_sequential]: the int [999999999],
    which compares with a float as the float of the same value. *)
Definition sentinel : float := 999999999%float.

(** Body of the [for config in configs] loop of [_select_sequential]; the
    loop state is [(best_next_config, best_score)]. *)
Definition sequential_step (config_scorer : scorer) (prior_configs : list pyconfig)
    (st : pyconfig * float) (config : config) : pyconfig * float :=
  let '(best_next_config, best_score) := st in
  let config_selected := prior_configs ++ [Some config] in
  let config_score := config_scorer config_selected in
  if py_lt config_score best_score
  then (Some config, config_score)
  else (best_next_config, best_score).

Definition _select_sequential (configs : list config) (prior_configs : list pyconfig)
    (config_scorer : scorer) : pyconfig * float :=
  fold_left (sequential_step config_scorer prior_configs) configs (None, sentinel).

(** [score_config_ray]: the remote task. *)
Definition score_config_ray (config_scorer : scorer) (existing_configs : list pyconfig)
    (new_config : config) : float :=
  let configs := existing_configs ++ [Some new_config] in
  config_scorer configs.

(** Python's [min(l)]: starts from the first element and replaces the
    current minimum by each later element that is [<] it; [ValueError]
    ([None]) on the empty list. *)
Definition py_min (l : list float) : option float :=
  match l with
  | [] => None
  | x :: xs => Some (fold_left (λ m y, if py_lt y m then y else m) xs x)
  end.

(** Python's [l.index(v)]: the first position whose element is [v] itself
    or [== v]; [ValueError] ([None]) when there is none.  [_select_ray]
    looks up an element of the list, so "is" is taken as equality of the
    two floats: a NaN, which is [==] to nothing, is found where it stands. *)
Fixpoint py_index (l : list float) (v : float) : option nat :=
  match l with
  | [] => None
  | x :: xs => if py_is x v || py_eq x v then Some 0%nat else S <$> py_index xs v
  end.

(** [_select_ray]: [ray.get] returns the scores in submission order. *)
Definition _select_ray (configs : list config) (prior_configs : list pyconfig)
    (config_scorer : scorer) : option (pyconfig * float) :=
  let result := map (score_config_ray config_scorer prior_configs) configs in
  m ← py_min result;
  result_idx_min ← py_index result m;
  best_next_config ← configs !! result_idx_min;
  best_score ← result !! result_idx_min;
  Some (Some best_next_config, best_score).

(** ** Backward pruning *)

Record ZeroshotConfigGenerator := {
  config_scorer : scorer;
  all_configs : list config;
  backend : string;
}.

(** Body of [for config in zeroshot_configs] in one pruning round; the loop
    state is [(best_remove_config, best_score)].  [removal_threshold] is a
    float (the default [0] is converted when it is added to a float). *)
Definition prune_step (config_scorer : scorer) (removal_threshold : float)
    (zeroshot_configs : list pyconfig) (st : pyconfig * float) (config : pyconfig)
    : pyconfig * float :=
  let '(best_remove_config, best_score) := st in
  let config_selected := filter (λ c, c ≠ config) zeroshot_configs in
  let config_score := config_scorer config_selected in
  match best_remove_config with
  | None =>
      if py_le config_score (py_add best_score removal_threshold)
      then (config, config_score) else (best_remove_config, best_score)
  | Some _ =>
      if py_le config_score best_score
      then (config, config_score) else (best_remove_config, best_score)
  end.

Definition prune_round (config_scorer : scorer) (removal_threshold : float)
    (best_score : float) (zeroshot_configs : list pyconfig) : pyconfig * float :=
  fold_left (prune_step config_scorer removal_threshold zeroshot_configs)
    zeroshot_configs (None, best_score).

(** The [while not finished_removal] loop, entered with the current
    [best_score]. *)
Equations? prune_loop (config_scorer : scorer) (removal_threshold : float)
    (best_score : float) (zeroshot_configs : list pyconfig) : option (list pyconfig)
    by wf (length zeroshot_configs) lt :=
  prune_loop config_scorer removal_threshold best_score zeroshot_configs
    with prune_round config_scorer removal_threshold best_score zeroshot_configs := {
    | (None, _) => Some zeroshot_configs
    | (Some best_remove_config, best_score')
        with inspect (Value.py_remove (Some best_remove_config) zeroshot_configs) := {
        | exist _ None _ => None
        | exist _ (Some zeroshot_configs') Hrm =>
            prune_loop config_scorer removal_threshold best_score' zeroshot_configs' } }.
Proof.
  apply Value.py_remove_length in Hrm. lia.
Qed.

(** [copy.deepcopy] of a list of strings and [None] is the list itself as a
    value. *)
Definition prune_zeroshot_configs (self : ZeroshotConfigGenerator)
    (zeroshot_configs : list pyconfig) (removal_threshold : float)
    : option (list pyconfig) :=
  let best_score := config_scorer self zeroshot_configs in
  prune_loop (config_scorer self) removal_threshold best_score zeroshot_configs.

(** ** The selectors return a first candidate of least score *)

Section selectors.
Context (sc : scorer) (prior_configs : list pyconfig).

(** The score of the prior portfolio extended by [c]. *)
Definition extended_score (c : config) : float := sc (prior_configs ++ [Some c]).

(** [c], at position [i] of [configs], is a first candidate of least score:
    no candidate scores strictly less, and no earlier candidate scores less
    or the same. *)
Definition first_least (configs : list config) (i : nat) (c : config) : Prop :=
  configs !! i = Some c
  ∧ (∀ c', c' ∈ configs → py_lt (extended_score c') (extended_score c) = false)
  ∧ (∀ j c', (j < i)%nat → configs !! j = Some c' →
       py_le (extended_score c') (extended_score c) = false).

Lemma sequential_fold_least configs :
  let r := fold_left (sequential_step sc prior_configs) configs (None, sentinel) in
  (r = (None, sentinel)
   ∧ ∀ c, c ∈ configs → py_lt (extended_score c) sentinel = false)
  ∨ (∃ i c, r = (Some c, extended_score c)
       ∧ py_lt (extended_score c) sentinel = true
       ∧ first_least configs i c).
Proof.
  induction configs as [|y l IH] using rev_ind; simpl.
  - left. split; [done|]. by intros c ?%elem_of_nil.
  - rewrite fold_left_app. simpl.
    destruct IH as [[-> Hall] | (i & c & -> & Hlt & Hc & Hmin & Hfirst)];
      unfold sequential_step; fold (extended_score y).
    + destruct (py_lt (extended_score y) sentinel) eqn:Hy.
      * right. exists (length l), y. split; [done|]. split; [done|].
        split; [by rewrite lookup_app_r, Nat.sub_diag|]. split.
        -- intros c' [Hc' | ->%list_elem_of_singleton]%elem_of_app;
             [|apply py_lt_irrefl].
           destruct (py_lt (extended_score c') _) eqn:E; [|done].
           pose proof (Hall c' Hc') as Hx. by rewrite (py_lt_trans _ _ _ E Hy) in Hx.
        -- intros j c' Hj Hc'. rewrite lookup_app_l in Hc' by done.
           destruct (py_le (extended_score c') _) eqn:E; [|done].
           apply list_elem_of_lookup_2 in Hc'.
           pose proof (Hall c' Hc') as Hx. by rewrite (py_le_lt_trans _ _ _ E Hy) in Hx.
      * left. split; [done|].
        intros c' [Hc' | ->%list_elem_of_singleton]%elem_of_app; [by apply Hall|done].
    + pose proof (lookup_lt_Some _ _ _ Hc) as Hi.
      destruct (py_lt (extended_score y) (extended_score c)) eqn:Hy.
      * right. exists (length l), y. split; [done|].
        split; [by eapply py_lt_trans|].
        split; [by rewrite lookup_app_r, Nat.sub_diag|]. split.
        -- intros c' [Hc' | ->%list_elem_of_singleton]%elem_of_app;
             [|apply py_lt_irrefl].
           destruct (py_lt (extended_score c') _) eqn:E; [|done].
           pose proof (Hmin c' Hc') as Hx. by rewrite (py_lt_trans _ _ _ E Hy) in Hx.
        -- intros j c' Hj Hc'. rewrite lookup_app_l in Hc' by done.
           destruct (py_le (extended_score c') _) eqn:E; [|done].
           apply list_elem_of_lookup_2 in Hc'.
           pose proof (Hmin c' Hc') as Hx. by rewrite (py_le_lt_trans _ _ _ E Hy) in Hx.
      * right. exists i, c. split; [done|]. split; [done|].
        split; [by rewrite lookup_app_l|]. split.
        -- intros c' [Hc' | ->%list_elem_of_singleton]%elem_of_app;
             [by apply Hmin | done].
        -- intros j c' Hj Hc'. rewrite lookup_app_l in Hc' by lia.
           by eapply Hfirst.
Qed.

(** What [min] returns: an element at some position [p] that nothing is
    strictly below and that no earlier element is [<=]; it is NaN exactly
    when the first element is. *)
Lemma py_min_fold_least (x : float) (xs : list float) :
  let m := fold_left (λ m y, if py_lt y m then y else m) xs x in
  ∃ p, (x :: xs) !! p = Some m
     ∧ (∀ y, y ∈ x :: xs → py_lt y m = false)
     ∧ (∀ j y, (j < p)%nat → (x :: xs) !! j = Some y → py_le y m = false)
     ∧ (py_le m m = false → p = 0%nat)
     ∧ (py_le x x = false → p = 0%nat).
Proof.
  induction xs as [|y l IH] using rev_ind; simpl.
  - exists 0%nat. split; [done|]. split.
    + intros y ->%list_elem_of_singleton. apply py_lt_irrefl.
    + split; [intros; lia | done].
  - rewrite fold_left_app. simpl.
    destruct IH as (p & Hp & Hmin & Hfirst & Hnan & Hnan0).
    set (m := fold_left _ l x) in *.
    pose proof (lookup_lt_Some _ _ _ Hp) as Hlen. simpl in Hlen.
    destruct (py_lt y m) eqn:Hy.
    + exists (S (length l)).
      destruct (py_le_number _ _ (py_lt_le _ _ Hy)) as [Hyy Hmm].
      split; [|split; [|split; [|split]]].
      * change (x :: l ++ [y]) with ((x :: l) ++ [y]).
        rewrite lookup_app_r by (simpl; lia). simpl. by rewrite Nat.sub_diag.
      * change (x :: l ++ [y]) with ((x :: l) ++ [y]).
        intros z [Hz | ->%list_elem_of_singleton]%elem_of_app; [|apply py_lt_irrefl].
        destruct (py_lt z y) eqn:E; [|done].
        pose proof (Hmin z Hz) as Hx. by rewrite (py_lt_trans _ _ _ E Hy) in Hx.
      * change (x :: l ++ [y]) with ((x :: l) ++ [y]).
        intros j z Hj Hz. rewrite lookup_app_l in Hz by (simpl; lia).
        destruct (py_le z y) eqn:E; [|done].
        apply list_elem_of_lookup_2 in Hz.
        pose proof (Hmin z Hz) as Hx. by rewrite (py_le_lt_trans _ _ _ E Hy) in Hx.
      * intros E. by rewrite Hyy in E.
      * intros E. specialize (Hnan0 E). subst p. simpl in Hp.
        injection Hp as Hx. rewrite Hx in E. by rewrite Hmm in E.
    + exists p. split; [|split; [|split; [|split]]]; [| | |done|done].
      * change (x :: l ++ [y]) with ((x :: l) ++ [y]).
        by rewrite lookup_app_l by (simpl; lia).
      * change (x :: l ++ [y]) with ((x :: l) ++ [y]).
        intros z [Hz | ->%list_elem_of_singleton]%elem_of_app; [by apply Hmin | done].
      * change (x :: l ++ [y]) with ((x :: l) ++ [y]).
        intros j z Hj Hz. rewrite lookup_app_l in Hz by (simpl; lia).
        by eapply Hfirst.
Qed.

Lemma py_index_first (l : list float) (m : float) (p : nat) :
  l !! p = Some m →
  (∀ j y, (j < p)%nat → l !! j = Some y → py_le y m = false) →
  (py_le m m = false → p = 0%nat) →
  py_index l m = Some p.
Proof.
  revert p. induction l as [|y l IH]; intros p Hp Hfirst Hnan; [done|].
  destruct p as [|p]; simpl in *.
  - injection Hp as ->. by rewrite (proj2 (py_is_eq m m) eq_refl).
  - assert (py_le y m = false) as Hy by (apply (Hfirst 0%nat); [lia | done]).
    assert (py_le m m = true) as Hmm.
    { destruct (py_le m m) eqn:E; [done|]. by specialize (Hnan eq_refl). }
    assert (py_is y m = false) as ->.
    { destruct (py_is y m) eqn:E; [|done]. apply py_is_eq in E as ->. congruence. }
    assert (py_eq y m = false) as ->.
    { destruct (py_eq y m) eqn:E; [|done]. apply py_eq_cmp in E.
      assert (py_le y m = true) by (apply py_le_cmp; by right). congruence. }
    simpl. rewrite (IH p); [done | done | | by rewrite Hmm].
    intros j z Hj Hz. apply (Hfirst (S j)); [lia | done].
Qed.

(** X2: [_select_sequential] returns its initial pair [(None, 999999999)]
    exactly when no candidate's score compares below [999999999] (a NaN
    never does; so in particular on an empty list).  Otherwise it returns,
    with its score, a candidate scoring below [999999999] such that no
    candidate scores strictly less and no earlier candidate scores less or
    the same. *)
Theorem select_sequential_first_least (configs : list config) :
  ((∀ c, c ∈ configs → py_lt (extended_score c) sentinel = false)
   ∧ _select_sequential configs prior_configs sc = (None, sentinel))
  ∨ (∃ i c, _select_sequential configs prior_configs sc = (Some c, extended_score c)
       ∧ py_lt (extended_score c) sentinel = true
       ∧ first_least configs i c).
Proof.
  destruct (sequential_fold_least configs) as [[Hr Hall] | (i & c & Hr & Hlt & Hc)].
  - by left.
  - right. by exists i, c.
Qed.

(** X1: [_select_ray] raises exactly on an empty candidate list.  On any
    other list it returns, with its score, a candidate such that no
    candidate scores strictly less and no earlier candidate scores less or
    the same; the returned score is NaN exactly when the score of the first
    candidate is, and then the first candidate is returned. *)
Theorem select_ray_first_least (configs : list config) :
  (configs = [] → _select_ray configs prior_configs sc = None)
  ∧ (configs ≠ [] →
     ∃ i c, _select_ray configs prior_configs sc = Some (Some c, extended_score c)
       ∧ first_least configs i c
       ∧ (py_le (extended_score c) (extended_score c) = false → i = 0%nat)
       ∧ (∀ c0, configs !! 0%nat = Some c0 →
            py_le (extended_score c0) (extended_score c0) = false → i = 0%nat)).
Proof.
  split; [by intros ->|]. intros Hne.
  destruct configs as [|c0 cs]; [done|]. clear Hne.
  unfold _select_ray. cbn [map py_min mbind option_bind].
  change (score_config_ray sc prior_configs) with extended_score.
  destruct (py_min_fold_least (extended_score c0) (map extended_score cs))
    as (p & Hp & Hmin & Hfirst & Hnan & Hnan0).
  set (m := fold_left _ _ _) in *.
  change (extended_score c0 :: map extended_score cs)
    with (map extended_score (c0 :: cs)) in *.
  rewrite (py_index_first _ m p Hp Hfirst Hnan). cbn [mbind option_bind].
  rewrite list_lookup_fmap in Hp.
  destruct ((c0 :: cs) !! p) as [c|] eqn:Hc; [|done]. injection Hp as Hm.
  cbn [mbind option_bind]. rewrite list_lookup_fmap, Hc. cbn [fmap option_fmap option_map mbind option_bind].
  exists p, c. split; [done|]. split; [split; [done|split]|split].
  - intros c' Hc'. rewrite Hm. apply Hmin. by apply list_elem_of_fmap_2.
  - intros j c' Hj Hc'. rewrite Hm. apply (Hfirst j); [done|].
    by rewrite list_lookup_fmap, Hc'.
  - by rewrite Hm.
  - intros c0' [= <-]. done.
Qed.

End selectors.

(** ** One pruning round *)

(** The score of the portfolio with every occurrence of [x] taken out. *)
Definition removal_score (sc : scorer) (zeroshot_configs : list pyconfig)
    (x : pyconfig) : float :=
  sc (filter (λ c, c ≠ x) zeroshot_configs).

(** A round over entries that are all configurations, entered with
    [best_score = b]: either nothing is within the threshold [b + thr] (the
    float sum) and nothing is elected, or the round elects an entry within
    the threshold whose exclusion score is [<=] that of every entry within
    the threshold. *)
Lemma float_prune_fold_spec sc thr zs b (l : list pyconfig) :
  (∀ x, x ∈ l → is_Some x) →
  let r := fold_left (prune_step sc thr zs) l (None, b) in
  (r = (None, b)
   ∧ ∀ x, x ∈ l → py_le (removal_score sc zs x) (py_add b thr) = false)
  ∨ (∃ c, r = (Some c, removal_score sc zs (Some c)) ∧ Some c ∈ l
       ∧ py_le (removal_score sc zs (Some c)) (py_add b thr) = true
       ∧ ∀ x, x ∈ l → py_le (removal_score sc zs x) (py_add b thr) = true →
           py_le (removal_score sc zs (Some c)) (removal_score sc zs x) = true).
Proof.
  induction l as [|y l IH] using rev_ind; intros Hsome; simpl.
  - left. split; [done|]. by intros x ?%elem_of_nil.
  - rewrite fold_left_app. simpl.
    destruct (Hsome y) as [cy ->]; [set_solver|].
    destruct IH as [[-> Hall] | (c & -> & Hc & Hthr & Hmin)]; [set_solver| |];
      unfold prune_step; fold (removal_score sc zs (Some cy)).
    + destruct (py_le (removal_score sc zs (Some cy)) _) eqn:Hle.
      * right. exists cy. split; [done|]. split; [set_solver|]. split; [done|].
        intros x [Hx | ->%list_elem_of_singleton]%elem_of_app Hel.
        -- by rewrite (Hall x Hx) in Hel.
        -- by destruct (py_le_number _ _ Hle).
      * left. split; [done|].
        intros x [Hx | ->%list_elem_of_singleton]%elem_of_app; [by apply Hall | done].
    + destruct (py_le (removal_score sc zs (Some cy)) _) eqn:Hle.
      * right. exists cy. split; [done|]. split; [set_solver|].
        split; [by eapply py_le_trans|].
        intros x [Hx | ->%list_elem_of_singleton]%elem_of_app Hel.
        -- eapply py_le_trans; [exact Hle | by apply Hmin].
        -- by destruct (py_le_number _ _ Hle).
      * right. exists c. split; [done|]. split; [set_solver|]. split; [done|].
        intros x [Hx | ->%list_elem_of_singleton]%elem_of_app Hel; [by apply Hmin|].
        apply py_lt_le, py_le_total;
          [by destruct (py_le_number _ _ Hel) | by destruct (py_le_number _ _ Hthr)
          | done].
Qed.

(** Whatever the round elects is an entry of the portfolio. *)
Lemma float_prune_fold_elem sc thr zs b (l : list pyconfig) c :
  (fold_left (prune_step sc thr zs) l (None, b)).1 = Some c → Some c ∈ l.
Proof.
  induction l as [|y l IH] using rev_ind; [done|].
  rewrite fold_left_app. simpl.
  destruct (fold_left _ l _) as [brc bs]. unfold prune_step. simpl in IH.
  rewrite elem_of_app, list_elem_of_singleton.
  destruct brc as [c'|]; destruct (py_le _ _); simpl; intros H; auto.
Qed.

Lemma float_prune_round_elem sc thr b zs c :
  (prune_round sc thr b zs).1 = Some c → Some c ∈ zs.
Proof. apply float_prune_fold_elem. Qed.

Lemma float_prune_round_spec sc thr b zs :
  (∀ x, x ∈ zs → is_Some x) →
  (prune_round sc thr b zs = (None, b)
     ∧ ∀ x, x ∈ zs → py_le (removal_score sc zs x) (py_add b thr) = false)
  ∨ (∃ c, prune_round sc thr b zs = (Some c, removal_score sc zs (Some c))
       ∧ Some c ∈ zs
       ∧ py_le (removal_score sc zs (Some c)) (py_add b thr) = true
       ∧ ∀ x, x ∈ zs → py_le (removal_score sc zs x) (py_add b thr) = true →
           py_le (removal_score sc zs (Some c)) (removal_score sc zs x) = true).
Proof. apply float_prune_fold_spec. Qed.

(** ** The pruning loop as a transition system *)

(** A pass of the [while] loop that removes something: from the loop state
    [(best_score, zeroshot_configs)] to the next one. *)
Definition prune_next (sc : scorer) (thr : float) (st st' : float * list pyconfig)
    : Prop :=
  ∃ c, prune_round sc thr st.1 st.2 = (Some c, st'.1)
     ∧ Value.py_remove (Some c) st.2 = Some st'.2.

Lemma float_prune_loop_stop sc thr b zs :
  (prune_round sc thr b zs).1 = None → prune_loop sc thr b zs = Some zs.
Proof.
  intros Hstop. funelim (prune_loop sc thr b zs); [done| |];
    rewrite Heq in Hstop; done.
Qed.

Lemma float_prune_loop_next sc thr st st' :
  prune_next sc thr st st' →
  prune_loop sc thr st.1 st.2 = prune_loop sc thr st'.1 st'.2.
Proof.
  destruct st as [b zs], st' as [b' zs']. intros (c & Hr & Hrm). simpl in *.
  funelim (prune_loop sc thr b zs); rewrite Heq in Hr; by simplify_eq/=.
Qed.

Lemma float_prune_loop_rtc sc thr st st' :
  rtc (prune_next sc thr) st st' →
  prune_loop sc thr st.1 st.2 = prune_loop sc thr st'.1 st'.2.
Proof.
  induction 1 as [|st1 st2 st3 Hstep _ IH]; [done|].
  by rewrite (float_prune_loop_next _ _ _ _ Hstep).
Qed.

(** The loop always terminates with a result: it walks [prune_next] until
    a round elects nothing, and returns the portfolio of that state. *)
Lemma float_prune_loop_spec sc thr b zs :
  ∃ b' r, rtc (prune_next sc thr) (b, zs) (b', r)
    ∧ (prune_round sc thr b' r).1 = None
    ∧ prune_loop sc thr b zs = Some r.
Proof.
  funelim (prune_loop sc thr b zs).
  - exists best_score, zeroshot_configs. by rewrite Heq.
  - destruct H as (b' & r & Hrtc & Hstop & Hres).
    exists b', r. split; [|done].
    eapply rtc_l; [|exact Hrtc]. exists best_remove_config. by split.
  - assert (Some best_remove_config ∈ zeroshot_configs) as Hin.
    { eapply float_prune_round_elem. by rewrite Heq. }
    apply Value.py_remove_is_Some in Hin as [? Hin]. clear H. rewrite Hin in e. done.
Qed.

(** What holds of every loop state reached from a portfolio [zs] of
    configurations without duplicates: the entries are configurations, none
    twice, and [best_score] is the score of the current portfolio. *)
Definition prune_state_ok (sc : scorer) (st : float * list pyconfig) : Prop :=
  (∀ x, x ∈ st.2 → is_Some x) ∧ NoDup st.2 ∧ st.1 = sc st.2.

Lemma float_prune_next_ok sc thr st st' :
  prune_state_ok sc st → prune_next sc thr st st' → prune_state_ok sc st'.
Proof.
  destruct st as [b q], st' as [b' q'].
  intros (Hsome & Hnd & _) (c & Hround & Hrm). simpl in *.
  assert (b' = removal_score sc q' (Some c)) as Hb'.
  { destruct (float_prune_round_spec sc thr b q Hsome) as [[Hr _] | (c' & Hr & _)];
      rewrite Hr in Hround; [done|]. injection Hround as -> <-.
    unfold removal_score. by rewrite (Value.py_remove_filter _ _ _ Hrm). }
  pose proof (Value.py_remove_subseteq _ _ _ Hrm) as Hsub.
  destruct (Value.py_remove_NoDup _ _ _ Hrm Hnd) as [Hq' Hnin].
  split; [intros x Hx; apply Hsome; by apply Hsub|]. split; [done|].
  rewrite Hb'. unfold removal_score. by rewrite Value.filter_ne_not_elem.
Qed.

Lemma float_prune_reach_ok sc thr zs st :
  (∀ x, x ∈ zs → is_Some x) → NoDup zs →
  rtc (prune_next sc thr) (sc zs, zs) st →
  prune_state_ok sc st.
Proof.
  intros Hsome Hnd. revert st. apply rtc_ind_r; [|intros st st' _ Hstep IH].
  - done.
  - by eapply float_prune_next_ok.
Qed.

(** ** Pruning rounds against their description *)

(** A round as the specification describes it, from the portfolio at the
    start of the round alone: [removed] is an entry whose exclusion score is
    [<=] the score of the portfolio plus [thr] (the float sum), and [<=] the
    exclusion score of every such entry; or nothing, when no entry is within
    that threshold.  [<=] is the comparison of floats, which a NaN never
    satisfies. *)
Definition round_spec (sc : scorer) (thr : float) (portfolio : list pyconfig)
    (removed : pyconfig) : Prop :=
  let base_score := sc portfolio in
  let eligible x :=
    py_le (removal_score sc portfolio x) (py_add base_score thr) = true in
  match removed with
  | Some c =>
      Some c ∈ portfolio ∧ eligible (Some c)
      ∧ ∀ x, x ∈ portfolio → eligible x →
          py_le (removal_score sc portfolio (Some c)) (removal_score sc portfolio x)
          = true
  | None => ∀ x, x ∈ portfolio → ¬ eligible x
  end.

(** Every round of [prune_zeroshot_configs] on the portfolio [zs] is as
    [round_spec] says: the round elects the entry [round_spec] allows and
    the next portfolio is the current one without exactly that entry; when
    nothing is elected the call returns the current portfolio. *)
Definition prune_rounds_as_specified (self : ZeroshotConfigGenerator) (thr : float)
    (zs : list pyconfig) : Prop :=
  let sc := config_scorer self in
  ∀ b q, rtc (prune_next sc thr) (sc zs, zs) (b, q) →
    let removed := (prune_round sc thr b q).1 in
    round_spec sc thr q removed
    ∧ match removed with
      | Some c =>
          ∃ b', prune_next sc thr (b, q) (b', filter (λ x, x ≠ Some c) q)
      | None =>
          prune_loop sc thr b q = Some q
          ∧ prune_zeroshot_configs self zs thr = Some q
      end.

Lemma float_prune_zeroshot_configs_total self zeroshot_configs thr :
  is_Some (prune_zeroshot_configs self zeroshot_configs thr).
Proof.
  unfold prune_zeroshot_configs.
  destruct (float_prune_loop_spec (config_scorer self) thr
              (config_scorer self zeroshot_configs) zeroshot_configs)
    as (b' & r & _ & _ & ->). done.
Qed.

(** C2 (amended): for a portfolio of configurations (no [None] entry)
    without duplicate entries, every slack and every scorer, each round of
    [prune_zeroshot_configs] removes exactly the entry whose exclusion gives
    the least score among the entries [x] with
    [score(portfolio - {x}) <= base_score + slack], where [base_score] is
    the score of the portfolio at the start of the round, the sum is the
    float sum the code computes and [<=] compares floats (never true of a
    NaN); when no entry is within that threshold the round removes nothing
    and the call returns the portfolio of that round.  The call always
    returns. *)
Theorem prune_rounds_remove_minimum self thr (zs : list pyconfig) :
  (∀ x, x ∈ zs → is_Some x) → NoDup zs →
  prune_rounds_as_specified self thr zs
  ∧ is_Some (prune_zeroshot_configs self zs thr).
Proof.
  intros Hzs Hp. split; [|apply float_prune_zeroshot_configs_total].
  unfold prune_rounds_as_specified. set (sc := config_scorer self).
  intros b q Hrtc. simpl.
  destruct (float_prune_reach_ok _ _ _ _ Hzs Hp Hrtc) as (Hsome & Hq & Hb).
  simpl in *.
  destruct (float_prune_round_spec sc thr b q Hsome)
    as [[Hr Hall] | (c & Hr & Hc & Hthr & Hmin)]; rewrite Hr; simpl.
  - split.
    + intros x Hx Hel. specialize (Hall x Hx). rewrite <- Hb in Hel. congruence.
    + assert (prune_loop sc thr b q = Some q) as Hstop
        by (apply float_prune_loop_stop; by rewrite Hr).
      split; [done|]. unfold prune_zeroshot_configs.
      exact (eq_trans (float_prune_loop_rtc _ _ _ _ Hrtc) Hstop).
  - split.
    + split; [done|]. split; [by rewrite <- Hb|].
      intros x Hx Hel. apply Hmin; [done|]. by rewrite Hb.
    + exists (removal_score sc q (Some c)), c. simpl.
      split; [done|].
      destruct (Value.py_remove_is_Some _ _ Hc) as [q' Hrm]. rewrite Hrm. f_equal.
      destruct (Value.py_remove_NoDup _ _ _ Hrm Hq) as [_ Hnin].
      etrans; [symmetry; by apply Value.filter_ne_not_elem
              | by apply Value.py_remove_filter].
Qed.

(** X8: on a portfolio of configurations (no [None] entry) without duplicate
    entries, the result of [prune_zeroshot_configs] admits no further
    removal: for no entry of the result is the score without that entry
    [<=] the score of the result plus the threshold (the float sum). *)
Theorem prune_result_admits_no_removal self thr (zs r : list pyconfig) :
  (∀ x, x ∈ zs → is_Some x) → NoDup zs →
  prune_zeroshot_configs self zs thr = Some r →
  ∀ x, x ∈ r →
    py_le (removal_score (config_scorer self) r x)
          (py_add (config_scorer self r) thr) = false.
Proof.
  intros Hzs Hp Hres x Hx. unfold prune_zeroshot_configs in Hres.
  destruct (float_prune_loop_spec (config_scorer self) thr
              (config_scorer self zs) zs) as (b' & r' & Hrtc & Hstop & Hloop).
  rewrite Hloop in Hres. injection Hres as ->.
  destruct (float_prune_reach_ok _ _ _ _ Hzs Hp Hrtc) as (Hsome & _ & Hb).
  simpl in *. subst b'.
  destruct (float_prune_round_spec (config_scorer self) thr
              (config_scorer self r) r Hsome)
    as [[_ Hall] | (c & Hr & _)]; [by apply Hall|].
  by rewrite Hr in Hstop.
Qed.

(** X7: on a portfolio of configurations (no [None] entry) without duplicate
    entries and with [removal_threshold = 0] (the default), pruning never
    returns a portfolio that scores worse: the result is the input itself,
    or its score is [<=] the score of the input. *)
Theorem prune_default_never_worsens self (zs r : list pyconfig) :
  (∀ x, x ∈ zs → is_Some x) → NoDup zs →
  prune_zeroshot_configs self zs 0%float = Some r →
  r = zs ∨ py_le (config_scorer self r) (config_scorer self zs) = true.
Proof.
  intros Hzs Hp Hres. unfold prune_zeroshot_configs in Hres.
  destruct (float_prune_loop_spec (config_scorer self) 0%float
              (config_scorer self zs) zs) as (b' & r' & Hrtc & _ & Hloop).
  rewrite Hloop in Hres. injection Hres as ->.
  set (sc := config_scorer self) in *.
  assert (∀ st, rtc (prune_next sc 0%float) (sc zs, zs) st →
            prune_state_ok sc st ∧ (st.2 = zs ∨ py_le st.1 (sc zs) = true)) as Hinv.
  { apply rtc_ind_r; [|intros [b q] [b1 q1] _ Hstep [Hok IH]].
    - split; [done | by left].
    - split; [by eapply float_prune_next_ok|]. right. simpl in *.
      destruct Hok as (Hsome & _ & Hb). simpl in *.
      destruct Hstep as (c & Hround & _). simpl in *.
      destruct (float_prune_round_spec sc 0%float b q Hsome)
        as [[Hr _] | (c' & Hr & _ & Hthr & _)]; rewrite Hr in Hround; [done|].
      injection Hround as -> <-. rewrite py_le_add_zero in Hthr.
      destruct IH as [-> | IH]; [by rewrite <- Hb|].
      by eapply py_le_trans. }
  destruct (Hinv _ Hrtc) as [Hok Hle]. simpl in Hle.
  destruct Hle as [Hle | Hle]; [by left | right].
  destruct Hok as (_ & _ & Hb). simpl in Hb. by rewrite <- Hb.
Qed.

(** ** Examples *)

(** The first candidate scores NaN, the second 1. *)
Definition nan_first_scorer : scorer := λ l,
  if decide (Some "A"%string ∈ l) then nan else 1%float.

(** With a NaN score in first place [min] returns the NaN, so [_select_ray]
    returns the first candidate, while [_select_sequential], for which a NaN
    is never [<] the best score, returns the second. *)
Example scenario_nan_score :
  _select_ray ["A"; "B"]%string [] nan_first_scorer = Some (Some "A"%string, nan)
  ∧ _select_sequential ["A"; "B"]%string [] nan_first_scorer
    = (Some "B"%string, 1%float).
Proof. split; vm_compute; reflexivity. Qed.

(** Scores the portfolio [["A"]] at 0.1 and the empty one at
    0.30000000000000004, the float next above 0.3. *)
Definition rounded_scorer : scorer := λ l,
  if decide (l = []) then 0x1.3333333333334p-2%float else (1 / 10)%float.

Definition rounded_generator : ZeroshotConfigGenerator :=
  {| config_scorer := rounded_scorer; all_configs := ["A"%string];
     backend := "sequential" |}.

(** The threshold is the float sum: 0.1 + 0.2 is 0.30000000000000004 in
    binary64, so with slack 0.2 the entry ["A"], whose exclusion score is
    0.30000000000000004, is within the threshold and is removed. *)
Example scenario_rounded_threshold :
  py_add (1 / 10)%float (2 / 10)%float = 0x1.3333333333334p-2%float
  ∧ prune_zeroshot_configs rounded_generator [Some "A"%string] (2 / 10)%float
    = Some [].
Proof. split; vm_compute; reflexivity. Qed.

(** Scores any portfolio holding ["B"] at 1 and the others at 0. *)
Definition b_penalty_scorer : scorer := λ l,
  if decide (Some "B"%string ∈ l) then 1%float else 0%float.

Definition abc_generator : ZeroshotConfigGenerator :=
  {| config_scorer := b_penalty_scorer;
     all_configs := ["A"; "B"; "C"]%string;
     backend := "sequential" |}.

Definition abc_portfolio : list pyconfig := Some <$> ["A"; "B"; "C"]%string.

Lemma abc_portfolio_configs : ∀ x, x ∈ abc_portfolio → is_Some x.
Proof. intros x (c & -> & _)%list_elem_of_fmap. done. Qed.

Lemma abc_portfolio_NoDup : NoDup abc_portfolio.
Proof. apply (bool_decide_unpack _). vm_compute. exact I. Qed.

Lemma prune_rounds_remove_minimum_witness :
  (∀ x, x ∈ abc_portfolio → is_Some x)
  ∧ NoDup abc_portfolio
  ∧ prune_rounds_as_specified abc_generator (2 / 10)%float abc_portfolio
  ∧ is_Some (prune_zeroshot_configs abc_generator abc_portfolio (2 / 10)%float).
Proof.
  split; [exact abc_portfolio_configs|]. split; [exact abc_portfolio_NoDup|].
  exact (prune_rounds_remove_minimum abc_generator (2 / 10)%float abc_portfolio
           abc_portfolio_configs abc_portfolio_NoDup).
Defined.

Lemma prune_result_admits_no_removal_witness :
  ∃ r,
    prune_zeroshot_configs abc_generator abc_portfolio (2 / 10)%float = Some r
    ∧ ∀ x, x ∈ r →
        py_le (removal_score b_penalty_scorer r x)
              (py_add (b_penalty_scorer r) (2 / 10)%float) = false.
Proof.
  destruct (prune_zeroshot_configs abc_generator abc_portfolio (2 / 10)%float)
    as [r|] eqn:Hres; [|by vm_compute in Hres].
  exists r. split; [reflexivity|].
  exact (prune_result_admits_no_removal abc_generator (2 / 10)%float
           abc_portfolio r abc_portfolio_configs abc_portfolio_NoDup Hres).
Defined.

Lemma prune_default_never_worsens_witness :
  ∃ r,
    prune_zeroshot_configs abc_generator abc_portfolio 0%float = Some r
    ∧ (r = abc_portfolio
       ∨ py_le (b_penalty_scorer r) (b_penalty_scorer abc_portfolio) = true).
Proof.
  destruct (prune_zeroshot_configs abc_generator abc_portfolio 0%float)
    as [r|] eqn:Hres; [|by vm_compute in Hres].
  exists r. split; [reflexivity|].
  exact (prune_default_never_worsens abc_generator abc_portfolio r
           abc_portfolio_configs abc_portfolio_NoDup Hres).
Defined.

(** A scorer that tells [["A"; "A"; "B"]] from [["A"; "B"]]. *)
Definition aab_scorer : scorer := λ l,
  if decide (l = [Some "A"; Some "B"]%string) then 0%float
  else if decide (l = [Some "B"]%string) then 1%float
  else if decide (l = [Some "A"; Some "A"; Some "B"]%string) then 1%float
  else 5%float.

Definition aab_generator : ZeroshotConfigGenerator :=
  {| config_scorer := aab_scorer; all_configs := ["A"; "B"]%string;
     backend := "sequential" |}.

(** C2 as stated fails on [["A"; "A"; "B"]] with slack 0: the second round
    starts from [["A"; "B"]], whose score is 0, with [best_score = 1] left
    by the first round; it removes ["A"] (exclusion score 1), which is not
    within the slack of the score at the start of the round. *)
Lemma prune_round_base_score_stale :
  ¬ prune_rounds_as_specified aab_generator 0%float
      [Some "A"; Some "A"; Some "B"]%string.
Proof.
  intros Hclaim.
  destruct (Hclaim 1%float [Some "A"; Some "B"]%string) as [Hspec _].
  { eapply rtc_l; [|apply rtc_refl]. exists "A"%string.
    split; vm_compute; reflexivity. }
  assert ((prune_round aab_scorer 0%float 1%float [Some "A"; Some "B"]%string).1
          = Some "A"%string) as Hr by (vm_compute; reflexivity).
  simpl config_scorer in Hspec. rewrite Hr in Hspec.
  destruct Hspec as (_ & Hel & _). vm_compute in Hel. done.
Qed.

(** Scores [[None; "B"]] at 0, [["B"]] at 1 and [[None]] at 2. *)
Definition none_entry_scorer : scorer := λ l,
  if decide (l = [None; Some "B"%string]) then 0%float
  else if decide (l = [Some "B"%string]) then 1%float
  else 2%float.

Definition none_entry_generator : ZeroshotConfigGenerator :=
  {| config_scorer := none_entry_scorer; all_configs := ["B"%string];
     backend := "sequential" |}.

(** A [None] entry, which the sequential selector can append, breaks the
    description as well: on [[None; "B"]] with slack 1 the round takes the
    exclusion score 1 of the [None] entry as its new [best_score] without
    electing anything, and then elects ["B"], whose exclusion score 2 is
    not within the slack of the score 0 of the portfolio. *)
Example prune_none_entry_moves_threshold :
  prune_zeroshot_configs none_entry_generator [None; Some "B"%string] 1%float
  = Some [None]
  ∧ ¬ prune_rounds_as_specified none_entry_generator 1%float
        [None; Some "B"%string].
Proof.
  split; [vm_compute; reflexivity|].
  intros Hclaim.
  destruct (Hclaim 0%float [None; Some "B"%string]) as [Hspec _];
    [apply rtc_refl|].
  assert ((prune_round none_entry_scorer 1%float 0%float [None; Some "B"%string]).1
          = Some "B"%string) as Hr by (vm_compute; reflexivity).
  simpl config_scorer in Hspec. rewrite Hr in Hspec.
  destruct Hspec as (_ & Hel & _). vm_compute in Hel. done.
Qed.

End Binary64.

(** * The same code over a store of list objects

    Python lists are objects: the caller's prior portfolio, the pool held by
    the generator and the working portfolio are references, and [append] and
    [remove] update the object in place.  This module re-states the selector
    with references into a store, and logs every call of the scorer.  Lists
    built by a comprehension or by [+] are fresh and never shared; they are
    kept as values. *)
Module Heap.
Import Value.

Definition loc := positive.

Record world := World {
  heap : gmap loc (list pyconfig);
  (** arguments of the [config_scorer.score] calls made so far, oldest first *)
  scored : list (list pyconfig);
}.

(** Computations: read and update the world; [None] is a raised exception. *)
Definition M (A : Type) : Type := world → option (A * world).

#[export] Instance M_ret : MRet M := λ A a w, Some (a, w).
#[export] Instance M_bind : MBind M := λ A B f m w,
  match m w with
  | Some (a, w') => f a w'
  | None => None
  end.

Definition raise {A} : M A := λ _, None.

(** A new list object. *)
Definition alloc (l : list pyconfig) : M loc := λ w,
  let r := fresh (dom (heap w)) in
  Some (r, World (<[r := l]> (heap w)) (scored w)).

(** The current contents of a list object. *)
Definition deref (r : loc) : M (list pyconfig) := λ w,
  match heap w !! r with
  | Some l => Some (l, w)
  | None => None
  end.

Definition assign (r : loc) (l : list pyconfig) : M unit := λ w,
  Some (tt, World (<[r := l]> (heap w)) (scored w)).

(** Reading a list object at type [List[str]]. *)
Definition deref_strs (r : loc) : M (list config) :=
  l ← deref r;
  match mapM id l with
  | Some cs => mret cs
  | None => raise
  end.

(** [copy.deepcopy(l)] *)
Definition deepcopy (r : loc) : M loc := l ← deref r; alloc l.

(** [l.append(x)] *)
Definition list_append (r : loc) (x : pyconfig) : M unit :=
  l ← deref r; assign r (l ++ [x]).

(** [l.remove(x)] *)
Definition list_remove (r : loc) (x : pyconfig) : M unit :=
  l ← deref r;
  match py_remove x l with
  | Some l' => assign r l'
  | None => raise
  end.

(** [config_scorer.score(l)] on a list value. *)
Definition score (sc : scorer) (l : list pyconfig) : M Q := λ w,
  Some (sc l, World (heap w) (scored w ++ [l])).

(** A [for] loop threading its state. *)
Fixpoint foldM {A B} (f : B → A → M B) (l : list A) (b : B) : M B :=
  match l with
  | [] => mret b
  | a :: l' => b' ← f b a; foldM f l' b'
  end.

Definition sequential_step (sc : scorer) (prior_configs : loc)
    (st : pyconfig * Q) (config : config) : M (pyconfig * Q) :=
  let '(best_next_config, best_score) := st in
  prior ← deref prior_configs;
  let config_selected := prior ++ [Some config] in
  config_score ← score sc config_selected;
  if py_lt config_score best_score
  then mret (Some config, config_score)
  else mret (best_next_config, best_score).

Definition _select_sequential (configs : list config) (prior_configs : loc)
    (sc : scorer) : M (pyconfig * Q) :=
  foldM (sequential_step sc prior_configs) configs (None, sentinel).

Definition score_config_ray (sc : scorer) (existing_configs : loc)
    (new_config : config) : M Q :=
  existing ← deref existing_configs;
  let configs := existing ++ [Some new_config] in
  score sc configs.

(** The tasks are logged in submission order. *)
Definition _select_ray (configs : list config) (prior_configs : loc)
    (sc : scorer) : M (pyconfig * Q) :=
  result ← foldM (λ results c,
                    r ← score_config_ray sc prior_configs c;
                    mret (results ++ [r])) configs [];
  match py_min result with
  | None => raise
  | Some m =>
    match py_index result m with
    | None => raise
    | Some result_idx_min =>
      match configs !! result_idx_min, result !! result_idx_min with
      | Some best_next_config, Some best_score =>
          mret (Some best_next_config, best_score)
      | _, _ => raise
      end
    end
  end.

Record ZeroshotConfigGenerator := {
  config_scorer : scorer;
  all_configs : loc;
  backend : string;
}.

Definition selector (self : ZeroshotConfigGenerator) (configs : list config)
    (prior_configs : loc) (sc : scorer) : M (pyconfig * Q) :=
  if String.eqb (backend self) "ray"
  then _select_ray configs prior_configs sc
  else _select_sequential configs prior_configs sc.

(** One trip through the [while] loop of [select_zeroshot_configs]; the
    result tells whether the loop goes on. *)
Definition forward_iteration (self : ZeroshotConfigGenerator) (num_zeroshot : Z)
    (zeroshot_configs : loc) : M bool :=
  zs ← deref zeroshot_configs;
  if bool_decide (Z.of_nat (length zs) < num_zeroshot)%Z then
    pool ← deref_strs (all_configs self);
    let valid_configs := filter (λ c, Some c ∉ zs) pool in
    match valid_configs with
    | [] => mret false
    | _ =>
      '(best_next_config, best_score) ←
        selector self valid_configs zeroshot_configs (config_scorer self);
      list_append zeroshot_configs best_next_config;;
      mret true
    end
  else mret false.

(** *** The selectors only read the store *)

(** The scorer calls one selector run makes, in order. *)
Definition selector_calls (prior : list pyconfig) (configs : list config)
    : list (list pyconfig) :=
  map (λ c, prior ++ [Some c]) configs.

Lemma deref_run r l w : heap w !! r = Some l → deref r w = Some (l, w).
Proof. intros H. unfold deref. by rewrite H. Qed.

Lemma sequential_fold_run sc r prior configs st w :
  heap w !! r = Some prior →
  foldM (sequential_step sc r) configs st w
  = Some (fold_left (Value.sequential_step sc prior) configs st,
          World (heap w) (scored w ++ selector_calls prior configs)).
Proof.
  intros Hr. revert st w Hr.
  induction configs as [|c configs IH]; intros [best bs] w Hr; simpl.
  - unfold mret, M_ret, selector_calls. simpl. rewrite app_nil_r. by destruct w.
  - unfold mbind at 1, M_bind at 1. unfold sequential_step at 1.
    unfold mbind at 1, M_bind at 1. rewrite (deref_run _ _ _ Hr).
    unfold mbind at 1, M_bind at 1. unfold score at 1.
    destruct (py_lt _ _); unfold mret, M_ret; rewrite IH by done; simpl;
      by rewrite <- app_assoc.
Qed.

Lemma select_sequential_run configs r sc prior w :
  heap w !! r = Some prior →
  _select_sequential configs r sc w
  = Some (Value._select_sequential configs prior sc,
          World (heap w) (scored w ++ selector_calls prior configs)).
Proof. apply sequential_fold_run. Qed.

Lemma ray_fold_run sc r prior configs acc w :
  heap w !! r = Some prior →
  foldM (λ results c, r ← score_config_ray sc r c; mret (results ++ [r])) configs acc w
  = Some (acc ++ map (Value.score_config_ray sc prior) configs,
          World (heap w) (scored w ++ selector_calls prior configs)).
Proof.
  intros Hr. revert acc w Hr.
  induction configs as [|c configs IH]; intros acc w Hr; simpl.
  - unfold mret, M_ret, selector_calls. simpl. rewrite !app_nil_r. by destruct w.
  - unfold mbind at 1, M_bind at 1. unfold mbind at 1, M_bind at 1.
    unfold score_config_ray at 1. unfold mbind at 1, M_bind at 1.
    rewrite (deref_run _ _ _ Hr). unfold score at 1, mret at 1, M_ret at 1.
    rewrite IH by done. simpl. by rewrite <- !app_assoc.
Qed.

Lemma select_ray_run configs r sc prior w :
  heap w !! r = Some prior →
  _select_ray configs r sc w
  = res ← Value._select_ray configs prior sc;
    Some (res, World (heap w) (scored w ++ selector_calls prior configs)).
Proof.
  intros Hr. unfold _select_ray, Value._select_ray.
  unfold mbind at 1, M_bind at 1. rewrite (ray_fold_run _ _ _ _ _ _ Hr). simpl.
  destruct (py_min _) as [m|]; [|done]. simpl.
  destruct (py_index _ m) as [i|]; [|done]. simpl.
  destruct (configs !! i) as [c|]; [|done]. simpl.
  destruct (_ !! i) as [s|]; done.
Qed.

Lemma selector_run self self' configs r prior w :
  backend self = Value.backend self' →
  heap w !! r = Some prior →
  selector self configs r (config_scorer self) w
  = res ← Value.selector self' configs prior (config_scorer self);
    Some (res, World (heap w) (scored w ++ selector_calls prior configs)).
Proof.
  intros Hb Hr. unfold selector, Value.selector. rewrite Hb.
  destruct (String.eqb _ _).
  - by apply select_ray_run.
  - by rewrite (select_sequential_run _ _ _ _ _ Hr).
Qed.

(** *** The forward loop *)

(** The generator with its pool read off the store. *)
Definition to_value (self : ZeroshotConfigGenerator) (pool : list config)
    : Value.ZeroshotConfigGenerator :=
  {| Value.config_scorer := config_scorer self;
     Value.all_configs := pool;
     Value.backend := backend self |}.

Lemma bind_run {A B} (m : M A) (f : A → M B) w :
  (m ≫= f) w = match m w with Some (a, w') => f a w' | None => None end.
Proof. done. Qed.

Lemma deref_strs_run r contents pool w :
  heap w !! r = Some contents → mapM id contents = Some pool →
  deref_strs r w = Some (pool, w).
Proof.
  intros Hr Hm. unfold deref_strs. rewrite bind_run, (deref_run _ _ _ Hr).
  by rewrite Hm.
Qed.

Lemma deref_inv r l w w' : deref r w = Some (l, w') → heap w !! r = Some l ∧ w' = w.
Proof. unfold deref. destruct (heap w !! r); intros [=]; by subst. Qed.

Lemma deref_strs_inv r pool w w' :
  deref_strs r w = Some (pool, w') →
  ∃ contents, heap w !! r = Some contents ∧ mapM id contents = Some pool ∧ w' = w.
Proof.
  unfold deref_strs. rewrite bind_run.
  destruct (deref r w) as [[l w1]|] eqn:Hd; [|done].
  apply deref_inv in Hd as [Hl ->].
  destruct (mapM id l) as [cs|] eqn:Hm; [|done]. intros [= <- <-]. by exists l.
Qed.

Lemma list_append_run r l x w :
  heap w !! r = Some l →
  list_append r x w = Some (tt, World (<[r := l ++ [x]]> (heap w)) (scored w)).
Proof. intros Hr. unfold list_append. by rewrite bind_run, (deref_run _ _ _ Hr). Qed.

Lemma forward_iteration_run self num_zeroshot zc zs contents pool w :
  heap w !! zc = Some zs →
  heap w !! all_configs self = Some contents → mapM id contents = Some pool →
  forward_iteration self num_zeroshot zc w
  = if bool_decide (Z.of_nat (length zs) < num_zeroshot)%Z then
      match valid_configs_of (to_value self pool) zs with
      | [] => Some (false, w)
      | valid_configs =>
          match Value.selector (to_value self pool) valid_configs zs (config_scorer self) with
          | Some (best_next_config, _) =>
              Some (true, World (<[zc := zs ++ [best_next_config]]> (heap w))
                                (scored w ++ selector_calls zs valid_configs))
          | None => None
          end
      end
    else Some (false, w).
Proof.
  intros Hzc Hpool Hm. unfold forward_iteration.
  rewrite bind_run, (deref_run _ _ _ Hzc).
  case_bool_decide; [|done].
  rewrite bind_run, (deref_strs_run _ _ _ _ Hpool Hm).
  unfold valid_configs_of. simpl.
  destruct (filter _ pool) as [|c cs] eqn:Hv; [done|].
  rewrite bind_run, (selector_run self (to_value self pool) _ _ zs) by done.
  destruct (Value.selector _ _ _ _) as [[best s]|]; [|done]. simpl.
  rewrite bind_run, (list_append_run _ zs) by done. done.
Qed.

Lemma forward_iteration_inv self num_zeroshot zc w b w' :
  forward_iteration self num_zeroshot zc w = Some (b, w') →
  ∃ zs, heap w !! zc = Some zs
    ∧ if b then
        (Z.of_nat (length zs) < num_zeroshot)%Z
        ∧ ∃ best calls, calls ≠ []
            ∧ w' = World (<[zc := zs ++ [best]]> (heap w)) (scored w ++ calls)
      else w' = w.
Proof.
  intros Hit.
  destruct (heap w !! zc) as [zs|] eqn:Hzc.
  2:{ unfold forward_iteration in Hit. rewrite bind_run in Hit.
      unfold deref in Hit. by rewrite Hzc in Hit. }
  exists zs. split; [done|].
  destruct (decide (Z.of_nat (length zs) < num_zeroshot)%Z) as [Hlt | Hge].
  2:{ unfold forward_iteration in Hit. rewrite bind_run, (deref_run _ _ _ Hzc) in Hit.
      rewrite bool_decide_eq_false_2 in Hit by done. by injection Hit as <- <-. }
  destruct (deref_strs (all_configs self) w) as [[pool w1]|] eqn:Hd.
  2:{ unfold forward_iteration in Hit. rewrite bind_run, (deref_run _ _ _ Hzc) in Hit.
      rewrite bool_decide_eq_true_2 in Hit by done. by rewrite bind_run, Hd in Hit. }
  apply deref_strs_inv in Hd as (contents & Hpool & Hm & ->).
  rewrite (forward_iteration_run _ _ _ _ _ _ _ Hzc Hpool Hm) in Hit.
  rewrite bool_decide_eq_true_2 in Hit by done.
  destruct (valid_configs_of _ _) as [|c cs]; [by injection Hit as <- <-|].
  cbv zeta in Hit.
  destruct (Value.selector _ _ _ _) as [[best s]|]; [|done].
  injection Hit as <- <-. split; [done|]. by exists best, (selector_calls zs (c :: cs)).
Qed.

(** What is left to select when the working portfolio is [zc]. *)
Definition forward_measure (num_zeroshot : Z) (zc : loc) (w : world) : nat :=
  Z.to_nat (num_zeroshot - Z.of_nat (length (default [] (heap w !! zc)))).

Lemma forward_iteration_decreases self num_zeroshot zc w w' :
  forward_iteration self num_zeroshot zc w = Some (true, w') →
  (forward_measure num_zeroshot zc w' < forward_measure num_zeroshot zc w)%nat.
Proof.
  intros (zs & Hzc & Hlt & best & calls & _ & ->)%forward_iteration_inv.
  unfold forward_measure. simpl. rewrite Hzc, lookup_insert_eq. simpl.
  rewrite length_app. simpl. lia.
Qed.

(** The [while] loop: iterate until the body says stop. *)
Equations? forward_selection (self : ZeroshotConfigGenerator) (num_zeroshot : Z)
    (zeroshot_configs : loc) (w : world) : option (unit * world)
    by wf (forward_measure num_zeroshot zeroshot_configs w) lt :=
  forward_selection self num_zeroshot zeroshot_configs w
    with inspect (forward_iteration self num_zeroshot zeroshot_configs w) := {
    | exist _ None _ => None
    | exist _ (Some (false, w')) _ => Some (tt, w')
    | exist _ (Some (true, w')) Hit =>
        forward_selection self num_zeroshot zeroshot_configs w' }.
Proof. by eapply forward_iteration_decreases. Qed.

Lemma store_forward_selection_step_eq self num_zeroshot zc w :
  forward_selection self num_zeroshot zc w
  = match forward_iteration self num_zeroshot zc w with
    | None => None
    | Some (false, w') => Some (tt, w')
    | Some (true, w') => forward_selection self num_zeroshot zc w'
    end.
Proof.
  funelim (forward_selection self num_zeroshot zc w).
  - by rewrite Hit.
  - by rewrite e.
  - by rewrite e.
Qed.

(** *** Backward pruning *)

Definition prune_step (sc : scorer) (removal_threshold : Q) (zeroshot_configs : loc)
    (st : pyconfig * Q) (config : pyconfig) : M (pyconfig * Q) :=
  let '(best_remove_config, best_score) := st in
  zs ← deref zeroshot_configs;
  let config_selected := filter (λ c, c ≠ config) zs in
  config_score ← score sc config_selected;
  match best_remove_config with
  | None =>
      if py_le config_score (best_score + removal_threshold)
      then mret (config, config_score) else mret (best_remove_config, best_score)
  | Some _ =>
      if py_le config_score best_score
      then mret (config, config_score) else mret (best_remove_config, best_score)
  end.

(** One trip through [while not finished_removal]: the new [best_score]
    when an entry was removed, [None] when [finished_removal] was set. *)
Definition prune_pass (self : ZeroshotConfigGenerator) (removal_threshold : Q)
    (zeroshot_configs : loc) (best_score : Q) : M (option Q) :=
  zs ← deref zeroshot_configs;
  '(best_remove_config, best_score) ←
    foldM (prune_step (config_scorer self) removal_threshold zeroshot_configs)
      zs (None, best_score);
  match best_remove_config with
  | Some c => list_remove zeroshot_configs (Some c);; mret (Some best_score)
  | None => mret None
  end.

(** The scorer calls of one pruning round, in order. *)
Definition prune_calls (zs : list pyconfig) : list (list pyconfig) :=
  map (λ x, filter (λ c, c ≠ x) zs) zs.

Lemma prune_fold_run sc thr zc zs l st w :
  heap w !! zc = Some zs →
  foldM (prune_step sc thr zc) l st w
  = Some (fold_left (Value.prune_step sc thr zs) l st,
          World (heap w) (scored w ++ map (λ x, filter (λ c, c ≠ x) zs) l)).
Proof.
  intros Hzc. revert st w Hzc.
  induction l as [|x l IH]; intros [brc bs] w Hzc; simpl.
  - unfold mret, M_ret. rewrite app_nil_r. by destruct w.
  - rewrite bind_run. unfold prune_step at 1.
    rewrite bind_run, (deref_run _ _ _ Hzc), bind_run. unfold score at 1.
    destruct brc; destruct (py_le _ _); unfold mret, M_ret;
      rewrite IH by done; simpl; by rewrite <- app_assoc.
Qed.

Lemma prune_pass_run self thr zc zs b w :
  heap w !! zc = Some zs →
  prune_pass self thr zc b w
  = match Value.prune_round (config_scorer self) thr b zs with
    | (None, _) => Some (None, World (heap w) (scored w ++ prune_calls zs))
    | (Some c, b') =>
        zs' ← py_remove (Some c) zs;
        Some (Some b', World (<[zc := zs']> (heap w)) (scored w ++ prune_calls zs))
    end.
Proof.
  intros Hzc. unfold prune_pass, Value.prune_round.
  rewrite bind_run, (deref_run _ _ _ Hzc), bind_run.
  rewrite (prune_fold_run _ _ _ _ _ _ _ Hzc).
  destruct (fold_left _ _ _) as [[c|] b']; [|done].
  rewrite bind_run. unfold list_remove. rewrite bind_run. unfold deref. simpl.
  rewrite Hzc. by destruct (py_remove _ _).
Qed.

Lemma prune_pass_inv self thr zc b w b' w' :
  prune_pass self thr zc b w = Some (Some b', w') →
  ∃ zs zs' calls, heap w !! zc = Some zs ∧ length zs = S (length zs')
    ∧ w' = World (<[zc := zs']> (heap w)) (scored w ++ calls).
Proof.
  intros Hp. destruct (heap w !! zc) as [zs|] eqn:Hzc.
  2:{ unfold prune_pass in Hp. rewrite bind_run in Hp. unfold deref in Hp.
      by rewrite Hzc in Hp. }
  rewrite (prune_pass_run _ _ _ _ _ _ Hzc) in Hp.
  destruct (Value.prune_round _ _ _ _) as [[c|] b'']; [|done].
  destruct (py_remove _ _) as [zs'|] eqn:Hrm; [|done]. injection Hp as <- <-.
  exists zs, zs', (prune_calls zs). split; [done|]. split; [|done].
  by eapply py_remove_length.
Qed.

Equations? prune_loop (self : ZeroshotConfigGenerator) (removal_threshold : Q)
    (zeroshot_configs : loc) (best_score : Q) (w : world) : option (unit * world)
    by wf (length (default [] (heap w !! zeroshot_configs))) lt :=
  prune_loop self removal_threshold zeroshot_configs best_score w
    with inspect (prune_pass self removal_threshold zeroshot_configs best_score w) := {
    | exist _ None _ => None
    | exist _ (Some (None, w')) _ => Some (tt, w')
    | exist _ (Some (Some best_score', w')) Hpass =>
        prune_loop self removal_threshold zeroshot_configs best_score' w' }.
Proof.
  apply prune_pass_inv in Hpass as (zs & zs' & calls & Hzc & Hlen & ->).
  simpl. rewrite Hzc, lookup_insert_eq. simpl. lia.
Qed.

Lemma store_prune_loop_step_eq self thr zc b w :
  prune_loop self thr zc b w
  = match prune_pass self thr zc b w with
    | None => None
    | Some (None, w') => Some (tt, w')
    | Some (Some b', w') => prune_loop self thr zc b' w'
    end.
Proof.
  funelim (prune_loop self thr zc b w).
  - by rewrite Hpass.
  - by rewrite e.
  - by rewrite e.
Qed.

Definition prune_zeroshot_configs (self : ZeroshotConfigGenerator)
    (zeroshot_configs : loc) (removal_threshold : Q) : M loc :=
  zeroshot_configs ← deepcopy zeroshot_configs;
  zs ← deref zeroshot_configs;
  best_score ← score (config_scorer self) zs;
  prune_loop self removal_threshold zeroshot_configs best_score;;
  mret zeroshot_configs.

Definition select_zeroshot_configs (self : ZeroshotConfigGenerator)
    (num_zeroshot : Z) (zeroshot_configs : option loc)
    (removal_stage : bool) (removal_threshold : Q) : M loc :=
  zeroshot_configs ←
    match zeroshot_configs with
    | None => alloc []
    | Some r => deepcopy r
    end;
  forward_selection self num_zeroshot zeroshot_configs;;
  if removal_stage
  then prune_zeroshot_configs self zeroshot_configs removal_threshold
  else mret zeroshot_configs.

(** *** The store-level code computes the value-level result *)

Lemma mapM_id_Some (l : list config) : mapM id (Some <$> l) = Some l.
Proof. induction l as [|c l IH]; [done|]. simpl. change (list_fmap config (option config) Some l) with (Some <$> l). by rewrite IH. Qed.

Lemma world_insert_id w zc zs :
  heap w !! zc = Some zs → World (<[zc := zs]> (heap w)) (scored w ++ []) = w.
Proof. intros H. rewrite insert_id, app_nil_r by done. by destruct w. Qed.

Lemma forward_selection_refines self num_zeroshot zc pool :
  zc ≠ all_configs self →
  ∀ zs w,
    heap w !! zc = Some zs →
    heap w !! all_configs self = Some (Some <$> pool) →
    ∃ zs' calls,
      Value.forward_selection (to_value self pool) num_zeroshot zs = Some zs'
      ∧ forward_selection self num_zeroshot zc w
        = Some (tt, World (<[zc := zs']> (heap w)) (scored w ++ calls)).
Proof.
  intros Hne zs.
  remember (Z.to_nat (num_zeroshot - Z.of_nat (length zs))) as n eqn:Hn.
  revert zs Hn. induction n as [n IH] using lt_wf_ind. intros zs Hn w Hzc Hpool.
  rewrite Value.forward_selection_step_eq, store_forward_selection_step_eq.
  rewrite (forward_iteration_run _ _ _ _ _ _ _ Hzc Hpool (mapM_id_Some pool)).
  case_bool_decide as Hlt.
  2:{ exists zs, []. by rewrite world_insert_id. }
  destruct (valid_configs_of _ _) as [|c cs] eqn:Hv.
  { exists zs, []. by rewrite world_insert_id. }
  destruct (Value.selector_nonempty (to_value self pool) (c :: cs) zs (config_scorer self))
    as [[best s] Hsel]; [done|].
  simpl in Hsel |- *. rewrite Hsel.
  destruct (IH (Z.to_nat (num_zeroshot - Z.of_nat (length (zs ++ [best])))))
    with (zs := zs ++ [best])
         (w := World (<[zc := zs ++ [best]]> (heap w))
                     (scored w ++ selector_calls zs (c :: cs)))
    as (zs' & calls & HA & HB); [| reflexivity | | | ].
  - subst n. rewrite length_app. simpl. lia.
  - simpl. apply lookup_insert_eq.
  - simpl. by rewrite lookup_insert_ne.
  - exists zs', (selector_calls zs (c :: cs) ++ calls). split; [done|].
    etrans; [exact HB|]. simpl. by rewrite insert_insert_eq, <- app_assoc.
Qed.

Lemma prune_loop_refines self thr zc :
  ∀ zs b w,
    heap w !! zc = Some zs →
    ∃ zs' calls,
      Value.prune_loop (config_scorer self) thr b zs = Some zs'
      ∧ prune_loop self thr zc b w
        = Some (tt, World (<[zc := zs']> (heap w)) (scored w ++ calls)).
Proof.
  intros zs. remember (length zs) as n eqn:Hn.
  revert zs Hn. induction n as [n IH] using lt_wf_ind. intros zs Hn b w Hzc.
  rewrite Value.prune_loop_step_eq, store_prune_loop_step_eq.
  rewrite (prune_pass_run _ _ _ _ _ _ Hzc).
  destruct (Value.prune_round _ _ _ _) as [[c|] b'] eqn:Hr.
  2:{ exists zs, (prune_calls zs). split; [done|]. by rewrite insert_id. }
  assert (Some c ∈ zs) as Hin by (eapply Value.prune_round_elem; by rewrite Hr).
  apply py_remove_is_Some in Hin as [zs' Hrm]. rewrite Hrm. simpl.
  destruct (IH (length zs')) with (zs := zs') (b := b')
      (w := World (<[zc := zs']> (heap w)) (scored w ++ prune_calls zs))
    as (zs'' & calls & HA & HB); [| reflexivity | | ].
  - apply py_remove_length in Hrm. lia.
  - simpl. apply lookup_insert_eq.
  - exists zs'', (prune_calls zs ++ calls). split; [exact HA|].
    etrans; [exact HB|]. simpl. by rewrite insert_insert_eq, <- app_assoc.
Qed.

Lemma alloc_fresh l w :
  ∃ r, alloc l w = Some (r, World (<[r := l]> (heap w)) (scored w))
     ∧ heap w !! r = None.
Proof.
  exists (fresh (dom (heap w))). split; [done|].
  apply not_elem_of_dom, is_fresh.
Qed.

Lemma deepcopy_fresh r0 l w :
  heap w !! r0 = Some l →
  ∃ r, deepcopy r0 w = Some (r, World (<[r := l]> (heap w)) (scored w))
     ∧ heap w !! r = None.
Proof.
  intros H. unfold deepcopy. rewrite bind_run, (deref_run _ _ _ H). apply alloc_fresh.
Qed.

(** [prune_zeroshot_configs] returns a new list object holding the
    value-level result and touches nothing else in the store. *)
Lemma prune_zeroshot_configs_refines self pool zr zs thr w :
  heap w !! zr = Some zs →
  ∃ r res calls,
    Value.prune_zeroshot_configs (to_value self pool) zs thr = Some res
    ∧ prune_zeroshot_configs self zr thr w
      = Some (r, World (<[r := res]> (heap w)) (scored w ++ calls))
    ∧ heap w !! r = None.
Proof.
  intros Hzr. destruct (deepcopy_fresh _ _ _ Hzr) as (r & Hcopy & Hfresh).
  unfold prune_zeroshot_configs, Value.prune_zeroshot_configs.
  rewrite bind_run, Hcopy, bind_run. unfold deref at 1. simpl.
  rewrite lookup_insert_eq, bind_run. unfold score at 1. simpl.
  destruct (prune_loop_refines self thr r zs (config_scorer self zs)
              (World (<[r := zs]> (heap w)) (scored w ++ [zs])))
    as (res & calls & HA & HB); [apply lookup_insert_eq|].
  exists r, res, ([zs] ++ calls). split; [exact HA|]. split; [|done].
  rewrite bind_run, HB. simpl. by rewrite insert_insert_eq, <- app_assoc.
Qed.

(** How the caller passes the optional prior portfolio: a reference to a
    list of configurations, or nothing. *)
Definition prior_at (w : world) (zeroshot_configs : option loc)
    (prior : option (list config)) : Prop :=
  option_Forall2 (λ r p, heap w !! r = Some (Some <$> p)) zeroshot_configs prior.

Lemma select_zeroshot_configs_refines self pool num_zeroshot zeroshot_configs prior
    removal_stage thr w :
  heap w !! all_configs self = Some (Some <$> pool) →
  prior_at w zeroshot_configs prior →
  ∃ r res w',
    Value.select_zeroshot_configs (to_value self pool) num_zeroshot prior
      removal_stage thr = Some res
    ∧ select_zeroshot_configs self num_zeroshot zeroshot_configs removal_stage thr w
      = Some (r, w')
    ∧ heap w' !! r = Some res
    ∧ heap w ⊆ heap w'
    ∧ heap w !! r = None.
Proof.
  intros Hpool Hprior.
  unfold select_zeroshot_configs, Value.select_zeroshot_configs.
  set (zs0 := match prior with None => [] | Some l => Some <$> l end).
  assert (∃ zc, match zeroshot_configs with
                | None => alloc []
                | Some r => deepcopy r
                end w = Some (zc, World (<[zc := zs0]> (heap w)) (scored w))
                ∧ heap w !! zc = None) as (zc & Hcopy & Hfresh).
  { destruct Hprior as [r p Hr|]; [by apply deepcopy_fresh | apply alloc_fresh]. }
  rewrite bind_run, Hcopy, bind_run.
  assert (zc ≠ all_configs self) as Hne by (intros ->; congruence).
  destruct (forward_selection_refines self num_zeroshot zc pool Hne zs0
              (World (<[zc := zs0]> (heap w)) (scored w)))
    as (zs1 & calls & HA & HB);
    [apply lookup_insert_eq | by simpl; rewrite lookup_insert_ne |].
  rewrite HA, HB. simpl. rewrite insert_insert_eq.
  destruct removal_stage.
  - destruct (prune_zeroshot_configs_refines self pool zc zs1 thr
                (World (<[zc := zs1]> (heap w)) (scored w ++ calls)))
      as (r & res & calls' & HP & HQ & Hr); [apply lookup_insert_eq|].
    simpl in Hr. apply lookup_insert_None in Hr as [Hr Hrzc].
    exists r, res. eexists. split; [exact HP|]. split; [exact HQ|]. simpl.
    split; [apply lookup_insert_eq|]. split; [|done].
    etrans; [|apply insert_subseteq; by rewrite lookup_insert_ne].
    by apply insert_subseteq.
  - exists zc, zs1. eexists. split; [done|]. split; [done|]. simpl.
    split; [apply lookup_insert_eq|]. split; [|done]. by apply insert_subseteq.
Qed.

(** *** The claims about effects *)

(** C10: neither [select_zeroshot_configs] nor [prune_zeroshot_configs]
    changes a list of its caller.  Started in any store where the pool of
    the generator and the list passed as prior portfolio (or as portfolio to
    prune) exist, each call returns a list object that did not exist before
    (the work is done on a copy), and every list object of the store before
    the call, hence the prior portfolio, the portfolio to prune and the
    pool, has the same contents after it. *)
Theorem caller_lists_unchanged (self : ZeroshotConfigGenerator)
    (pool : list config) (w : world) :
  heap w !! all_configs self = Some (Some <$> pool) →
  (∀ num_zeroshot zeroshot_configs prior removal_stage thr,
      prior_at w zeroshot_configs prior →
      ∃ r w',
        select_zeroshot_configs self num_zeroshot zeroshot_configs
          removal_stage thr w = Some (r, w')
        ∧ heap w !! r = None
        ∧ ∀ l, is_Some (heap w !! l) → heap w' !! l = heap w !! l)
  ∧ (∀ zeroshot_configs zs thr,
      heap w !! zeroshot_configs = Some zs →
      ∃ r w',
        prune_zeroshot_configs self zeroshot_configs thr w = Some (r, w')
        ∧ heap w !! r = None
        ∧ ∀ l, is_Some (heap w !! l) → heap w' !! l = heap w !! l).
Proof.
  intros Hpool. split.
  - intros num_zeroshot zeroshot_configs prior removal_stage thr Hprior.
    destruct (select_zeroshot_configs_refines self pool num_zeroshot
                zeroshot_configs prior removal_stage thr w Hpool Hprior)
      as (r & res & w' & _ & Hrun & _ & Hsub & Hfresh).
    exists r, w'. split; [done|]. split; [done|]. intros l [x Hl].
    rewrite Hl. by eapply lookup_weaken.
  - intros zeroshot_configs zs thr Hzs.
    destruct (prune_zeroshot_configs_refines self pool zeroshot_configs zs thr w Hzs)
      as (r & res & calls & _ & Hrun & Hfresh).
    eexists r, _. split; [exact Hrun|]. split; [done|]. intros l [x Hl]. simpl.
    rewrite lookup_insert_ne; [done|]. intros ->. congruence.
Qed.

(** A store holding the pool [["A"; "B"]] at 1 and the prior portfolio
    [["B"]] at 2. *)
Definition sample_world : world :=
  World {[ 1%positive := [Some "A"; Some "B"]%string;
           2%positive := [Some "B"%string] ]} [].

Definition sample_generator : ZeroshotConfigGenerator :=
  {| config_scorer := Value.b_penalty_scorer; all_configs := 1%positive;
     backend := "sequential" |}.

Lemma caller_lists_unchanged_witness :
  heap sample_world !! all_configs sample_generator
  = Some (Some <$> ["A"; "B"]%string)
  ∧ ∃ r w',
      prune_zeroshot_configs sample_generator 2%positive 0 sample_world
      = Some (r, w')
      ∧ heap sample_world !! r = None
      ∧ ∀ l, is_Some (heap sample_world !! l) →
             heap w' !! l = heap sample_world !! l.
Proof.
  assert (heap sample_world !! all_configs sample_generator
          = Some (Some <$> ["A"; "B"]%string)) as Hpool by reflexivity.
  split; [exact Hpool|].
  exact (proj2 (caller_lists_unchanged sample_generator _ sample_world Hpool)
           2%positive [Some "B"%string] 0 eq_refl).
Defined.

(** C6 (amended): when the candidate pool is empty or the target is [<= 0],
    the forward loop ends at once, leaving the store and the log of scorer
    calls as they were (no candidate is scored, nothing is appended), and
    [select_zeroshot_configs] returns the prior portfolio, pruned when the
    removal stage is on; that is the empty portfolio when the prior
    portfolio is absent or empty.  This holds for every scorer. *)
Theorem forward_phase_idle (self : ZeroshotConfigGenerator) (pool : list config)
    (num_zeroshot : Z) :
  pool = [] ∨ (num_zeroshot ≤ 0)%Z →
  (∀ w zeroshot_configs zs,
      heap w !! zeroshot_configs = Some zs →
      heap w !! all_configs self = Some (Some <$> pool) →
      forward_selection self num_zeroshot zeroshot_configs w = Some (tt, w))
  ∧ (∀ prior removal_stage thr,
      Value.select_zeroshot_configs (to_value self pool) num_zeroshot prior
        removal_stage thr
      = let zs := match prior with None => [] | Some l => Some <$> l end in
        if removal_stage
        then Value.prune_zeroshot_configs (to_value self pool) zs thr
        else Some zs)
  ∧ (∀ prior removal_stage thr,
      prior = None ∨ prior = Some [] →
      Value.select_zeroshot_configs (to_value self pool) num_zeroshot prior
        removal_stage thr = Some []).
Proof.
  intros Hcase.
  assert (∀ zs, Value.forward_selection (to_value self pool) num_zeroshot zs = Some zs)
    as Hidle.
  { intros zs. rewrite Value.forward_selection_step_eq.
    case_bool_decide as Hlt; [|done].
    destruct Hcase as [-> | Hnum]; [done|lia]. }
  split; [|split].
  - intros w zc zs Hzc Hpool.
    rewrite store_forward_selection_step_eq.
    rewrite (forward_iteration_run _ _ _ _ _ _ _ Hzc Hpool (mapM_id_Some pool)).
    case_bool_decide as Hlt; [|done].
    destruct Hcase as [-> | Hnum]; [done|lia].
  - intros prior removal_stage thr. unfold Value.select_zeroshot_configs.
    by rewrite Hidle.
  - intros prior removal_stage thr Hprior. unfold Value.select_zeroshot_configs.
    rewrite Hidle. simpl.
    assert (match prior with None => [] | Some l => Some <$> l end = @nil (option config))
      as -> by (destruct Hprior as [-> | ->]; done).
    destruct removal_stage; [apply Value.prune_zeroshot_configs_nil | done].
Qed.

Lemma forward_phase_idle_witness :
  (@nil config = [] ∨ (5 ≤ 0)%Z)
  ∧ Value.select_zeroshot_configs (to_value sample_generator []) 5 None true 0
    = Some [].
Proof.
  assert (@nil config = [] ∨ (5 ≤ 0)%Z) as H by (left; reflexivity).
  split; [exact H|].
  exact (proj2 (proj2 (forward_phase_idle sample_generator [] 5 H))
           None true 0 (or_introl eq_refl)).
Defined.

(** C6 as stated fails for a prior portfolio that is not empty: with an
    empty pool, target 5, prior portfolio [["A"]] and pruning off, the
    result is [["A"]]. *)
Lemma empty_pool_returns_prior :
  Value.select_zeroshot_configs (to_value sample_generator []) 5
    (Some ["A"%string]) false 0 ≠ Some [].
Proof. vm_compute. discriminate. Qed.

(** *** How often the scorer is called *)

Lemma prune_loop_cost self thr zc :
  ∀ zs b w,
    heap w !! zc = Some zs →
    ∃ zs' calls,
      prune_loop self thr zc b w
      = Some (tt, World (<[zc := zs']> (heap w)) (scored w ++ calls))
      ∧ (length zs' ≤ length zs)%nat
      ∧ (2 * length calls
         = (length zs - length zs' + 1) * (length zs + length zs'))%nat.
Proof.
  intros zs. remember (length zs) as n eqn:Hn.
  revert zs Hn. induction n as [n IH] using lt_wf_ind. intros zs Hn b w Hzc.
  rewrite store_prune_loop_step_eq, (prune_pass_run _ _ _ _ _ _ Hzc).
  assert (length (prune_calls zs) = n) as Hcalls
    by (unfold prune_calls; by rewrite length_map).
  destruct (Value.prune_round _ _ _ _) as [[c|] b'] eqn:Hr.
  2:{ exists zs, (prune_calls zs). rewrite insert_id by done.
      split; [done|]. split; [lia|]. rewrite Hcalls, <- Hn. lia. }
  assert (Some c ∈ zs) as Hin by (eapply Value.prune_round_elem; by rewrite Hr).
  apply py_remove_is_Some in Hin as [zs1 Hrm]. rewrite Hrm. simpl.
  pose proof (py_remove_length _ _ _ Hrm) as Hlen1.
  destruct (IH (length zs1)) with (zs := zs1) (b := b')
      (w := World (<[zc := zs1]> (heap w)) (scored w ++ prune_calls zs))
    as (zs' & calls & HB & Hle & Hcost); [lia | reflexivity | apply lookup_insert_eq |].
  exists zs', (prune_calls zs ++ calls). split; [|split].
  - etrans; [exact HB|]. simpl. by rewrite insert_insert_eq, <- app_assoc.
  - lia.
  - rewrite length_app, Hcalls. nia.
Qed.

(** X10: [prune_zeroshot_configs] on a portfolio of [n] entries that
    returns [m] entries calls the scorer once on the whole portfolio and
    then, in each of its [n - m + 1] rounds, once per entry of the current
    portfolio: [1 + n + (n-1) + ... + m] calls in all.  The result is a new
    list object and the store is otherwise as before. *)
Theorem prune_zeroshot_configs_cost (self : ZeroshotConfigGenerator)
    (zeroshot_configs : loc) (zs : list pyconfig) (thr : Q) (w : world) :
  heap w !! zeroshot_configs = Some zs →
  ∃ r res calls,
    prune_zeroshot_configs self zeroshot_configs thr w
    = Some (r, World (<[r := res]> (heap w)) (scored w ++ calls))
    ∧ heap w !! r = None
    ∧ (length res ≤ length zs)%nat
    ∧ (2 * length calls
       = 2 + (length zs - length res + 1) * (length zs + length res))%nat.
Proof.
  intros Hzr. destruct (deepcopy_fresh _ _ _ Hzr) as (r & Hcopy & Hfresh).
  unfold prune_zeroshot_configs.
  rewrite bind_run, Hcopy, bind_run. unfold deref at 1. simpl.
  rewrite lookup_insert_eq, bind_run. unfold score at 1. simpl.
  destruct (prune_loop_cost self thr r zs (config_scorer self zs)
              (World (<[r := zs]> (heap w)) (scored w ++ [zs])))
    as (res & calls & HB & Hle & Hcost); [apply lookup_insert_eq|].
  exists r, res, ([zs] ++ calls). split; [|split; [done|split; [done|]]].
  - rewrite bind_run, HB. simpl. by rewrite insert_insert_eq, <- app_assoc.
  - rewrite length_app. simpl. lia.
Qed.

Lemma prune_zeroshot_configs_cost_witness :
  heap sample_world !! 2%positive = Some [Some "B"%string]
  ∧ ∃ r res calls,
      prune_zeroshot_configs sample_generator 2%positive 0 sample_world
      = Some (r, World (<[r := res]> (heap sample_world))
                       (scored sample_world ++ calls))
      ∧ heap sample_world !! r = None.
Proof.
  assert (heap sample_world !! 2%positive = Some [Some "B"%string]) as H
    by reflexivity.
  split; [exact H|].
  destruct (prune_zeroshot_configs_cost sample_generator 2%positive _ 0 sample_world H)
    as (r & res & calls & Hrun & Hfresh & _).
  exists r, res, calls. split; [exact Hrun | exact Hfresh].
Defined.

Lemma triangle_step (m k v : nat) :
  (m ≤ v)%nat → (2 * k = m * (2 * v + 1 - m))%nat →
  (2 * (S v + k) = S m * (2 * S v + 1 - S m))%nat.
Proof.
  intros Hle Hk.
  assert (∃ d, v = m + d)%nat as [d ->] by (exists (v - m)%nat; lia).
  replace (2 * (m + d) + 1 - m)%nat with (m + 2 * d + 1)%nat in Hk by lia.
  replace (2 * S (m + d) + 1 - S m)%nat with (m + 2 * d + 2)%nat by lia.
  nia.
Qed.

Lemma forward_selection_cost_aux self num_zeroshot zc pool :
  zc ≠ all_configs self →
  Value.picks_candidate (to_value self pool) → NoDup pool →
  ∀ zs w,
    heap w !! zc = Some zs →
    heap w !! all_configs self = Some (Some <$> pool) →
    ∃ cs calls,
      forward_selection self num_zeroshot zc w
      = Some (tt, World (<[zc := zs ++ (Some <$> cs)]> (heap w)) (scored w ++ calls))
      ∧ length cs
        = Z.to_nat (num_zeroshot - Z.of_nat (length zs))
          `min` length (valid_configs_of (to_value self pool) zs)
      ∧ (2 * length calls
         = length cs
           * (2 * length (valid_configs_of (to_value self pool) zs) + 1 - length cs))%nat.
Proof.
  intros Hne Hpick Hnd zs.
  remember (Z.to_nat (num_zeroshot - Z.of_nat (length zs))) as n eqn:Hn.
  revert zs Hn. induction n as [n IH] using lt_wf_ind. intros zs Hn w Hzc Hpool.
  rewrite store_forward_selection_step_eq.
  rewrite (forward_iteration_run _ _ _ _ _ _ _ Hzc Hpool (mapM_id_Some pool)).
  case_bool_decide as Hlt.
  2:{ exists [], []. simpl. rewrite app_nil_r, world_insert_id by done.
      split; [done|]. split; lia. }
  destruct (valid_configs_of _ zs) as [|c0 cs0] eqn:Hv.
  { exists [], []. simpl. rewrite app_nil_r, world_insert_id by done.
    split; [done|]. split; lia. }
  destruct (Hpick (c0 :: cs0) zs) as (c & s & Hc & Hsel); [done|].
  simpl in Hsel |- *. rewrite Hsel.
  destruct (IH (Z.to_nat (num_zeroshot - Z.of_nat (length (zs ++ [Some c])))))
    with (zs := zs ++ [Some c])
         (w := World (<[zc := zs ++ [Some c]]> (heap w))
                     (scored w ++ selector_calls zs (c0 :: cs0)))
    as (cs & calls & HB & Hlen & Hcost); [| reflexivity | | | ].
  - subst n. rewrite length_app. simpl. lia.
  - simpl. apply lookup_insert_eq.
  - simpl. by rewrite lookup_insert_ne.
  - assert (S (length (valid_configs_of (to_value self pool) (zs ++ [Some c])))
            = S (length cs0)) as Hvalid.
    { rewrite Value.valid_configs_of_snoc, Hv.
      apply (Value.NoDup_filter_ne_length (c0 :: cs0) c); [|done].
      rewrite <- Hv. by apply NoDup_filter. }
    exists (c :: cs), (selector_calls zs (c0 :: cs0) ++ calls). split; [|split].
    + etrans; [exact HB|]. simpl.
      by rewrite insert_insert_eq, <- !app_assoc.
    + change (length (c :: cs)) with (S (length cs)).
      rewrite Hlen. rewrite length_app. simpl length. injection Hvalid as ->. lia.
    + assert (length (selector_calls zs (c0 :: cs0)) = S (length cs0)) as Hsc
        by (unfold selector_calls; by rewrite length_map).
      injection Hvalid as Hvalid. rewrite Hvalid in Hlen, Hcost.
      assert (length cs ≤ length cs0)%nat as Hle by lia.
      pose proof (triangle_step _ _ _ Hle Hcost) as Hgoal.
      rewrite length_app, Hsc. exact Hgoal.
Qed.

(** X9: in ray mode, or with every score below [999999999], and a pool of
    unique identifiers, the forward loop started with [v] pool
    configurations outside the portfolio appends [m] configurations, [m]
    being the smaller of [v] and what the target still asks for, and calls
    the scorer once per remaining candidate in each iteration:
    [v + (v-1) + ... + (v-m+1)] calls in all.  It writes to the working
    portfolio only. *)
Theorem forward_selection_cost (self : ZeroshotConfigGenerator)
    (num_zeroshot : Z) (zeroshot_configs : loc) (pool : list config)
    (zs : list pyconfig) (w : world) :
  backend self = "ray"%string ∨ (∀ l, config_scorer self l < sentinel) →
  NoDup pool →
  zeroshot_configs ≠ all_configs self →
  heap w !! zeroshot_configs = Some zs →
  heap w !! all_configs self = Some (Some <$> pool) →
  ∃ cs calls,
    forward_selection self num_zeroshot zeroshot_configs w
    = Some (tt, World (<[zeroshot_configs := zs ++ (Some <$> cs)]> (heap w))
                      (scored w ++ calls))
    ∧ length cs
      = Z.to_nat (num_zeroshot - Z.of_nat (length zs))
        `min` length (valid_configs_of (to_value self pool) zs)
    ∧ (2 * length calls
       = length cs
         * (2 * length (valid_configs_of (to_value self pool) zs) + 1 - length cs))%nat.
Proof.
  intros Hmode Hnd Hne Hzc Hpool.
  apply forward_selection_cost_aux; try done.
  destruct Hmode as [Hray | Hb];
    [by apply Value.ray_picks_candidate | by apply Value.bounded_picks_candidate].
Qed.

Lemma forward_selection_cost_witness :
  (backend sample_generator = "ray"%string
   ∨ (∀ l, config_scorer sample_generator l < sentinel))
  ∧ NoDup ["A"; "B"]%string
  ∧ ∃ cs calls,
      forward_selection sample_generator 5 2%positive sample_world
      = Some (tt, World (<[2%positive := [Some "B"%string] ++ (Some <$> cs)]>
                           (heap sample_world))
                        (scored sample_world ++ calls)).
Proof.
  assert (backend sample_generator = "ray"%string
          ∨ (∀ l, config_scorer sample_generator l < sentinel)) as Hmode.
  { right. intros l. simpl. unfold Value.b_penalty_scorer. case_decide; reflexivity. }
  assert (NoDup ["A"; "B"]%string) as Hnd
    by (apply (bool_decide_unpack _); vm_compute; exact I).
  split; [exact Hmode|]. split; [exact Hnd|].
  destruct (forward_selection_cost sample_generator 5 2%positive ["A"; "B"]%string
              [Some "B"%string] sample_world Hmode Hnd
              ltac:(discriminate) eq_refl eq_refl)
    as (cs & calls & Hrun & _).
  exists cs, calls. exact Hrun.
Defined.

End Heap.

(** * The cross-validation driver *)
Module CV.

(** Modelled from the spec: the scorer contract ([ConfigurationListScorer]
    is imported by the source but is not among its files).  A scorer is
    defined over a list of datasets; [subset] gives a scorer with the same
    scoring over another list of datasets and leaves the original alone. *)
Record ConfigurationListScorer := {
  datasets : list string;
  score_on : list string → scorer;
}.

Definition score (s : ConfigurationListScorer) : scorer := score_on s (datasets s).

Definition subset (s : ConfigurationListScorer) (ds : list string)
    : ConfigurationListScorer :=
  {| datasets := ds; score_on := score_on s |}.

(** A [for] loop whose body may raise. *)
Fixpoint foldM_opt {A B} (f : B → A → option B) (l : list A) (b : B) : option B :=
  match l with
  | [] => Some b
  | a :: l' => b' ← f b a; foldM_opt f l' b'
  end.

(** [arr[index]] for an index array: [IndexError] when out of range. *)
Definition index_list {A} (arr : list A) (index : list nat) : option (list A) :=
  mapM (λ j, arr !! j) index.

Section driver.

(** Parent dataset identifiers, with the order [sorted] uses on them. *)
Context {parent : Type} `{Countable parent}.
Context (parent_le : relation parent) `{!RelDecision parent_le}.

(** The index array [RandomState(0).shuffle] leaves from [arange(n)]: it
    depends on [n] alone, and is a rearrangement of [arange(n)]. *)
Context (shuffle : nat → list nat).
Hypothesis shuffle_perm : ∀ n, shuffle n ≡ₚ seq 0 n.

(** ** [KFold(n_splits, random_state=0, shuffle=True).split] *)

(** Modelled from the spec: the standard K-fold partition.  The first
    [n_samples mod n_splits] folds have one sample more than the others. *)
Definition fold_sizes (n_splits n_samples : nat) : list nat :=
  (λ i, if decide (i < n_samples `mod` n_splits)%nat
        then S (n_samples `div` n_splits) else (n_samples `div` n_splits))
    <$> seq 0 n_splits.

(** Consecutive slices of the shuffled index array, one per fold. *)
Fixpoint test_folds (indices : list nat) (sizes : list nat) : list (list nat) :=
  match sizes with
  | [] => []
  | fold_size :: sizes' =>
      take fold_size indices :: test_folds (drop fold_size indices) sizes'
  end.

(** Modelled from the spec: each fold yields [(train_index, test_index)],
    the positions outside and inside the fold's slice, both in increasing
    order; [ValueError] when there are fewer samples than splits. *)
Definition kf_split (n_splits : Z) (n_samples : nat) : option (list (list nat * list nat)) :=
  if decide (Z.of_nat n_samples < n_splits)%Z then None
  else
    let indices := seq 0 n_samples in
    Some ((λ test_idx,
            (filter (λ j, j ∉ test_idx) indices, filter (λ j, j ∈ test_idx) indices))
          <$> test_folds (shuffle n_samples) (fold_sizes (Z.to_nat n_splits) n_samples)).

(** ** The driver object *)

Record ZeroshotSimulatorContext := {
  dataset_name_to_tid_dict : gmap string parent;
  get_configs : list config;
}.

Record ZeroshotConfigGeneratorCV := {
  n_splits : Z;
  backend : string;
  config_scorer : ConfigurationListScorer;
  unique_datasets_fold : list string;
  unique_datasets_map : gmap string parent;
  unique_datasets : list parent;
  dataset_parent_to_fold_map : gmap parent (list string);
  configs : list config;
}.

(** Body of [for d in self.unique_datasets_fold]; the state is
    [(unique_datasets, dataset_parent_to_fold_map)].  A dataset missing from
    the map raises [KeyError]. *)
Definition init_step (unique_datasets_map : gmap string parent)
    (st : gset parent * gmap parent (list string)) (d : string)
    : option (gset parent * gmap parent (list string)) :=
  let '(unique_datasets, dataset_parent_to_fold_map) := st in
  dataset_parent ← unique_datasets_map !! d;
  let unique_datasets := {[dataset_parent]} ∪ unique_datasets in
  match dataset_parent_to_fold_map !! dataset_parent with
  | Some l =>
      Some (unique_datasets, <[dataset_parent := l ++ [d]]> dataset_parent_to_fold_map)
  | None =>
      Some (unique_datasets, <[dataset_parent := [d]]> dataset_parent_to_fold_map)
  end.

Definition __init__ (n_splits : Z) (zeroshot_simulator_context : ZeroshotSimulatorContext)
    (config_scorer : ConfigurationListScorer) (configs : option (list config))
    (backend : string) : option ZeroshotConfigGeneratorCV :=
  if decide (2 ≤ n_splits)%Z then
    let unique_datasets_fold := datasets config_scorer in
    let unique_datasets_map := dataset_name_to_tid_dict zeroshot_simulator_context in
    '(unique_datasets, dataset_parent_to_fold_map) ←
      foldM_opt (init_step unique_datasets_map) unique_datasets_fold (∅, ∅);
    let dataset_parent_to_fold_map :=
      merge_sort String.le <$> dataset_parent_to_fold_map in
    let unique_datasets := merge_sort parent_le (elements unique_datasets) in
    let configs :=
      match configs with
      | None => get_configs zeroshot_simulator_context
      | Some configs => configs
      end in
    Some {| n_splits := n_splits; backend := backend; config_scorer := config_scorer;
            unique_datasets_fold := unique_datasets_fold;
            unique_datasets_map := unique_datasets_map;
            unique_datasets := unique_datasets;
            dataset_parent_to_fold_map := dataset_parent_to_fold_map;
            configs := configs |}
  else None.

Record fold_result := {
  fold : nat;
  X_train : list parent;
  X_test : list parent;
  X_train_fold : list string;
  X_test_fold : list string;
  fold_score : Q;
  selected_configs : list (option config);
}.

Definition run_fold (self : ZeroshotConfigGeneratorCV) (X_train X_test : list string)
    : option (list (option config) * Q) :=
  let config_scorer_train := subset (config_scorer self) X_train in
  let config_scorer_test := subset (config_scorer self) X_test in
  let zs_config_generator :=
    {| Value.config_scorer := score config_scorer_train;
       Value.all_configs := configs self;
       Value.backend := backend self |} in
  zeroshot_configs ← Value.select_zeroshot_configs zs_config_generator 10 None false 0;
  let score := score config_scorer_test zeroshot_configs in
  Some (zeroshot_configs, score).

(** [for d in X: X_fold += self.dataset_parent_to_fold_map[d]] *)
Definition expand_folds (self : ZeroshotConfigGeneratorCV) (X : list parent)
    : option (list string) :=
  mjoin <$> mapM (λ d, dataset_parent_to_fold_map self !! d) X.

(** Body of the loop of [run] for split number [i] (from 0). *)
Definition run_split (self : ZeroshotConfigGeneratorCV) (i : nat)
    (split : list nat * list nat) : option fold_result :=
  let '(train_index, test_index) := split in
  X_train ← index_list (unique_datasets self) train_index;
  X_test ← index_list (unique_datasets self) test_index;
  X_train_fold ← expand_folds self X_train;
  X_test_fold ← expand_folds self X_test;
  '(zeroshot_configs_fold, score_fold) ← run_fold self X_train_fold X_test_fold;
  Some {| fold := i + 1; X_train := X_train; X_test := X_test;
          X_train_fold := X_train_fold; X_test_fold := X_test_fold;
          fold_score := score_fold; selected_configs := zeroshot_configs_fold |}.

Definition run (self : ZeroshotConfigGeneratorCV) : option (list fold_result) :=
  splits ← kf_split (n_splits self) (length (unique_datasets self));
  mapM id (imap (run_split self) splits).

(** ** The K-fold split is a partition of the positions *)

Lemma sum_sizes (q r k : nat) :
  sum_list ((λ i, if decide (i < r)%nat then S q else q) <$> seq 0 k)
  = (k * q + r `min` k)%nat.
Proof.
  induction k as [|k IH]; [simpl; lia|].
  rewrite seq_S, fmap_app, sum_list_with_app, IH. simpl.
  case_decide; lia.
Qed.

Lemma fold_sizes_sum (k n : nat) : (0 < k)%nat → sum_list (fold_sizes k n) = n.
Proof.
  intros Hk. unfold fold_sizes. rewrite sum_sizes.
  pose proof (Nat.mod_upper_bound n k ltac:(lia)).
  pose proof (Nat.div_mod_eq n k). lia.
Qed.

Lemma fold_sizes_length (k n : nat) : length (fold_sizes k n) = k.
Proof. unfold fold_sizes. by rewrite length_fmap, length_seq. Qed.

Lemma test_folds_length indices sizes :
  length (test_folds indices sizes) = length sizes.
Proof.
  revert indices. induction sizes as [|s sizes IH]; intros indices; simpl; [done|].
  by rewrite IH.
Qed.

Lemma test_folds_join (indices : list nat) sizes :
  mjoin (test_folds indices sizes) = take (sum_list sizes) indices.
Proof.
  revert indices. induction sizes as [|s sizes IH]; intros indices; simpl.
  - by rewrite take_0.
  - rewrite IH. apply take_take_drop.
Qed.

Lemma NoDup_join_each {A} (ls : list (list A)) a :
  NoDup (mjoin ls) → a ∈ ls → NoDup a.
Proof.
  induction ls as [|b ls IH]; simpl; [by intros _ ?%elem_of_nil|].
  intros (Hb & _ & Hls)%NoDup_app [-> | Ha]%elem_of_cons; auto.
Qed.

Lemma NoDup_join_disjoint {A} (ls : list (list A)) i j a b x :
  NoDup (mjoin ls) → i ≠ j → ls !! i = Some a → ls !! j = Some b →
  x ∈ a → x ∉ b.
Proof.
  revert i j. induction ls as [|c ls IH]; intros i j; simpl; [done|].
  intros (Hc & Hdisj & Hls)%NoDup_app Hij Hi Hj Ha Hb.
  destruct i as [|i], j as [|j]; simplify_eq/=.
  - apply (Hdisj x Ha). apply list_elem_of_join. exists b.
    split; [done|]. by eapply list_elem_of_lookup_2.
  - apply (Hdisj x Hb). apply list_elem_of_join. exists a.
    split; [done|]. by eapply list_elem_of_lookup_2.
  - by apply (IH i j Hls ltac:(congruence) Hi Hj Ha).
Qed.

(** The slices cut from the shuffled positions. *)
Definition slices (n_splits : Z) (n_samples : nat) : list (list nat) :=
  test_folds (shuffle n_samples) (fold_sizes (Z.to_nat n_splits) n_samples).

Lemma slices_join n_splits n_samples :
  (0 < n_splits)%Z → mjoin (slices n_splits n_samples) = shuffle n_samples.
Proof.
  intros Hk. unfold slices. rewrite test_folds_join, fold_sizes_sum by lia.
  apply take_ge. by rewrite (shuffle_perm n_samples), length_seq.
Qed.

Lemma slices_length n_splits n_samples :
  length (slices n_splits n_samples) = Z.to_nat n_splits.
Proof. unfold slices. by rewrite test_folds_length, fold_sizes_length. Qed.

Lemma slices_NoDup n_splits n_samples :
  (0 < n_splits)%Z → NoDup (mjoin (slices n_splits n_samples)).
Proof.
  intros Hk. rewrite slices_join, shuffle_perm by done. apply NoDup_seq.
Qed.

Lemma slices_elem n_splits n_samples j :
  (0 < n_splits)%Z →
  (j < n_samples)%nat ↔ ∃ t, t ∈ slices n_splits n_samples ∧ j ∈ t.
Proof.
  intros Hk.
  assert (j ∈ mjoin (slices n_splits n_samples) ↔ (j < n_samples)%nat) as <-.
  { rewrite slices_join, shuffle_perm by done. rewrite elem_of_seq. lia. }
  rewrite list_elem_of_join. split; intros (t & ? & ?); by exists t.
Qed.

Lemma kf_split_eq n_splits n_samples :
  kf_split n_splits n_samples
  = if decide (Z.of_nat n_samples < n_splits)%Z then None
    else Some ((λ test_idx,
                 (filter (λ j, j ∉ test_idx) (seq 0 n_samples),
                  filter (λ j, j ∈ test_idx) (seq 0 n_samples)))
               <$> slices n_splits n_samples).
Proof. done. Qed.

(** ** Indexing the sorted parents *)

Lemma index_list_is_Some {A} (arr : list A) (index : list nat) :
  (∀ j, j ∈ index → (j < length arr)%nat) → is_Some (index_list arr index).
Proof.
  intros Hlt. apply mapM_is_Some_2, Forall_forall. intros j Hj. simpl.
  apply lookup_lt_is_Some_2. by apply Hlt.
Qed.

Lemma index_list_elem {A} (arr : list A) (index : list nat) X :
  index_list arr index = Some X →
  ∀ x, x ∈ X ↔ ∃ j, j ∈ index ∧ arr !! j = Some x.
Proof.
  intros HX%mapM_Some_1. induction HX as [|j y index X Hj _ IH]; intros x.
  - split; [by intros ?%elem_of_nil | by intros (j & ?%elem_of_nil & _)].
  - rewrite elem_of_cons, IH. split.
    + intros [-> | (j' & Hj' & Hx)]; [exists j | exists j'];
        (split; [|done]); [left | by right].
    + intros (j' & [-> | Hj']%elem_of_cons & Hx); [left; congruence | right; eauto].
Qed.

(** ** What the constructor establishes *)

Lemma init_fold_inv (m : gmap string parent) ds st st' :
  foldM_opt (init_step m) ds st = Some st' →
  dom st.2 = st.1 →
  dom st'.2 = st'.1
  ∧ ∀ x, x ∈ st'.1 ↔ x ∈ st.1 ∨ ∃ d, d ∈ ds ∧ m !! d = Some x.
Proof.
  revert st. induction ds as [|d ds IH]; intros [uds fm]; simpl.
  - intros [= <-] Hdom. split; [done|]. intros x. split; [auto|].
    intros [?|(d & ?%elem_of_nil & _)]; done.
  - destruct (m !! d) as [dp|] eqn:Hd; [|done]. simpl. intros Hfold Hdom.
    simpl in Hdom.
    assert (∃ l, foldM_opt (init_step m) ds ({[dp]} ∪ uds, <[dp := l]> fm) = Some st')
      as [l Hfold'] by (destruct (fm !! dp); eauto).
    apply IH in Hfold' as [Hdom' Hel]; [|simpl; rewrite dom_insert_L; by rewrite Hdom].
    split; [done|]. intros x. rewrite Hel. simpl. split.
    + intros [[->%elem_of_singleton | Hx]%elem_of_union | (d' & Hd' & Hx)].
      * right. exists d. split; [left|done].
      * by left.
      * right. exists d'. split; [by right|done].
    + intros [Hx | (d' & [-> | Hd']%elem_of_cons & Hx)].
      * left. apply elem_of_union. by right.
      * left. rewrite Hd in Hx. injection Hx as ->.
        apply elem_of_union. left. by apply elem_of_singleton.
      * right. eauto.
Qed.

Lemma init_spec k ctx sc cfgs b self :
  __init__ k ctx sc cfgs b = Some self →
  (2 ≤ k)%Z ∧ n_splits self = k
  ∧ NoDup (unique_datasets self)
  ∧ (∀ x, x ∈ unique_datasets self
          ↔ ∃ d, d ∈ datasets sc ∧ dataset_name_to_tid_dict ctx !! d = Some x)
  ∧ (∀ x, x ∈ unique_datasets self →
          is_Some (dataset_parent_to_fold_map self !! x)).
Proof.
  unfold __init__. case_decide as Hk; [|done].
  destruct (foldM_opt _ _ _) as [[uds fm]|] eqn:Hfold; [|done]. simpl.
  intros [= <-]. simpl.
  apply init_fold_inv in Hfold as [Hdom Hel]; [|simpl; by rewrite dom_empty_L].
  simpl in *. split; [done|]. split; [done|].
  assert (∀ x, x ∈ merge_sort parent_le (elements uds) ↔ x ∈ uds) as Hsorted.
  { intros x. by rewrite merge_sort_Permutation, elem_of_elements. }
  split; [|split].
  - rewrite merge_sort_Permutation. apply NoDup_elements.
  - intros x. rewrite Hsorted, Hel. split; [|by right].
    intros [?%elem_of_empty|]; done.
  - intros x Hx%Hsorted. rewrite lookup_fmap. apply fmap_is_Some.
    apply elem_of_dom. by rewrite Hdom.
Qed.

(** ** The records of [run] *)

Lemma run_split_X self i train_index test_index r :
  run_split self i (train_index, test_index) = Some r →
  index_list (unique_datasets self) train_index = Some (X_train r)
  ∧ index_list (unique_datasets self) test_index = Some (X_test r).
Proof.
  unfold run_split. intros Hr.
  destruct (index_list _ train_index) as [Xtr|]; [|done].
  destruct (index_list _ test_index) as [Xte|]; [|done]. simpl in Hr.
  destruct (expand_folds self Xtr) as [Ftr|]; [|done].
  destruct (expand_folds self Xte) as [Fte|]; [|done]. simpl in Hr.
  destruct (run_fold self Ftr Fte) as [[zs sf]|]; [|done].
  by injection Hr as <-.
Qed.

Lemma expand_folds_is_Some self X :
  (∀ x, x ∈ X → is_Some (dataset_parent_to_fold_map self !! x)) →
  is_Some (expand_folds self X).
Proof.
  intros HX. unfold expand_folds. apply fmap_is_Some, mapM_is_Some_2, Forall_forall.
  intros x Hx. by apply HX.
Qed.

Lemma run_fold_is_Some self Ftr Fte : is_Some (run_fold self Ftr Fte).
Proof.
  unfold run_fold.
  destruct (Value.select_zeroshot_configs_total
              {| Value.config_scorer := score (subset (config_scorer self) Ftr);
                 Value.all_configs := configs self;
                 Value.backend := backend self |} 10 None false 0) as [zs ->].
  done.
Qed.

Lemma run_split_is_Some self i train_index test_index :
  (∀ j, j ∈ train_index → (j < length (unique_datasets self))%nat) →
  (∀ j, j ∈ test_index → (j < length (unique_datasets self))%nat) →
  (∀ x, x ∈ unique_datasets self →
        is_Some (dataset_parent_to_fold_map self !! x)) →
  is_Some (run_split self i (train_index, test_index)).
Proof.
  intros Htr Hte Hmap. unfold run_split.
  destruct (index_list_is_Some _ _ Htr) as [Xtr HXtr].
  destruct (index_list_is_Some _ _ Hte) as [Xte HXte].
  rewrite HXtr, HXte. simpl.
  assert (∀ idx X, index_list (unique_datasets self) idx = Some X →
            is_Some (expand_folds self X)) as Hexp.
  { intros idx X HX. apply expand_folds_is_Some. intros x Hx. apply Hmap.
    apply (index_list_elem _ _ _ HX) in Hx as (j & _ & Hj).
    by eapply list_elem_of_lookup_2. }
  destruct (Hexp _ _ HXtr) as [Ftr ->]. destruct (Hexp _ _ HXte) as [Fte ->]. simpl.
  destruct (run_fold_is_Some self Ftr Fte) as [[zs sf] ->]. done.
Qed.

(** Each record comes from the slice of the same rank. *)
Lemma run_folds_lookup self folds :
  (0 < n_splits self)%Z →
  run self = Some folds →
  let n := length (unique_datasets self) in
  length folds = Z.to_nat (n_splits self)
  ∧ ∀ i r, folds !! i = Some r →
      ∃ t, slices (n_splits self) n !! i = Some t
        ∧ (∀ x, x ∈ X_test r ↔ ∃ j, j ∈ t ∧ unique_datasets self !! j = Some x)
        ∧ (∀ x, x ∈ X_train r ↔ ∃ j, (j ∉ t) ∧ unique_datasets self !! j = Some x).
Proof.
  intros Hk. unfold run. rewrite kf_split_eq. case_decide as Hn; [done|]. simpl.
  intros Hfolds%mapM_Some_1. split.
  - rewrite <- (Forall2_length _ _ _ Hfolds), length_imap, length_fmap.
    apply slices_length.
  - intros i r Hr.
    destruct (Forall2_lookup_r _ _ _ _ _ Hfolds Hr) as (o & Ho & Hor).
    simpl in Hor. subst o. rewrite list_lookup_imap in Ho.
    apply fmap_Some in Ho as (s & Hs & Hrun).
    rewrite list_lookup_fmap in Hs. apply fmap_Some in Hs as (t & Ht & ->).
    symmetry in Hrun. apply run_split_X in Hrun as [Htr Hte].
    exists t. split; [done|]. split; intros x.
    + rewrite (index_list_elem _ _ _ Hte). split.
      * intros (j & [Hj _]%list_elem_of_filter & Hx). eauto.
      * intros (j & Hj & Hx). exists j. split; [|done].
        apply list_elem_of_filter. split; [done|].
        apply elem_of_seq. apply lookup_lt_Some in Hx. lia.
    + rewrite (index_list_elem _ _ _ Htr). split.
      * intros (j & [Hj _]%list_elem_of_filter & Hx). eauto.
      * intros (j & Hj & Hx). exists j. split; [|done].
        apply list_elem_of_filter. split; [done|].
        apply elem_of_seq. apply lookup_lt_Some in Hx. lia.
Qed.

Lemma run_is_Some self :
  (0 < n_splits self)%Z →
  (n_splits self ≤ Z.of_nat (length (unique_datasets self)))%Z →
  (∀ x, x ∈ unique_datasets self →
        is_Some (dataset_parent_to_fold_map self !! x)) →
  is_Some (run self).
Proof.
  intros Hk Hn Hmap. unfold run. rewrite kf_split_eq.
  rewrite decide_False by lia. simpl.
  apply mapM_is_Some_2, Forall_lookup. intros i o Ho. simpl.
  rewrite list_lookup_imap in Ho. apply fmap_Some in Ho as (s & Hs & ->).
  rewrite list_lookup_fmap in Hs. apply fmap_Some in Hs as (t & Ht & ->).
  apply run_split_is_Some; [| |done].
  - intros j [_ Hj%elem_of_seq]%list_elem_of_filter. lia.
  - intros j [_ Hj%elem_of_seq]%list_elem_of_filter. lia.
Qed.

(** ** Further properties of the constructor *)

Lemma init_fold_is_Some (m : gmap string parent) ds st :
  is_Some (foldM_opt (init_step m) ds st) ↔ ∀ d, d ∈ ds → is_Some (m !! d).
Proof.
  revert st. induction ds as [|d ds IH]; intros [uds fm]; simpl.
  - split; [by intros _ d ?%elem_of_nil | done].
  - destruct (m !! d) as [dp|] eqn:Hd; simpl.
    + assert (∃ st', (match fm !! dp with
                      | Some l => Some ({[dp]} ∪ uds, <[dp := l ++ [d]]> fm)
                      | None => Some ({[dp]} ∪ uds, <[dp := [d]]> fm)
                      end) = Some st') as [st' ->] by (destruct (fm !! dp); eauto).
      simpl. rewrite IH. split.
      * intros Hall d' [-> | Hd']%elem_of_cons; [by rewrite Hd | by apply Hall].
      * intros Hall d' Hd'. apply Hall. by right.
    + split; [by intros [? ?]|]. intros Hall.
      destruct (Hall d ltac:(left)) as [? Hx]. by rewrite Hd in Hx.
Qed.

Lemma init_succeeds_map k ctx sc cfgs b :
  is_Some (__init__ k ctx sc cfgs b) ↔
  (2 ≤ k)%Z ∧ ∀ d, d ∈ datasets sc → is_Some (dataset_name_to_tid_dict ctx !! d).
Proof.
  unfold __init__. case_decide as Hk.
  - rewrite <- (init_fold_is_Some (dataset_name_to_tid_dict ctx) (datasets sc) (∅, ∅)).
    destruct (foldM_opt _ _ _) as [[uds fm]|]; simpl.
    + split; [done | by eexists].
    + split; [by intros [? ?] | by intros [_ [? ?]]].
  - split; [by intros [? ?] | by intros [? _]].
Qed.

(** X11: the constructor raises exactly when [n_splits < 2] (the
    assertion) or some dataset of the scorer has no entry in
    [dataset_name_to_tid_dict] (a [KeyError]); otherwise it returns a driver
    with the given [n_splits], backend and scorer, whose configurations are
    the given ones or, when none are given, those of the context. *)
Theorem init_succeeds_iff k ctx sc cfgs b :
  (is_Some (__init__ k ctx sc cfgs b)
   ↔ (2 ≤ k)%Z ∧ ∀ d, d ∈ datasets sc → is_Some (dataset_name_to_tid_dict ctx !! d))
  ∧ (∀ self, __init__ k ctx sc cfgs b = Some self →
       n_splits self = k ∧ backend self = b ∧ config_scorer self = sc
       ∧ configs self = default (get_configs ctx) cfgs).
Proof.
  split; [apply init_succeeds_map|].
  intros self. unfold __init__. case_decide as Hk; [|done].
  destruct (foldM_opt _ _ _) as [[uds fm]|]; [|done]. simpl.
  intros [= <-]. simpl. by destruct cfgs.
Qed.

(** The datasets of [l] whose parent is [x], in the order of [l]. *)
Definition datasets_of (m : gmap string parent) (l : list string) (x : parent)
    : list string :=
  filter (λ d, m !! d = Some x) l.

Lemma init_fold_groups (m : gmap string parent) ds pre st st' :
  foldM_opt (init_step m) ds st = Some st' →
  (∀ x, st.2 !! x = match datasets_of m pre x with [] => None | g => Some g end) →
  ∀ x, st'.2 !! x = match datasets_of m (pre ++ ds) x with [] => None | g => Some g end.
Proof.
  revert pre st. induction ds as [|d ds IH]; intros pre [uds fm]; simpl.
  - intros [= <-] Hinv x. by rewrite app_nil_r.
  - destruct (m !! d) as [dp|] eqn:Hd; [|done]. simpl. intros Hfold Hinv.
    replace (pre ++ d :: ds) with ((pre ++ [d]) ++ ds) by by rewrite <- app_assoc.
    assert (∀ x, datasets_of m (pre ++ [d]) x
                 = datasets_of m pre x ++ (if decide (x = dp) then [d] else [])) as Hsnoc.
    { intros x. unfold datasets_of. rewrite filter_app. f_equal.
      case_decide as Hx.
      - subst x. by rewrite filter_cons_True.
      - rewrite filter_cons_False; [done|]. rewrite Hd. intros [= ->]. done. }
    destruct (fm !! dp) as [l|] eqn:Hl.
    + simpl in Hfold. eapply (IH (pre ++ [d])); [exact Hfold|]. simpl. intros x.
      rewrite Hsnoc. case_decide as Hx.
      * subst x. rewrite lookup_insert_eq. rewrite Hinv in Hl.
        destruct (datasets_of m pre dp) as [|g0 g]; [done|]. by injection Hl as <-.
      * rewrite lookup_insert_ne by done. by rewrite app_nil_r.
    + simpl in Hfold. eapply (IH (pre ++ [d])); [exact Hfold|]. simpl. intros x.
      rewrite Hsnoc. case_decide as Hx.
      * subst x. rewrite lookup_insert_eq. rewrite Hinv in Hl.
        by destruct (datasets_of m pre dp).
      * rewrite lookup_insert_ne by done. by rewrite app_nil_r.
Qed.

Lemma init_map_lookup k ctx sc cfgs b self x :
  __init__ k ctx sc cfgs b = Some self →
  dataset_parent_to_fold_map self !! x
  = match datasets_of (dataset_name_to_tid_dict ctx) (datasets sc) x with
    | [] => None
    | g => Some (merge_sort String.le g)
    end.
Proof.
  unfold __init__. case_decide as Hk; [|done].
  destruct (foldM_opt _ _ _) as [[uds fm]|] eqn:Hfold; [|done]. simpl.
  intros [= <-]. simpl.
  pose proof (init_fold_groups _ _ [] _ _ Hfold) as Hgroups. simpl in Hgroups.
  rewrite lookup_fmap, Hgroups by (intros y; apply lookup_empty).
  by destruct (datasets_of _ _ _).
Qed.

(** X12: [dataset_parent_to_fold_map] maps each parent to the sorted list
    of exactly the scorer's datasets that have this parent (as often as the
    scorer lists them), and holds no other key: its keys are the entries of
    [unique_datasets], and no list is empty. *)
Theorem init_parent_to_fold_map k ctx sc cfgs b self :
  __init__ k ctx sc cfgs b = Some self →
  (∀ x l, dataset_parent_to_fold_map self !! x = Some l →
     Sorted String.le l
     ∧ l ≡ₚ filter (λ d, dataset_name_to_tid_dict ctx !! d = Some x) (datasets sc)
     ∧ l ≠ [])
  ∧ (∀ x, is_Some (dataset_parent_to_fold_map self !! x) ↔ x ∈ unique_datasets self).
Proof.
  intros Hinit. split.
  - intros x l. rewrite (init_map_lookup _ _ _ _ _ _ x Hinit).
    fold (datasets_of (dataset_name_to_tid_dict ctx) (datasets sc) x).
    destruct (datasets_of _ _ x) as [|g0 g] eqn:Hg; [done|]. intros [= <-].
    split; [apply Sorted_merge_sort, _|]. split; [apply merge_sort_Permutation|].
    intros Hnil.
    pose proof (merge_sort_Permutation String.le (g0 :: g)) as Hperm.
    rewrite Hnil in Hperm. by apply Permutation_nil_l in Hperm.
  - intros x.
    destruct (init_spec _ _ _ _ _ _ Hinit) as (_ & _ & _ & Hparents & _).
    rewrite Hparents, (init_map_lookup _ _ _ _ _ _ x Hinit).
    destruct (datasets_of _ _ x) as [|g0 g] eqn:Hg.
    + split; [by intros [? ?]|]. intros (d & Hd & Hx).
      assert (d ∈ datasets_of (dataset_name_to_tid_dict ctx) (datasets sc) x) as Hin
        by by apply list_elem_of_filter.
      rewrite Hg in Hin. by apply elem_of_nil in Hin.
    + split; [|by eexists]. intros _.
      assert (g0 ∈ datasets_of (dataset_name_to_tid_dict ctx) (datasets sc) x) as Hin
        by (rewrite Hg; left).
      apply list_elem_of_filter in Hin as [Hx Hin]. eauto.
Qed.

(** X13: when the order on parent identifiers is total, [unique_datasets]
    is sorted in that order. *)
Theorem init_unique_datasets_sorted `{!Total parent_le} k ctx sc cfgs b self :
  __init__ k ctx sc cfgs b = Some self →
  Sorted parent_le (unique_datasets self).
Proof.
  unfold __init__. case_decide as Hk; [|done].
  destruct (foldM_opt _ _ _) as [[uds fm]|]; [|done]. simpl.
  intros [= <-]. simpl. apply Sorted_merge_sort, _.
Qed.

(** ** Further properties of the records *)

Lemma run_split_fields self i train_index test_index r :
  run_split self i (train_index, test_index) = Some r →
  fold r = (i + 1)%nat
  ∧ expand_folds self (X_train r) = Some (X_train_fold r)
  ∧ expand_folds self (X_test r) = Some (X_test_fold r)
  ∧ run_fold self (X_train_fold r) (X_test_fold r)
    = Some (selected_configs r, fold_score r).
Proof.
  unfold run_split. intros Hr.
  destruct (index_list _ train_index) as [Xtr|]; [|done].
  destruct (index_list _ test_index) as [Xte|]; [|done]. simpl in Hr.
  destruct (expand_folds self Xtr) as [Ftr|] eqn:HFtr; [|done].
  destruct (expand_folds self Xte) as [Fte|] eqn:HFte; [|done]. simpl in Hr.
  destruct (run_fold self Ftr Fte) as [[zs sf]|] eqn:Hfold; [|done].
  by injection Hr as <-.
Qed.

Lemma run_records self folds i r :
  run self = Some folds → folds !! i = Some r →
  ∃ split, run_split self i split = Some r.
Proof.
  unfold run. destruct (kf_split _ _) as [splits|]; [|done]. simpl.
  intros Hfolds%mapM_Some_1 Hr.
  destruct (Forall2_lookup_r _ _ _ _ _ Hfolds Hr) as (o & Ho & Hor).
  simpl in Hor. subst o. rewrite list_lookup_imap in Ho.
  apply fmap_Some in Ho as (s & _ & Hrun). by exists s.
Qed.

Lemma expand_folds_elem self X F :
  expand_folds self X = Some F →
  ∀ d, d ∈ F ↔ ∃ x l, x ∈ X ∧ dataset_parent_to_fold_map self !! x = Some l ∧ d ∈ l.
Proof.
  unfold expand_folds. intros (ls & Hls%mapM_Some_1 & ->)%fmap_Some d.
  rewrite list_elem_of_join.
  induction Hls as [|x l X ls Hx _ IH].
  - split; [by intros (l & _ & ?%elem_of_nil) | by intros (x & l & ?%elem_of_nil & _)].
  - split.
    + intros (l' & Hd & [-> | Hl']%elem_of_cons).
      * exists x, l. split; [left | done].
      * destruct (proj1 IH) as (x' & l'' & Hx' & Hl'' & Hd'); [by exists l'|].
        exists x', l''. split; [by right | done].
    + intros (x' & l' & [-> | Hx']%elem_of_cons & Hl' & Hd).
      * exists l. split; [congruence | left].
      * destruct (proj2 IH) as (l'' & Hd' & Hl''); [by exists x', l'|].
        exists l''. split; [done | by right].
Qed.

Lemma record_parents_partition k ctx sc cfgs b self folds r :
  __init__ k ctx sc cfgs b = Some self →
  run self = Some folds → r ∈ folds →
  (∀ x, x ∈ X_train r → x ∉ X_test r)
  ∧ (∀ x, x ∈ unique_datasets self ↔ x ∈ X_train r ∨ x ∈ X_test r).
Proof.
  intros Hinit Hrun [i Hi]%list_elem_of_lookup_1.
  destruct (init_spec _ _ _ _ _ _ Hinit) as (Hk & Hsplits & HU & _ & _).
  destruct (run_folds_lookup self folds ltac:(lia) Hrun) as [_ Hrec].
  destruct (Hrec i r Hi) as (t & _ & Hte & Htr). split.
  - intros x (j & Hj & Hx)%Htr (j' & Hj' & Hx')%Hte.
    by rewrite (NoDup_lookup _ j j' x HU Hx Hx') in Hj.
  - intros x. rewrite Htr, Hte. split.
    + intros [j Hj]%list_elem_of_lookup_1.
      destruct (decide (j ∈ t)); [right | left]; eauto.
    + intros [(j & _ & Hx) | (j & _ & Hx)]; by eapply list_elem_of_lookup_2.
Qed.

(** X14: in every record of [run], [X_train_fold] holds exactly the
    scorer's datasets whose parent is in [X_train], and [X_test_fold] those
    whose parent is in [X_test]; so the two lists share no dataset and
    together hold every dataset of the scorer. *)
Theorem run_fold_lists k ctx sc cfgs b self folds :
  __init__ k ctx sc cfgs b = Some self →
  run self = Some folds →
  ∀ r, r ∈ folds →
    (∀ d, d ∈ X_train_fold r
          ↔ d ∈ datasets sc
            ∧ ∃ x, x ∈ X_train r ∧ dataset_name_to_tid_dict ctx !! d = Some x)
    ∧ (∀ d, d ∈ X_test_fold r
            ↔ d ∈ datasets sc
              ∧ ∃ x, x ∈ X_test r ∧ dataset_name_to_tid_dict ctx !! d = Some x)
    ∧ (∀ d, d ∈ X_train_fold r → d ∉ X_test_fold r)
    ∧ (∀ d, d ∈ datasets sc ↔ d ∈ X_train_fold r ∨ d ∈ X_test_fold r).
Proof.
  intros Hinit Hrun r Hr.
  destruct (record_parents_partition _ _ _ _ _ _ _ _ Hinit Hrun Hr) as [Hdisj Hcover].
  destruct (init_spec _ _ _ _ _ _ Hinit) as (_ & _ & _ & Hparents & _).
  pose proof Hr as [i Hi]%list_elem_of_lookup_1.
  destruct (run_records _ _ _ _ Hrun Hi) as ([tr te] & Hsplit).
  apply run_split_fields in Hsplit as (_ & Htrain & Htest & _).
  assert (∀ X F, expand_folds self X = Some F →
            ∀ d, d ∈ F ↔ d ∈ datasets sc
                         ∧ ∃ x, x ∈ X ∧ dataset_name_to_tid_dict ctx !! d = Some x)
    as Hexp.
  { intros X F HF d. rewrite (expand_folds_elem _ _ _ HF). split.
    - intros (x & l & Hx & Hl & Hd).
      rewrite (init_map_lookup _ _ _ _ _ _ x Hinit) in Hl.
      destruct (datasets_of _ _ x) as [|g0 g] eqn:Hg; [done|]. injection Hl as <-.
      rewrite merge_sort_Permutation, <- Hg in Hd.
      apply list_elem_of_filter in Hd as [Hdx Hd]. eauto.
    - intros (Hd & x & Hx & Hdx).
      assert (d ∈ datasets_of (dataset_name_to_tid_dict ctx) (datasets sc) x) as Hin
        by by apply list_elem_of_filter.
      exists x, (merge_sort String.le
                   (datasets_of (dataset_name_to_tid_dict ctx) (datasets sc) x)).
      split; [done|]. split; [|by rewrite merge_sort_Permutation].
      rewrite (init_map_lookup _ _ _ _ _ _ x Hinit).
      by destruct (datasets_of _ _ x); [apply elem_of_nil in Hin|]. }
  split; [by apply Hexp|]. split; [by apply Hexp|]. split.
  - intros d (_ & x & Hx & Hdx)%(Hexp _ _ Htrain) (_ & x' & Hx' & Hdx')%(Hexp _ _ Htest).
    rewrite Hdx in Hdx'. injection Hdx' as <-. by apply (Hdisj x).
  - intros d. rewrite (Hexp _ _ Htrain), (Hexp _ _ Htest). split.
    + intros Hd.
      assert (∃ x, dataset_name_to_tid_dict ctx !! d = Some x ∧ x ∈ unique_datasets self)
        as (x & Hdx & Hx).
      { destruct (proj2 (proj1 (init_succeeds_map k ctx sc cfgs b)
                                  (mk_is_Some _ _ Hinit)) d Hd) as [x Hdx].
        exists x. split; [done|]. apply Hparents. eauto. }
      apply Hcover in Hx as [Hx | Hx]; [left | right]; eauto.
    + intros [[Hd _] | [Hd _]]; done.
Qed.

(** X15: the records of [run] are numbered from 1 in the order of the
    splits; each holds at most 10 selected entries, every one of them [None]
    or a configuration of the driver; no configuration occurs twice among
    them ([None] may: the sequential selector can append it in every
    iteration); and its score is the score of that selection under the
    scorer restricted to [X_test_fold]. *)
Theorem run_records_numbered self folds :
  run self = Some folds →
  ∀ i r, folds !! i = Some r →
    fold r = (i + 1)%nat
    ∧ (length (selected_configs r) ≤ 10)%nat
    ∧ (∀ x, x ∈ selected_configs r → x = None ∨ ∃ c, x = Some c ∧ c ∈ configs self)
    ∧ NoDup (omap id (selected_configs r))
    ∧ fold_score r
      = score (subset (config_scorer self) (X_test_fold r)) (selected_configs r).
Proof.
  intros Hrun i r Hi.
  destruct (run_records _ _ _ _ Hrun Hi) as ([tr te] & Hsplit).
  apply run_split_fields in Hsplit as (Hfold & _ & _ & Hrf).
  split; [done|]. unfold run_fold in Hrf.
  destruct (Value.select_zeroshot_configs _ _ _ _ _) as [zs|] eqn:Hsel; [|done].
  simpl in Hrf. injection Hrf as <- <-.
  unfold Value.select_zeroshot_configs in Hsel.
  destruct (Value.forward_selection_appends
              {| Value.config_scorer := score (subset (config_scorer self) (X_train_fold r));
                 Value.all_configs := configs self;
                 Value.backend := backend self |} 10 [])
    as (added & Hrun' & (Hlen & Hel & Hnd) & _).
  rewrite Hrun' in Hsel. simpl in Hsel. injection Hsel as <-.
  split; [simpl in Hlen; lia|]. split; [|done].
  intros x Hx. destruct (Hel x Hx) as [-> | (c & -> & Hc & _)]; [by left|].
  right. by exists c.
Qed.

(** C5: for a driver built with [n_splits >= 2] over any scorer, the
    sorted parent datasets [U] are the parents of the scorer's datasets,
    without repetition.  [run] returns exactly when there are at least
    [n_splits] parents, and then it returns [n_splits] records; in each
    record [X_train] and [X_test] share no parent and together hold every
    parent of [U]; the [X_test] lists of two different records share no
    parent and every parent of [U] is in the [X_test] of some record; and a
    second driver built from the same inputs runs to the same records. *)
Theorem cv_folds_partition k ctx sc cfgs b self :
  __init__ k ctx sc cfgs b = Some self →
  let U := unique_datasets self in
  (2 ≤ k)%Z
  ∧ NoDup U
  ∧ (∀ x, x ∈ U ↔ ∃ d, d ∈ datasets sc ∧ dataset_name_to_tid_dict ctx !! d = Some x)
  ∧ (is_Some (run self) ↔ (k ≤ Z.of_nat (length U))%Z)
  ∧ (∀ folds, run self = Some folds →
       length folds = Z.to_nat k
       ∧ (∀ r, r ∈ folds →
            (∀ x, x ∈ X_train r → x ∉ X_test r)
            ∧ (∀ x, x ∈ U ↔ x ∈ X_train r ∨ x ∈ X_test r))
       ∧ (∀ i j ri rj, i ≠ j → folds !! i = Some ri → folds !! j = Some rj →
            ∀ x, x ∈ X_test ri → x ∉ X_test rj)
       ∧ (∀ x, x ∈ U ↔ ∃ r, r ∈ folds ∧ x ∈ X_test r))
  ∧ (∀ self', __init__ k ctx sc cfgs b = Some self' → run self' = run self).
Proof.
  intros Hinit U.
  destruct (init_spec _ _ _ _ _ _ Hinit) as (Hk & Hsplits & HU & Hparents & Hmap).
  split; [done|]. split; [done|]. split; [done|]. split; [|split].
  - split.
    + intros [folds Hrun]. unfold run in Hrun. rewrite kf_split_eq in Hrun.
      case_decide; [done|]. fold U in H0. lia.
    + intros Hn. apply run_is_Some; [lia | by rewrite Hsplits | done].
  - intros folds Hrun.
    destruct (run_folds_lookup self folds ltac:(lia) Hrun) as [Hlen Hrec].
    rewrite Hsplits in Hlen, Hrec. fold U in Hrec.
    split; [done|]. split; [|split].
    + intros r [i Hi]%list_elem_of_lookup_1.
      destruct (Hrec i r Hi) as (t & Ht & Hte & Htr). split.
      * intros x (j & Hj & Hx)%Htr (j' & Hj' & Hx')%Hte.
        by rewrite (NoDup_lookup U j j' x HU Hx Hx') in Hj.
      * intros x. rewrite Htr, Hte. split.
        -- intros [j Hj]%list_elem_of_lookup_1.
           destruct (decide (j ∈ t)); [right | left]; eauto.
        -- intros [(j & _ & Hx) | (j & _ & Hx)]; by eapply list_elem_of_lookup_2.
    + intros i j ri rj Hij Hi Hj x Hxi Hxj.
      destruct (Hrec i ri Hi) as (ti & Hti & Htei & _).
      destruct (Hrec j rj Hj) as (tj & Htj & Htej & _).
      apply Htei in Hxi as (a & Ha & Hxa). apply Htej in Hxj as (a' & Ha' & Hxa').
      rewrite (NoDup_lookup U a' a x HU Hxa' Hxa) in Ha'.
      by apply (NoDup_join_disjoint _ i j ti tj a
                  (slices_NoDup k (length U) ltac:(lia)) Hij Hti Htj Ha).
    + intros x. split.
      * intros [j Hj]%list_elem_of_lookup_1.
        assert (j < length U)%nat as Hlt by by eapply lookup_lt_Some.
        apply (slices_elem k (length U) j ltac:(lia)) in Hlt
          as (t & [i Hi]%list_elem_of_lookup_1 & Hjt).
        assert (i < length folds)%nat as Hif.
        { rewrite Hlen, <- (slices_length k (length U)). by eapply lookup_lt_Some. }
        apply lookup_lt_is_Some_2 in Hif as [r Hr].
        destruct (Hrec i r Hr) as (t' & Ht' & Hte & _).
        rewrite Hi in Ht'. injection Ht' as <-.
        exists r. split; [by eapply list_elem_of_lookup_2|]. apply Hte. eauto.
      * intros (r & [i Hi]%list_elem_of_lookup_1 & Hx).
        destruct (Hrec i r Hi) as (t & _ & Hte & _).
        destruct (proj1 (Hte x) Hx) as (j & _ & Hj). by eapply list_elem_of_lookup_2.
  - intros self' Hinit'. rewrite Hinit in Hinit'. by injection Hinit' as <-.
Qed.

End driver.

(** Four parent datasets with two dataset folds each. *)
Definition sample_context : ZeroshotSimulatorContext :=
  {| dataset_name_to_tid_dict :=
       list_to_map [("a_0", 1%Z); ("a_1", 1%Z); ("b_0", 2%Z); ("b_1", 2%Z);
                    ("c_0", 3%Z); ("c_1", 3%Z); ("d_0", 4%Z); ("d_1", 4%Z)]%string;
     get_configs := ["A"; "B"]%string |}.

Definition sample_scorer : ConfigurationListScorer :=
  {| datasets := ["b_1"; "a_0"; "a_1"; "b_0"; "d_0"; "c_0"; "c_1"; "d_1"]%string;
     score_on := λ ds l, inject_Z (Z.of_nat (length ds + length l)) |}.

(** A stand-in for the seeded shuffle: the positions backwards. *)
Definition reverse_shuffle (n : nat) : list nat := reverse (seq 0 n).

Lemma reverse_shuffle_perm n : reverse_shuffle n ≡ₚ seq 0 n.
Proof. apply reverse_Permutation. Qed.

Lemma cv_folds_partition_witness :
  ∃ self,
    __init__ Z.le 2 sample_context sample_scorer None "sequential" = Some self
    ∧ NoDup (unique_datasets self)
    ∧ (is_Some (run reverse_shuffle self)
       ↔ (2 ≤ Z.of_nat (length (unique_datasets self)))%Z).
Proof.
  destruct (__init__ Z.le 2 sample_context sample_scorer None "sequential")
    as [self|] eqn:Hinit; [|by vm_compute in Hinit].
  exists self. split; [reflexivity|].
  pose proof (cv_folds_partition Z.le reverse_shuffle reverse_shuffle_perm
                2 sample_context sample_scorer None "sequential" self Hinit)
    as (_ & HU & _ & Hrun & _).
  split; [exact HU | exact Hrun].
Defined.

Lemma init_parent_to_fold_map_witness :
  ∃ self,
    __init__ Z.le 2 sample_context sample_scorer None "sequential" = Some self
    ∧ ∀ x, is_Some (dataset_parent_to_fold_map self !! x) ↔ x ∈ unique_datasets self.
Proof.
  destruct (__init__ Z.le 2 sample_context sample_scorer None "sequential")
    as [self|] eqn:Hinit; [|by vm_compute in Hinit].
  exists self. split; [reflexivity|].
  exact (proj2 (init_parent_to_fold_map Z.le 2 sample_context sample_scorer None
                  "sequential" self Hinit)).
Defined.

Lemma init_unique_datasets_sorted_witness :
  ∃ self,
    __init__ Z.le 2 sample_context sample_scorer None "sequential" = Some self
    ∧ Sorted Z.le (unique_datasets self).
Proof.
  destruct (__init__ Z.le 2 sample_context sample_scorer None "sequential")
    as [self|] eqn:Hinit; [|by vm_compute in Hinit].
  exists self. split; [reflexivity|].
  exact (init_unique_datasets_sorted Z.le 2 sample_context sample_scorer None
           "sequential" self Hinit).
Defined.

Lemma sample_run :
  ∃ self folds,
    __init__ Z.le 2 sample_context sample_scorer None "sequential" = Some self
    ∧ run reverse_shuffle self = Some folds.
Proof.
  destruct (__init__ Z.le 2 sample_context sample_scorer None "sequential")
    as [self|] eqn:Hinit; [|by vm_compute in Hinit].
  exists self.
  destruct (init_spec _ _ _ _ _ _ _ Hinit) as (_ & Hsplits & HU & Hparents & Hmap).
  destruct (run_is_Some reverse_shuffle self) as [folds Hrun];
    [by rewrite Hsplits | | done | by exists folds].
  rewrite Hsplits.
  assert ([1; 2]%Z ⊆ unique_datasets self) as Hsub.
  { intros x Hx. apply Hparents.
    apply elem_of_cons in Hx as [-> | Hx];
      [exists "a_0"%string | apply list_elem_of_singleton in Hx as ->; exists "b_0"%string];
      (split; [|reflexivity]); vm_compute; set_solver. }
  assert ([1; 2]%Z ⊆+ unique_datasets self) as Hsub'.
  { apply NoDup_submseteq; [|done]. apply (bool_decide_unpack _). vm_compute. exact I. }
  apply submseteq_length in Hsub'. simpl in Hsub'. lia.
Defined.

Lemma run_fold_lists_witness :
  ∃ self folds,
    __init__ Z.le 2 sample_context sample_scorer None "sequential" = Some self
    ∧ run reverse_shuffle self = Some folds
    ∧ ∀ r, r ∈ folds → ∀ d, d ∈ X_train_fold r → d ∉ X_test_fold r.
Proof.
  destruct sample_run as (self & folds & Hinit & Hrun).
  exists self, folds. split; [exact Hinit|]. split; [exact Hrun|].
  intros r Hr.
  exact (proj1 (proj2 (proj2
           (run_fold_lists Z.le reverse_shuffle 2 sample_context
              sample_scorer None "sequential" self folds Hinit Hrun r Hr)))).
Defined.

Lemma run_records_numbered_witness :
  ∃ (self : ZeroshotConfigGeneratorCV (parent := Z)) folds,
    run reverse_shuffle self = Some folds
    ∧ ∀ i r, folds !! i = Some r → fold r = (i + 1)%nat.
Proof.
  destruct sample_run as (self & folds & _ & Hrun).
  exists self, folds. split; [exact Hrun|].
  intros i r Hi.
  exact (proj1 (run_records_numbered reverse_shuffle self folds Hrun i r Hi)).
Defined.

End CV.

(** * The simulator context

    The methods of [ZeroshotSimulatorContext] that work on plain lists and
    dictionaries.  A dictionary is a finite map; where the order of its items
    decides the result (re-keying), the items are taken as a list in iteration
    order.  Nested dictionaries are taken as values here; [SimHeap] below
    has the dictionaries that are popped from as objects.  Where a
    method raises only [KeyError], [None] stands for the exception;
    [load_zeroshot_pred_proba], which also raises [AssertionError], returns
    a [result].  Printing and the reading of the pickle files are left out. *)
Module SimContext.

(** A [for] loop whose body may raise. *)
Fixpoint foldM_opt {A B} (f : B → A → option B) (l : list A) (b : B) : option B :=
  match l with
  | [] => Some b
  | a :: l' => b' ← f b a; foldM_opt f l' b'
  end.

(** Exceptions raised by [load_zeroshot_pred_proba], and the outcome of a
    computation that may raise one. *)
Inductive exn := KeyError | AssertionError.

Inductive result (A : Type) := Ok (a : A) | Raise (e : exn).
Arguments Ok {A} a.
Arguments Raise {A} e.

#[global] Instance result_bind : MBind result := λ A B f r,
  match r with Ok a => f a | Raise e => Raise e end.

(** A subscript [d[k]] that raises [KeyError] when the key is missing. *)
Definition key_error {A} (o : option A) : result A :=
  match o with Some a => Ok a | None => Raise KeyError end.

(** A [for] loop whose body returns nothing and may raise. *)
Fixpoint for_each {A} (body : A → result unit) (l : list A) : result unit :=
  match l with
  | [] => Ok ()
  | a :: l' => _ ← body a; for_each body l'
  end.

Lemma for_each_Ok {A} (body : A → result unit) l :
  for_each body l = Ok () ↔ ∀ a, a ∈ l → body a = Ok ().
Proof.
  induction l as [|a l IH]; simpl.
  - split; [by intros _ a ?%elem_of_nil | done].
  - destruct (body a) as [[]|e] eqn:Ha; simpl.
    + rewrite IH. split.
      * intros Hall a' [-> | ?]%elem_of_cons; [done | by apply Hall].
      * intros Hall a' ?. apply Hall. by right.
    + split; [done|]. intros Hall. specialize (Hall a ltac:(left)). congruence.
Qed.

Lemma for_each_Raise {A} (body : A → result unit) l e :
  for_each body l = Raise e → ∃ a, a ∈ l ∧ body a = Raise e.
Proof.
  induction l as [|a l IH]; simpl; [done|].
  destruct (body a) as [[]|e'] eqn:Ha; simpl.
  - intros (a' & ? & ?)%IH. exists a'. split; [by right | done].
  - intros [= <-]. exists a. split; [by left | done].
Qed.

(** [list(d.keys())] *)
Definition keys `{Countable K} {A} (d : gmap K A) : list K := (map_to_list d).*1.

(** [for k in ks: d[k] = f(d[k])], where [f] stands for the in-place work
    done on the value [d[k]]; [KeyError] when [k] is missing. *)
Definition update_each `{Countable K} {A} (f : A → option A) (ks : list K)
    (d : gmap K A) : option (gmap K A) :=
  foldM_opt (λ d k, a ← d !! k; a' ← f a; Some (<[k := a']> d)) ks d.

Lemma keys_NoDup `{Countable K} {A} (d : gmap K A) : NoDup (keys d).
Proof. apply NoDup_fst_map_to_list. Qed.

Lemma elem_of_keys `{Countable K} {A} (d : gmap K A) k :
  k ∈ keys d ↔ is_Some (d !! k).
Proof.
  unfold keys. rewrite list_elem_of_fmap. split.
  - intros ([k' a] & -> & Ha%elem_of_map_to_list). by exists a.
  - intros [a Ha]. exists (k, a). split; [done|]. by apply elem_of_map_to_list.
Qed.

Lemma update_each_lookup `{Countable K} {A} (f : A → option A) ks (d d' : gmap K A) :
  NoDup ks → update_each f ks d = Some d' →
  ∀ k, d' !! k = if decide (k ∈ ks) then d !! k ≫= f else d !! k.
Proof.
  unfold update_each. revert d. induction ks as [|k0 ks IH]; intros d Hnd.
  - intros [= <-] k. by rewrite decide_False by apply not_elem_of_nil.
  - apply NoDup_cons in Hnd as [Hk0 Hnd]. cbn [foldM_opt].
    destruct (d !! k0) as [a|] eqn:Ha; [|done]. cbn [mbind option_bind].
    destruct (f a) as [a'|] eqn:Hfa; [|done]. cbn [mbind option_bind].
    intros Hfold k. rewrite (IH _ Hnd Hfold k).
    destruct (decide (k = k0)) as [-> | Hne].
    + rewrite decide_False by done. rewrite decide_True by left.
      by rewrite lookup_insert_eq, Ha.
    + rewrite lookup_insert_ne by done.
      destruct (decide (k ∈ ks)) as [Hin | Hnin].
      * by rewrite decide_True by by right.
      * rewrite decide_False; [done|]. by intros [? | ?]%elem_of_cons.
Qed.

Lemma update_each_is_Some `{Countable K} {A} (f : A → option A) ks (d : gmap K A) :
  NoDup ks →
  is_Some (update_each f ks d) ↔ ∀ k, k ∈ ks → is_Some (d !! k ≫= f).
Proof.
  unfold update_each. revert d. induction ks as [|k0 ks IH]; intros d Hnd; simpl.
  - split; [by intros _ k ?%elem_of_nil | done].
  - apply NoDup_cons in Hnd as [Hk0 Hnd].
    destruct (d !! k0) as [a|] eqn:Ha; simpl.
    2:{ split; [by intros [? ?]|]. intros Hall.
        destruct (Hall k0 ltac:(left)) as [? Hx]. by rewrite Ha in Hx. }
    destruct (f a) as [a'|] eqn:Hfa; simpl.
    2:{ split; [by intros [? ?]|]. intros Hall.
        destruct (Hall k0 ltac:(left)) as [? Hx]. rewrite Ha in Hx. simpl in Hx.
        by rewrite Hfa in Hx. }
    rewrite (IH _ Hnd). split.
    + intros Hall k [-> | Hk]%elem_of_cons; [rewrite Ha; simpl; by rewrite Hfa|].
      specialize (Hall k Hk). rewrite lookup_insert_ne in Hall; [done|].
      by intros <-.
    + intros Hall k Hk. rewrite lookup_insert_ne by (by intros <-).
      apply Hall. by right.
Qed.

Lemma update_each_id `{Countable K} {A} (f : A → option A) ks (d : gmap K A) :
  (∀ k, k ∈ ks → ∃ a, d !! k = Some a ∧ f a = Some a) →
  update_each f ks d = Some d.
Proof.
  unfold update_each. induction ks as [|k0 ks IH]; intros Hall; simpl; [done|].
  destruct (Hall k0 ltac:(left)) as (a & Ha & Hfa). rewrite Ha. simpl.
  rewrite Hfa. simpl. rewrite insert_id by done.
  apply IH. intros k Hk. apply Hall. by right.
Qed.

Lemma update_each_keys_spec `{Countable K} {A} (f : A → option A) (d d' : gmap K A) :
  update_each f (keys d) d = Some d' →
  ∀ k, (d !! k = None ∧ d' !! k = None)
       ∨ ∃ a a', d !! k = Some a ∧ f a = Some a' ∧ d' !! k = Some a'.
Proof.
  intros Hrun k.
  pose proof (update_each_lookup f _ _ _ (keys_NoDup d) Hrun k) as Hk.
  destruct (d !! k) as [a|] eqn:Ha.
  - right. rewrite decide_True in Hk by (apply elem_of_keys; by eexists).
    simpl in Hk.
    destruct (proj1 (update_each_is_Some f _ d (keys_NoDup d)) (mk_is_Some _ _ Hrun) k)
      as [a' Ha']; [apply elem_of_keys; by eexists|].
    rewrite Ha in Ha'. simpl in Ha'. exists a, a'. by rewrite Hk.
  - left. split; [done|]. rewrite decide_False in Hk; [done|].
    intros [? Hx]%elem_of_keys. by rewrite Ha in Hx.
Qed.

Lemma update_each_keys_idem `{Countable K} {A} (f : A → option A) (d d' : gmap K A) :
  (∀ a a', f a = Some a' → f a' = Some a') →
  update_each f (keys d) d = Some d' →
  update_each f (keys d') d' = Some d'.
Proof.
  intros Hidem Hrun. apply update_each_id. intros k [a' Ha']%elem_of_keys.
  exists a'. split; [done|].
  destruct (update_each_keys_spec f d d' Hrun k)
    as [[_ Hn] | (a & a'' & _ & Hfa & Hd')]; [by rewrite Ha' in Hn|].
  rewrite Ha' in Hd'. injection Hd' as <-. by eapply Hidem.
Qed.

Lemma foldM_opt_id {A B} (f : B → A → option B) l b :
  (∀ a, a ∈ l → f b a = Some b) → foldM_opt f l b = Some b.
Proof.
  induction l as [|a l IH]; intros Hall; simpl; [done|].
  rewrite (Hall a) by left. simpl. apply IH. intros a' Ha'. apply Hall. by right.
Qed.

Section context.

(** Task identifiers, raw dataset keys of the pickled dictionaries, and the
    payloads stored per model, per fold of the predictions and per fold of
    the ground truth. *)
Context {tid : Type} `{Countable tid}.
Context {raw : Type} `{Countable raw}.
Context {V P G : Type}.

Record ZeroshotSimulatorContext := {
  folds : list Z;
  dataset_name_to_tid_dict : gmap string tid;
  dataset_to_tid_dict : gmap raw string;
  unique_dataset_folds : list string;
  unique_datasets : list tid;
  dataset_to_problem_type_dict : gmap string string;
  tid_to_problem_type_dict : gmap tid string;
}.

(** ** [get_datasets] and [get_dataset_folds] *)

(** [[d for d in datasets if type_dict[d] == problem_type]] *)
Fixpoint of_problem_type `{Countable D} (type_dict : gmap D string)
    (problem_type : string) (datasets : list D) : option (list D) :=
  match datasets with
  | [] => Some []
  | dataset :: rest =>
      t ← type_dict !! dataset;
      rest' ← of_problem_type type_dict problem_type rest;
      Some (if decide (t = problem_type) then dataset :: rest' else rest')
  end.

Definition get_datasets (self : ZeroshotSimulatorContext)
    (problem_type : option string) : option (list tid) :=
  let datasets := unique_datasets self in
  match problem_type with
  | Some problem_type =>
      of_problem_type (tid_to_problem_type_dict self) problem_type datasets
  | None => Some datasets
  end.

Definition get_dataset_folds (self : ZeroshotSimulatorContext)
    (problem_type : option string) : option (list string) :=
  let datasets := unique_dataset_folds self in
  match problem_type with
  | Some problem_type =>
      of_problem_type (dataset_to_problem_type_dict self) problem_type datasets
  | None => Some datasets
  end.

(** ** [load_zeroshot_pred_proba] *)

(** [self.dataset_name_to_tid_dict[self.dataset_to_tid_dict[k]]] *)
Definition tid_of (self : ZeroshotSimulatorContext) (k : raw) : option tid :=
  name ← dataset_to_tid_dict self !! k;
  dataset_name_to_tid_dict self !! name.

(** The two dictionary comprehensions applied to a loaded dictionary, given
    by its items in iteration order:
    [{k: v for k, v in d.items() if k in self.dataset_to_tid_dict}], then
    [{self.dataset_name_to_tid_dict[self.dataset_to_tid_dict[k]]: v
      for k, v in d.items()}]. *)
Definition rekey {X} (self : ZeroshotSimulatorContext) (items : list (raw * X))
    : option (gmap tid X) :=
  let items := filter (λ kv, is_Some (dataset_to_tid_dict self !! kv.1)) items in
  foldM_opt (λ d kv, t ← tid_of self kv.1; Some (<[t := kv.2]> d)) items ∅.

(** Body of [for f in folds_in_zs] of the last loop, on the pair
    [(zeroshot_pred_proba, zeroshot_gt)]. *)
Definition pop_fold (self : ZeroshotSimulatorContext) (d : tid)
    (st : gmap tid (gmap Z P) * gmap tid (gmap Z G)) (f : Z)
    : option (gmap tid (gmap Z P) * gmap tid (gmap Z G)) :=
  if decide (f ∉ folds self) then
    task ← st.1 !! d;
    _ ← task !! f;
    let zeroshot_pred_proba := <[d := delete f task]> st.1 in
    gt ← st.2 !! d;
    _ ← gt !! f;
    Some (zeroshot_pred_proba, <[d := delete f gt]> st.2)
  else Some st.

(** Body of [for d in task_names] of the last loop. *)
Definition pop_task (self : ZeroshotSimulatorContext)
    (st : gmap tid (gmap Z P) * gmap tid (gmap Z G)) (d : tid)
    : option (gmap tid (gmap Z P) * gmap tid (gmap Z G)) :=
  if decide (d ∉ unique_datasets self) then
    _ ← st.1 !! d;
    let zeroshot_pred_proba := delete d st.1 in
    _ ← st.2 !! d;
    Some (zeroshot_pred_proba, delete d st.2)
  else
    task ← st.1 !! d;
    let folds_in_zs := keys task in
    foldM_opt (pop_fold self d) folds_in_zs st.

(** The check that every expected dataset and fold was loaded. *)
Definition check_expected (self : ZeroshotSimulatorContext)
    (zeroshot_pred_proba : gmap tid (gmap Z P)) (task_names_set : gset tid)
    : result unit :=
  for_each (λ d,
    if decide (d ∉ task_names_set) then Raise AssertionError
    else
      task ← key_error (zeroshot_pred_proba !! d);
      let folds_in_zs := keys task in
      for_each (λ f, if decide (f ∉ folds_in_zs) then Raise AssertionError
                     else Ok ())
               (folds self))
    (unique_datasets self).

(** The function after its two [load_pkl.load] calls: [loaded_pred_proba]
    and [loaded_gt] are the items of the two loaded dictionaries, in
    iteration order. *)
Definition load_zeroshot_pred_proba (self : ZeroshotSimulatorContext)
    (loaded_pred_proba : list (raw * gmap Z P))
    (loaded_gt : list (raw * gmap Z G))
    : result (gmap tid (gmap Z P) * gmap tid (gmap Z G)) :=
  zeroshot_gt ← key_error (rekey self loaded_gt);
  zeroshot_pred_proba ← key_error (rekey self loaded_pred_proba);
  let task_names := keys zeroshot_pred_proba in
  let task_names_set : gset tid := list_to_set task_names in
  _ ← check_expected self zeroshot_pred_proba task_names_set;
  key_error (foldM_opt (pop_task self) task_names
                       (zeroshot_pred_proba, zeroshot_gt)).

(** What a two-level dictionary holds for dataset [d] and fold [f]. *)
Definition fold_at {X} (m : gmap tid (gmap Z X)) (d : tid) (f : Z) : option X :=
  task ← m !! d; task !! f.

(** ** [minimize_memory_zeroshot_pred_proba] *)

(** The dictionary stored per task and fold: it is read at the keys
    ['pred_proba_dict_val'] and ['pred_proba_dict_test'], each holding a
    dictionary from model keys to payloads. *)
Abbreviation fold_entry := (gmap string (gmap string V)).

(** Body of [for k in model_keys]. *)
Definition pop_model (configs : gset string) (entry : fold_entry) (k : string)
    : option fold_entry :=
  if decide (k ∉ configs) then
    val ← entry !! "pred_proba_dict_val";
    _ ← val !! k;
    let entry := <["pred_proba_dict_val" := delete k val]> entry in
    test ← entry !! "pred_proba_dict_test";
    _ ← test !! k;
    Some (<["pred_proba_dict_test" := delete k test]> entry)
  else Some entry.

(** Body of [for f in available_folds], on the value
    [zeroshot_pred_proba[t][f]]. *)
Definition minimize_entry (configs : gset string) (entry : fold_entry)
    : option fold_entry :=
  val ← entry !! "pred_proba_dict_val";
  let model_keys := keys val in
  foldM_opt (pop_model configs) model_keys entry.

(** Body of [for t in task_names], on the value [zeroshot_pred_proba[t]]. *)
Definition minimize_task (configs : gset string) (task : gmap Z fold_entry)
    : option (gmap Z fold_entry) :=
  let available_folds := keys task in
  update_each (minimize_entry configs) available_folds task.

Definition minimize_memory_zeroshot_pred_proba
    (zeroshot_pred_proba : gmap tid (gmap Z fold_entry)) (configs : list string)
    : option (gmap tid (gmap Z fold_entry)) :=
  let task_names := keys zeroshot_pred_proba in
  let configs : gset string := list_to_set configs in
  update_each (minimize_task configs) task_names zeroshot_pred_proba.

(** *** What one entry becomes *)

Lemma pop_model_Some (configs : gset string) (entry entry1 : fold_entry) k :
  pop_model configs entry k = Some entry1 ↔
  (k ∈ configs ∧ entry1 = entry)
  ∨ ((k ∉ configs)
     ∧ ∃ val test,
         entry !! "pred_proba_dict_val" = Some val ∧ is_Some (val !! k)
         ∧ entry !! "pred_proba_dict_test" = Some test ∧ is_Some (test !! k)
         ∧ entry1 = <["pred_proba_dict_test" := delete k test]>
                      (<["pred_proba_dict_val" := delete k val]> entry)).
Proof.
  unfold pop_model. case_decide as Hc.
  - destruct (entry !! "pred_proba_dict_val") as [val|] eqn:Hval; simpl.
    2:{ split; [done|]. intros [[? _] | (_ & ? & ? & ? & _)]; done. }
    destruct (val !! k) as [v|] eqn:Hv; simpl.
    2:{ split; [done|]. intros [[? _] | (_ & ? & ? & [= <-] & [? Hx] & _)]; [done|].
        by rewrite Hv in Hx. }
    rewrite lookup_insert_ne by done.
    destruct (entry !! "pred_proba_dict_test") as [test|] eqn:Htest; simpl.
    2:{ split; [done|]. intros [[? _] | (_ & ? & ? & _ & _ & ? & _)]; done. }
    destruct (test !! k) as [v'|] eqn:Hv'; simpl.
    2:{ split; [done|].
        intros [[? _] | (_ & ? & ? & _ & _ & [= <-] & [? Hx] & _)]; [done|].
        by rewrite Hv' in Hx. }
    split.
    + intros [= <-]. right. split; [done|]. exists val, test.
      split; [done|]. split; [by eexists|]. split; [done|]. split; [by eexists|done].
    + intros [[? _] | (_ & ? & ? & [= <-] & _ & [= <-] & _ & ->)]; done.
  - split.
    + intros [= <-]. by left.
    + intros [[_ ->] | [? _]]; done.
Qed.

Lemma pop_fold_spec (configs : gset string) ks (entry entry' : fold_entry) val :
  NoDup ks →
  entry !! "pred_proba_dict_val" = Some val →
  foldM_opt (pop_model configs) ks entry = Some entry' →
  (∃ val', entry' !! "pred_proba_dict_val" = Some val'
     ∧ ∀ k, val' !! k = if decide (k ∈ ks ∧ k ∉ configs) then None else val !! k)
  ∧ (∀ k, entry' !! "pred_proba_dict_test" ≫= (.!! k)
          = if decide (k ∈ ks ∧ k ∉ configs) then None
            else entry !! "pred_proba_dict_test" ≫= (.!! k))
  ∧ (is_Some (entry' !! "pred_proba_dict_test")
     ↔ is_Some (entry !! "pred_proba_dict_test"))
  ∧ (∀ s, s ≠ "pred_proba_dict_val" → s ≠ "pred_proba_dict_test" →
          entry' !! s = entry !! s).
Proof.
  revert entry val. induction ks as [|k0 ks IH]; intros entry val Hnd Hval.
  - intros [= <-]. split; [|split; [|done]].
    + exists val. split; [done|]. intros k. rewrite decide_False; [done|].
      by intros [?%elem_of_nil _].
    + intros k. rewrite decide_False; [done|]. by intros [?%elem_of_nil _].
  - apply NoDup_cons in Hnd as [Hk0 Hnd]. cbn [foldM_opt].
    destruct (pop_model configs entry k0) as [entry1|] eqn:Hpop; [|done].
    cbn [mbind option_bind]. intros Hfold.
    apply pop_model_Some in Hpop
      as [[Hc ->] | (Hc & val0 & test & Hval0 & _ & Htest & _ & ->)].
    + apply (IH _ val) in Hfold
        as ((val' & Hval' & Hlook) & Htest' & Hsome & Hother); [|done|done].
      assert (∀ k, k ∈ k0 :: ks ∧ k ∉ configs ↔ k ∈ ks ∧ k ∉ configs) as Hiff.
      { intros k. split; [|intros [? ?]; split; [by right | done]].
        intros [[-> | ?]%elem_of_cons ?]; [done | by split]. }
      split; [|split; [|done]].
      * exists val'. split; [done|]. intros k. rewrite Hlook.
        by rewrite (decide_ext _ _ _ _ (Hiff k)).
      * intros k. rewrite Htest'. by rewrite (decide_ext _ _ _ _ (Hiff k)).
    + rewrite Hval in Hval0. injection Hval0 as <-.
      apply (IH _ (delete k0 val)) in Hfold
        as ((val' & Hval' & Hlook) & Htest' & Hsome & Hother); [|done|].
      2:{ rewrite lookup_insert_ne by done. apply lookup_insert_eq. }
      assert (∀ (X : Type) (m : gmap string X) k,
                (if decide (k ∈ ks ∧ k ∉ configs) then None else delete k0 m !! k)
                = if decide (k ∈ k0 :: ks ∧ k ∉ configs) then None else m !! k) as Hdel.
      { intros X m k. destruct (decide (k = k0)) as [-> | Hne].
        - rewrite (decide_False (P := k0 ∈ ks ∧ _)) by (by intros [? _]).
          rewrite decide_True by (split; [left | done]). apply lookup_delete_eq.
        - rewrite lookup_delete_ne by done.
          destruct (decide (k ∈ ks ∧ k ∉ configs)) as [[Hin Hnc] | Hn].
          + by rewrite decide_True by (split; [by right | done]).
          + rewrite decide_False; [done|].
            intros [[? | ?]%elem_of_cons ?]; [done | by apply Hn]. }
      split; [|split; [|split]].
      * exists val'. split; [done|]. intros k. by rewrite Hlook, Hdel.
      * intros k. rewrite Htest', lookup_insert_eq, Htest. cbn [mbind option_bind].
        apply Hdel.
      * rewrite Hsome, lookup_insert_eq, Htest. split; by eexists.
      * intros s Hs1 Hs2. rewrite (Hother s Hs1 Hs2).
        by rewrite !lookup_insert_ne by done.
Qed.

Lemma minimize_entry_spec (configs : gset string) (entry entry' : fold_entry) :
  minimize_entry configs entry = Some entry' →
  ∃ val val',
    entry !! "pred_proba_dict_val" = Some val
    ∧ entry' !! "pred_proba_dict_val" = Some val'
    ∧ (∀ k, val' !! k = if decide (k ∈ configs) then val !! k else None)
    ∧ (∀ k, entry' !! "pred_proba_dict_test" ≫= (.!! k)
            = if decide (k ∈ configs ∨ val !! k = None)
              then entry !! "pred_proba_dict_test" ≫= (.!! k) else None)
    ∧ (is_Some (entry' !! "pred_proba_dict_test")
       ↔ is_Some (entry !! "pred_proba_dict_test"))
    ∧ (∀ s, s ≠ "pred_proba_dict_val" → s ≠ "pred_proba_dict_test" →
            entry' !! s = entry !! s).
Proof.
  unfold minimize_entry.
  destruct (entry !! "pred_proba_dict_val") as [val|] eqn:Hval; [|done]. simpl.
  intros Hfold.
  destruct (pop_fold_spec configs _ _ _ val (keys_NoDup val) Hval Hfold)
    as ((val' & Hval' & Hlook) & Htest & Hsome & Hother).
  exists val, val'. split; [done|]. split; [done|].
  assert (∀ k, k ∈ keys val ∧ k ∉ configs ↔ ¬ (k ∈ configs ∨ val !! k = None)) as Hiff.
  { intros k. rewrite elem_of_keys. split.
    - intros [[v Hv] Hc] [? | Hn]; [done|]. by rewrite Hv in Hn.
    - intros Hn. split; [|intros ?; apply Hn; by left].
      destruct (val !! k) as [v|] eqn:Hv; [by eexists|]. destruct Hn. by right. }
  split; [|split; [|done]].
  - intros k. rewrite Hlook.
    destruct (decide (k ∈ configs)) as [Hc | Hc].
    + rewrite decide_False; [done|]. by intros [_ ?].
    + destruct (val !! k) as [v|] eqn:Hv.
      * rewrite decide_True; [done|]. split; [|done]. apply elem_of_keys.
        by eexists.
      * by destruct (decide _).
  - intros k. rewrite Htest.
    destruct (decide (k ∈ configs ∨ val !! k = None)) as [Hy | Hn].
    + rewrite decide_False; [done|]. intros Hx. by apply Hiff in Hx.
    + rewrite decide_True; [done|]. by apply Hiff.
Qed.

Lemma minimize_entry_idem (configs : gset string) (entry entry' : fold_entry) :
  minimize_entry configs entry = Some entry' →
  minimize_entry configs entry' = Some entry'.
Proof.
  intros (val & val' & _ & Hval' & Hlook & _)%minimize_entry_spec.
  unfold minimize_entry. rewrite Hval'. simpl. apply foldM_opt_id.
  intros k [v Hv]%elem_of_keys. apply pop_model_Some. left. split; [|done].
  rewrite Hlook in Hv. by destruct (decide (k ∈ configs)).
Qed.

(** X18: [minimize_memory_zeroshot_pred_proba] is idempotent: applied with
    the same [configs] to a dictionary it has returned, it returns that
    dictionary unchanged. *)
Theorem minimize_memory_idempotent
    (zpp zpp' : gmap tid (gmap Z fold_entry)) (configs : list string) :
  minimize_memory_zeroshot_pred_proba zpp configs = Some zpp' →
  minimize_memory_zeroshot_pred_proba zpp' configs = Some zpp'.
Proof.
  unfold minimize_memory_zeroshot_pred_proba.
  apply update_each_keys_idem. intros task task'. unfold minimize_task.
  apply update_each_keys_idem. intros entry entry'. apply minimize_entry_idem.
Qed.

(** ** Properties of [get_datasets] and [get_dataset_folds] *)

Lemma of_problem_type_spec `{Countable D} (type_dict : gmap D string)
    (problem_type : string) (datasets res : list D) :
  of_problem_type type_dict problem_type datasets = Some res
  ↔ (∀ d, d ∈ datasets → is_Some (type_dict !! d))
    ∧ res = filter (λ d, type_dict !! d = Some problem_type) datasets.
Proof.
  revert res. induction datasets as [|d ds IH]; intros res.
  - simpl. split.
    + intros [= <-]. split; [by intros ? ?%elem_of_nil | done].
    + by intros [_ ->].
  - rewrite filter_cons. cbn [of_problem_type].
    destruct (type_dict !! d) as [t|] eqn:Hd; cbn [mbind option_bind].
    2:{ split; [done|]. intros [Hall _]. destruct (Hall d ltac:(left)) as [? Hx].
        by rewrite Hd in Hx. }
    destruct (of_problem_type type_dict problem_type ds) as [rest|] eqn:Hrest;
      cbn [mbind option_bind].
    2:{ split; [done|]. intros [Hall _].
        assert (None = Some (filter (λ d, type_dict !! d = Some problem_type) ds))
          as Hx; [|done].
        apply IH. split; [|done]. intros d' ?. apply Hall. by right. }
    destruct (proj1 (IH rest) eq_refl) as [Hall ->].
    assert ((if decide (t = problem_type)
             then d :: filter (λ d, type_dict !! d = Some problem_type) ds
             else filter (λ d, type_dict !! d = Some problem_type) ds)
            = (if decide (Some t = Some problem_type)
               then d :: filter (λ d, type_dict !! d = Some problem_type) ds
               else filter (λ d, type_dict !! d = Some problem_type) ds)) as ->.
    { repeat case_decide; simplify_eq/=; done. }
    split.
    + intros [= <-]. split; [|done].
      intros d' [-> | ?]%elem_of_cons; [by rewrite Hd | by apply Hall].
    + by intros [_ ->].
Qed.

(** X19: [get_datasets] with a problem type returns, in their order in
    [unique_datasets], exactly the datasets that
    [tid_to_problem_type_dict] maps to that type, and it raises (a
    [KeyError]) exactly when some dataset of [unique_datasets] has no entry
    in that dictionary, whatever type is asked for. *)
Theorem get_datasets_filters (self : ZeroshotSimulatorContext)
    (problem_type : string) (res : list tid) :
  get_datasets self (Some problem_type) = Some res
  ↔ (∀ d, d ∈ unique_datasets self →
          is_Some (tid_to_problem_type_dict self !! d))
    ∧ res = filter (λ d, tid_to_problem_type_dict self !! d = Some problem_type)
                   (unique_datasets self).
Proof. apply of_problem_type_spec. Qed.

(** X20: [get_dataset_folds] with a problem type returns, in their order
    in [unique_dataset_folds], exactly the dataset-fold names that
    [dataset_to_problem_type_dict] maps to that type, and it raises (a
    [KeyError]) exactly when some name of [unique_dataset_folds] has no
    entry in that dictionary. *)
Theorem get_dataset_folds_filters (self : ZeroshotSimulatorContext)
    (problem_type : string) (res : list string) :
  get_dataset_folds self (Some problem_type) = Some res
  ↔ (∀ d, d ∈ unique_dataset_folds self →
          is_Some (dataset_to_problem_type_dict self !! d))
    ∧ res = filter (λ d, dataset_to_problem_type_dict self !! d = Some problem_type)
                   (unique_dataset_folds self).
Proof. apply of_problem_type_spec. Qed.

(** ** Properties of [load_zeroshot_pred_proba] *)

Lemma rekey_fold_lookup {X} (self : ZeroshotSimulatorContext)
    (items : list (raw * X)) (acc m : gmap tid X) :
  foldM_opt (λ d kv, t ← tid_of self kv.1; Some (<[t := kv.2]> d)) items acc = Some m →
  ∀ t, m !! t = match last (filter (λ kv, tid_of self kv.1 = Some t) items) with
                | Some kv => Some kv.2
                | None => acc !! t
                end.
Proof.
  revert acc. induction items as [|[k v] items IH]; intros acc.
  - intros [= <-] t. done.
  - cbn [foldM_opt fst snd].
    destruct (tid_of self k) as [t0|] eqn:Hk; [|done]. cbn [mbind option_bind].
    intros Hfold t. rewrite (IH _ Hfold t), filter_cons. cbn [fst].
    rewrite Hk. destruct (decide (Some t0 = Some t)) as [[= ->] | Hne].
    + rewrite last_cons. destruct (last _); [done|]. by rewrite lookup_insert_eq.
    + destruct (last _); [done|]. rewrite lookup_insert_ne; [done | congruence].
Qed.

Lemma rekey_fold_is_Some {X} (self : ZeroshotSimulatorContext)
    (items : list (raw * X)) (acc : gmap tid X) :
  is_Some (foldM_opt (λ d kv, t ← tid_of self kv.1; Some (<[t := kv.2]> d)) items acc)
  ↔ ∀ kv, kv ∈ items → is_Some (tid_of self kv.1).
Proof.
  revert acc. induction items as [|[k v] items IH]; intros acc.
  - simpl. split; [by intros _ ? ?%elem_of_nil | done].
  - cbn [foldM_opt fst snd].
    destruct (tid_of self k) as [t0|] eqn:Hk; cbn [mbind option_bind].
    + rewrite IH. split.
      * intros Hall kv [-> | ?]%elem_of_cons; [simpl; by rewrite Hk | by apply Hall].
      * intros Hall kv ?. apply Hall. by right.
    + split; [by intros [? ?]|]. intros Hall.
      destruct (Hall (k, v) ltac:(left)) as [? Hx]. simpl in Hx. by rewrite Hk in Hx.
Qed.

(** X21: the re-keying of a loaded dictionary drops, without an error, the
    items whose key is not in [dataset_to_tid_dict]; it raises (a
    [KeyError]) exactly when a retained item's dataset name has no entry in
    [dataset_name_to_tid_dict]; and when several retained items map to the
    same task id, the result holds the value of the last of them. *)
Theorem rekey_last_wins {X} (self : ZeroshotSimulatorContext)
    (items : list (raw * X)) :
  (is_Some (rekey self items)
   ↔ ∀ k v name, (k, v) ∈ items → dataset_to_tid_dict self !! k = Some name →
       is_Some (dataset_name_to_tid_dict self !! name))
  ∧ (∀ m, rekey self items = Some m →
       ∀ t, m !! t = snd <$> last (filter (λ kv, tid_of self kv.1 = Some t) items)).
Proof.
  unfold rekey. split.
  - rewrite rekey_fold_is_Some. split.
    + intros Hall k v name Hin Hname.
      specialize (Hall (k, v)). unfold tid_of in Hall. simpl in Hall.
      rewrite Hname in Hall. apply Hall. apply list_elem_of_filter. simpl.
      by rewrite Hname.
    + intros Hall [k v] [[name Hname] Hin]%list_elem_of_filter. simpl in *.
      unfold tid_of. rewrite Hname. simpl. by eapply Hall.
  - intros m Hm t. rewrite (rekey_fold_lookup _ _ _ _ Hm t), lookup_empty.
    rewrite list_filter_filter.
    assert (filter (λ kv : raw * X, tid_of self kv.1 = Some t
                       ∧ is_Some (dataset_to_tid_dict self !! kv.1)) items
            = filter (λ kv, tid_of self kv.1 = Some t) items) as ->.
    { apply list_filter_iff. intros [k v]. simpl. split; [by intros [? _]|].
      intros Ht. split; [done|]. unfold tid_of in Ht.
      destruct (dataset_to_tid_dict self !! k); [by eexists | done]. }
    by destruct (last _).
Qed.

Lemma pop_fold_Some (self : ZeroshotSimulatorContext) (d : tid)
    (st st1 : gmap tid (gmap Z P) * gmap tid (gmap Z G)) (f : Z) :
  pop_fold self d st f = Some st1 ↔
  (f ∈ folds self ∧ st1 = st)
  ∨ ((f ∉ folds self)
     ∧ ∃ task gt,
         st.1 !! d = Some task ∧ is_Some (task !! f)
         ∧ st.2 !! d = Some gt ∧ is_Some (gt !! f)
         ∧ st1 = (<[d := delete f task]> st.1, <[d := delete f gt]> st.2)).
Proof.
  unfold pop_fold. case_decide as Hc.
  - destruct (st.1 !! d) as [task|] eqn:Htask; cbn [mbind option_bind].
    2:{ split; [done|]. intros [[? _] | (_ & ? & ? & ? & _)]; done. }
    destruct (task !! f) as [p|] eqn:Hp; cbn [mbind option_bind].
    2:{ split; [done|]. intros [[? _] | (_ & ? & ? & [= <-] & [? Hx] & _)]; [done|].
        by rewrite Hp in Hx. }
    destruct (st.2 !! d) as [gt|] eqn:Hgt; cbn [mbind option_bind].
    2:{ split; [done|]. intros [[? _] | (_ & ? & ? & _ & _ & ? & _)]; done. }
    destruct (gt !! f) as [g|] eqn:Hg; cbn [mbind option_bind].
    2:{ split; [done|].
        intros [[? _] | (_ & ? & ? & _ & _ & [= <-] & [? Hx] & _)]; [done|].
        by rewrite Hg in Hx. }
    split.
    + intros [= <-]. right. split; [done|]. exists task, gt. eauto 10.
    + intros [[? _] | (_ & ? & ? & [= <-] & _ & [= <-] & _ & ->)]; done.
  - split.
    + intros [= <-]. by left.
    + intros [[_ ->] | [? _]]; done.
Qed.

Lemma pop_folds_spec (self : ZeroshotSimulatorContext) (d : tid) (ks : list Z)
    (st st' : gmap tid (gmap Z P) * gmap tid (gmap Z G)) (task : gmap Z P) :
  st.1 !! d = Some task →
  foldM_opt (pop_fold self d) ks st = Some st' →
  (∃ task', st'.1 !! d = Some task'
     ∧ ∀ f, task' !! f = if decide (f ∈ ks ∧ f ∉ folds self) then None else task !! f)
  ∧ (∀ d', d' ≠ d → st'.1 !! d' = st.1 !! d' ∧ st'.2 !! d' = st.2 !! d')
  ∧ (is_Some (st'.2 !! d) ↔ is_Some (st.2 !! d))
  ∧ (∀ f, fold_at st'.2 d f
          = if decide (f ∈ ks ∧ f ∉ folds self) then None else fold_at st.2 d f).
Proof.
  revert st task. induction ks as [|f0 ks IH]; intros st task Htask.
  - intros [= <-]. split; [|split; [done|split; [done|]]].
    + exists task. split; [done|]. intros f. rewrite decide_False; [done|].
      by intros [?%elem_of_nil _].
    + intros f. rewrite decide_False; [done|]. by intros [?%elem_of_nil _].
  - cbn [foldM_opt].
    destruct (pop_fold self d st f0) as [st1|] eqn:Hstep; [|done].
    cbn [mbind option_bind]. intros Hfold.
    apply pop_fold_Some in Hstep
      as [[Hin ->] | (Hnin & task0 & gt & Ht & Htf & Hg & Hgf & ->)].
    + destruct (IH st task Htask Hfold) as ((task' & Ht' & Hlook) & Hother & Hsome & Hgt).
      assert (∀ f, f ∈ ks ∧ f ∉ folds self ↔ f ∈ f0 :: ks ∧ f ∉ folds self) as Hiff.
      { intros f. rewrite elem_of_cons. split; [intros [? ?]; by auto|].
        intros [[-> | ?] ?]; done. }
      split; [|split; [done|split; [done|]]].
      * exists task'. split; [done|]. intros f. rewrite Hlook. by apply decide_ext.
      * intros f. rewrite Hgt. by apply decide_ext.
    + rewrite Htask in Ht. injection Ht as <-.
      destruct (IH _ (delete f0 task) (lookup_insert_eq _ _ _) Hfold)
        as ((task' & Ht' & Hlook) & Hother & Hsome & Hgt).
      cbn [fst snd] in *.
      assert (∀ f, f ≠ f0 →
        (f ∈ ks ∧ f ∉ folds self ↔ f ∈ f0 :: ks ∧ f ∉ folds self)) as Hiff.
      { intros f Hne. rewrite elem_of_cons. split; [intros [? ?]; by auto|].
        intros [[-> | ?] ?]; done. }
      split; [|split; [|split]].
      * exists task'. split; [done|]. intros f. rewrite Hlook.
        destruct (decide (f = f0)) as [-> | Hne].
        -- rewrite lookup_delete_eq. rewrite (decide_True (P := f0 ∈ f0 :: ks ∧ _)).
           ++ by destruct (decide _).
           ++ split; [by left | done].
        -- rewrite lookup_delete_ne by done. by apply decide_ext, Hiff.
      * intros d' Hne. destruct (Hother d' Hne) as [-> ->].
        by rewrite !lookup_insert_ne.
      * rewrite Hsome, lookup_insert_eq, Hg. split; by eexists.
      * intros f. rewrite Hgt. unfold fold_at. rewrite lookup_insert_eq, Hg.
        cbn [mbind option_bind].
        destruct (decide (f = f0)) as [-> | Hne].
        -- rewrite lookup_delete_eq. rewrite (decide_True (P := f0 ∈ f0 :: ks ∧ _)).
           ++ by destruct (decide _).
           ++ split; [by left | done].
        -- rewrite lookup_delete_ne by done. by apply decide_ext, Hiff.
Qed.


(** How the last loop leaves dataset [d] when its iteration for [d] has run,
    and when it has not. *)
Definition popped_at (self : ZeroshotSimulatorContext)
    (st st' : gmap tid (gmap Z P) * gmap tid (gmap Z G)) (d : tid) : Prop :=
  is_Some (st.1 !! d)
  ∧ (is_Some (st'.1 !! d) ↔ d ∈ unique_datasets self)
  ∧ (∀ f, fold_at st'.1 d f
          = if decide (d ∈ unique_datasets self ∧ f ∈ folds self)
            then fold_at st.1 d f else None)
  ∧ (is_Some (st'.2 !! d) ↔ is_Some (st.2 !! d) ∧ d ∈ unique_datasets self)
  ∧ (∀ f, fold_at st'.2 d f
          = if decide (d ∈ unique_datasets self
                       ∧ (fold_at st.1 d f = None ∨ f ∈ folds self))
            then fold_at st.2 d f else None).

Definition same_at (st st' : gmap tid (gmap Z P) * gmap tid (gmap Z G))
    (d : tid) : Prop :=
  st'.1 !! d = st.1 !! d ∧ st'.2 !! d = st.2 !! d.

Lemma popped_at_same_l self st0 st st' d :
  same_at st0 st d → popped_at self st st' d → popped_at self st0 st' d.
Proof. unfold same_at, popped_at, fold_at. by intros [-> ->]. Qed.

Lemma popped_at_same_r self st st1 st' d :
  popped_at self st st1 d → same_at st1 st' d → popped_at self st st' d.
Proof. unfold same_at, popped_at, fold_at. by intros ? [-> ->]. Qed.

Lemma pop_task_spec (self : ZeroshotSimulatorContext)
    (st st1 : gmap tid (gmap Z P) * gmap tid (gmap Z G)) (d0 : tid) :
  pop_task self st d0 = Some st1 →
  popped_at self st st1 d0 ∧ ∀ d, d ≠ d0 → same_at st st1 d.
Proof.
  unfold pop_task, popped_at, same_at. case_decide as Hd.
  - destruct (st.1 !! d0) as [task|] eqn:Ht; [|done]. cbn [mbind option_bind].
    destruct (st.2 !! d0) as [gt|] eqn:Hg; [|done]. cbn [mbind option_bind].
    intros [= <-]. cbn [fst snd]. unfold fold_at.
    rewrite !lookup_delete_eq. split.
    + split; [by eexists|]. split; [split; [by intros [? ?] | done]|].
      split; [intros f; rewrite decide_False; [done | by intros [? _]]|].
      split; [split; [by intros [? ?] | by intros [_ ?]]|].
      intros f. rewrite decide_False; [done|]. by intros [? _].
    + intros d Hne. by rewrite !lookup_delete_ne.
  - destruct (st.1 !! d0) as [task|] eqn:Ht; [|done]. cbn [mbind option_bind].
    intros Hfold.
    destruct (pop_folds_spec self d0 _ _ _ task Ht Hfold)
      as ((task' & Ht' & Hlook) & Hother & Hsome & Hgt).
    split; [|done].
    split; [by eexists|]. split; [split; [done | by eexists]|].
    split; [|split].
    + intros f. unfold fold_at. rewrite Ht', Ht. cbn [mbind option_bind].
      rewrite Hlook. destruct (decide (f ∈ folds self)) as [Hf | Hf].
      * rewrite decide_False by (by intros [_ ?]). by rewrite decide_True.
      * rewrite (decide_False (P := d0 ∈ _ ∧ _)) by (by intros [_ ?]).
        destruct (decide _) as [? | Hn]; [done|].
        destruct (task !! f) as [p|] eqn:Hp; [|done]. destruct Hn.
        split; [|done]. apply elem_of_keys. by eexists.
    + rewrite Hsome. split; [by intros ? | by intros [? _]].
    + intros f. rewrite Hgt.
      assert (fold_at st.1 d0 f = task !! f) as E by (unfold fold_at; by rewrite Ht).
      destruct (decide (f ∈ keys task ∧ f ∉ folds self)) as [[Hk Hf] | Hn].
      * rewrite decide_False; [done|]. apply elem_of_keys in Hk as [p Hp].
        intros [_ [Hx | Hx]]; [by rewrite E, Hp in Hx | done].
      * rewrite decide_True; [done|]. split; [done|].
        destruct (decide (f ∈ folds self)) as [Hf | Hf]; [by right|]. left.
        rewrite E. destruct (task !! f) as [p|] eqn:Hp; [|done]. destruct Hn.
        split; [|done]. apply elem_of_keys. by eexists.
Qed.


Lemma pop_tasks_spec (self : ZeroshotSimulatorContext) (ks : list tid)
    (st st' : gmap tid (gmap Z P) * gmap tid (gmap Z G)) :
  NoDup ks →
  foldM_opt (pop_task self) ks st = Some st' →
  (∀ d, d ∉ ks → same_at st st' d) ∧ (∀ d, d ∈ ks → popped_at self st st' d).
Proof.
  revert st. induction ks as [|d0 ks IH]; intros st Hnd.
  - intros [= <-]. split; [done | by intros ? ?%elem_of_nil].
  - apply NoDup_cons in Hnd as [Hd0 Hnd]. cbn [foldM_opt].
    destruct (pop_task self st d0) as [st1|] eqn:Hstep; [|done].
    cbn [mbind option_bind]. intros Hfold.
    destruct (IH st1 Hnd Hfold) as [Hsame Hpop].
    apply pop_task_spec in Hstep as [Hpop0 Hsame0]. split.
    + intros d Hd. apply not_elem_of_cons in Hd as [Hne Hd].
      destruct (Hsame0 d Hne) as [E1 E2]. destruct (Hsame d Hd) as [E3 E4].
      split; congruence.
    + intros d [-> | Hd]%elem_of_cons.
      * eapply popped_at_same_r; [done | by apply Hsame].
      * eapply popped_at_same_l; [|by apply Hpop]. apply Hsame0. by intros ->.
Qed.


Lemma check_expected_Ok (self : ZeroshotSimulatorContext)
    (zpp : gmap tid (gmap Z P)) :
  check_expected self zpp (list_to_set (keys zpp)) = Ok ()
  ↔ ∀ d, d ∈ unique_datasets self →
      is_Some (zpp !! d) ∧ ∀ f, f ∈ folds self → is_Some (fold_at zpp d f).
Proof.
  unfold check_expected. rewrite for_each_Ok.
  apply forall_proper. intros d. apply forall_proper. intros Hd.
  unfold fold_at. case_decide as Hk.
  - split; [done|]. intros [Hx%elem_of_keys _]. destruct Hk.
    by apply elem_of_list_to_set.
  - destruct (zpp !! d) as [task|] eqn:Ht; cbn [key_error mbind result_bind option_bind].
    2:{ split; [done | by intros [[? ?] _]]. }
    rewrite for_each_Ok. split.
    + intros Hall. split; [by eexists|]. intros f Hf. specialize (Hall f Hf).
      case_decide as Hin; [done|]. by apply elem_of_keys in Hin.
    + intros [_ Hall] f Hf. rewrite decide_False; [done|].
      intros Hn. apply Hn, elem_of_keys. by apply Hall.
Qed.

Lemma check_expected_result (self : ZeroshotSimulatorContext)
    (zpp : gmap tid (gmap Z P)) :
  check_expected self zpp (list_to_set (keys zpp)) = Ok ()
  ∨ check_expected self zpp (list_to_set (keys zpp)) = Raise AssertionError.
Proof.
  destruct (check_expected self zpp _) as [[]|e] eqn:Hc; [by left | right].
  apply for_each_Raise in Hc as (d & _ & Hd). case_decide as Hk; [done|].
  destruct (zpp !! d) as [task|] eqn:Ht.
  - cbn [key_error mbind result_bind] in Hd.
    apply for_each_Raise in Hd as (f & _ & Hf). by case_decide.
  - apply elem_of_list_to_set, elem_of_keys in Hk. rewrite Ht in Hk.
    by destruct Hk.
Qed.

Lemma load_Ok (self : ZeroshotSimulatorContext)
    (loaded_pred_proba : list (raw * gmap Z P))
    (loaded_gt : list (raw * gmap Z G)) r :
  load_zeroshot_pred_proba self loaded_pred_proba loaded_gt = Ok r
  ↔ ∃ zpp0 gt0,
      rekey self loaded_pred_proba = Some zpp0
      ∧ rekey self loaded_gt = Some gt0
      ∧ check_expected self zpp0 (list_to_set (keys zpp0)) = Ok ()
      ∧ foldM_opt (pop_task self) (keys zpp0) (zpp0, gt0) = Some r.
Proof.
  unfold load_zeroshot_pred_proba.
  destruct (rekey self loaded_gt) as [gt0|]; cbn [key_error mbind result_bind].
  2:{ split; [done | by intros (? & ? & _ & ? & _)]. }
  destruct (rekey self loaded_pred_proba) as [zpp0|]; cbn [key_error mbind result_bind].
  2:{ split; [done | by intros (? & ? & ? & _)]. }
  destruct (check_expected self zpp0 _) as [[]|e] eqn:Hc; cbn [mbind result_bind].
  2:{ split; [done | intros (? & ? & [= <-] & _ & ? & _); congruence]. }
  destruct (foldM_opt (pop_task self) (keys zpp0) (zpp0, gt0)) as [st|] eqn:Hpop;
    cbn [key_error].
  - split.
    + intros [= <-]. by exists zpp0, gt0.
    + intros (? & ? & [= <-] & [= <-] & _ & Hx). rewrite Hpop in Hx. congruence.
  - split; [done|]. intros (? & ? & [= <-] & [= <-] & _ & Hx). by rewrite Hpop in Hx.
Qed.

(** X22: when [load_zeroshot_pred_proba] returns, the returned predictions
    hold exactly the datasets of [unique_datasets], each with exactly the
    folds of [folds], and every such dataset and fold keeps the payload of
    the re-keyed loaded dictionary. *)
Theorem load_returns_expected_folds (self : ZeroshotSimulatorContext)
    (loaded_pred_proba : list (raw * gmap Z P))
    (loaded_gt : list (raw * gmap Z G)) zpp' gt' :
  load_zeroshot_pred_proba self loaded_pred_proba loaded_gt = Ok (zpp', gt') →
  ∃ zpp0,
    rekey self loaded_pred_proba = Some zpp0
    ∧ (∀ d, is_Some (zpp' !! d) ↔ d ∈ unique_datasets self)
    ∧ (∀ d f, is_Some (fold_at zpp' d f)
              ↔ d ∈ unique_datasets self ∧ f ∈ folds self)
    ∧ (∀ d f, d ∈ unique_datasets self → f ∈ folds self →
              fold_at zpp' d f = fold_at zpp0 d f).
Proof.
  intros (zpp0 & gt0 & Hpp & Hgt & Hcheck & Hpop)%load_Ok.
  exists zpp0. split; [done|].
  rewrite check_expected_Ok in Hcheck.
  destruct (pop_tasks_spec self _ _ _ (keys_NoDup zpp0) Hpop) as [Hsame Hpopped].
  assert (∀ d, d ∉ keys zpp0 → zpp' !! d = None ∧ d ∉ unique_datasets self) as Hout.
  { intros d Hd. destruct (Hsame d Hd) as [E _]. cbn [fst] in E.
    assert (zpp0 !! d = None) as Hn.
    { destruct (zpp0 !! d) eqn:Hx; [|done]. destruct Hd. apply elem_of_keys.
      by eexists. }
    split; [by rewrite E|]. intros Hu. destruct (Hcheck d Hu) as [[? Hx] _].
    by rewrite Hn in Hx. }
  split; [|split].
  - intros d. destruct (decide (d ∈ keys zpp0)) as [Hd | Hd].
    + by destruct (Hpopped d Hd) as (_ & ? & _).
    + destruct (Hout d Hd) as [-> ?]. split; [by intros [? ?] | done].
  - intros d f. destruct (decide (d ∈ keys zpp0)) as [Hd | Hd].
    + destruct (Hpopped d Hd) as (_ & _ & Hf & _). rewrite Hf. cbn [fst].
      destruct (decide (d ∈ unique_datasets self ∧ f ∈ folds self)) as [Hc | Hc];
        [|split; [by intros [? ?] | intros ?; by destruct Hc]].
      split; [done|]. intros _. destruct Hc as [Hu Hin].
      by apply (Hcheck d Hu).
    + destruct (Hout d Hd) as [Hn ?]. unfold fold_at. rewrite Hn.
      split; [by intros [? ?] | by intros [? _]].
  - intros d f Hu Hin. destruct (Hcheck d Hu) as [Hd%elem_of_keys _].
    destruct (Hpopped d Hd) as (_ & _ & Hf & _). rewrite Hf.
    by rewrite decide_True.
Qed.



(** X25: [load_zeroshot_pred_proba] raises an [AssertionError] exactly when
    both re-keyings succeed and some dataset of [unique_datasets], or some
    fold of [folds] for such a dataset, is missing from the re-keyed
    predictions; a dataset missing from the ground truth never raises it. *)
Theorem load_assertion_error_iff (self : ZeroshotSimulatorContext)
    (loaded_pred_proba : list (raw * gmap Z P))
    (loaded_gt : list (raw * gmap Z G)) :
  load_zeroshot_pred_proba self loaded_pred_proba loaded_gt = Raise AssertionError
  ↔ ∃ zpp0,
      rekey self loaded_pred_proba = Some zpp0
      ∧ is_Some (rekey self loaded_gt)
      ∧ ¬ (∀ d, d ∈ unique_datasets self →
             is_Some (zpp0 !! d) ∧ ∀ f, f ∈ folds self → is_Some (fold_at zpp0 d f)).
Proof.
  unfold load_zeroshot_pred_proba.
  destruct (rekey self loaded_gt) as [gt0|]; cbn [key_error mbind result_bind].
  2:{ split; [done | by intros (? & _ & [? ?] & _)]. }
  destruct (rekey self loaded_pred_proba) as [zpp0|]; cbn [key_error mbind result_bind].
  2:{ split; [done | by intros (? & ? & _)]. }
  pose proof (check_expected_Ok self zpp0) as Hok.
  destruct (check_expected_result self zpp0) as [Hc | Hc]; rewrite Hc in *;
    cbn [mbind result_bind].
  - split.
    + by destruct (foldM_opt _ _ _).
    + intros (? & [= <-] & _ & Hn). destruct Hn. by apply Hok.
  - split; [|done]. intros _. exists zpp0. split; [done|]. split; [by eexists|].
    intros Hall. by apply Hok in Hall.
Qed.

End context.

(** ** Examples *)

(** One task with one fold and the models [A] and [B]. *)
Definition stored_pred_proba : gmap Z (gmap Z (gmap string (gmap string nat))) :=
  {[ 7%Z := {[ 0%Z :=
       {[ "pred_proba_dict_val"%string := {[ "A"%string := 1%nat; "B"%string := 2%nat ]};
          "pred_proba_dict_test"%string := {[ "A"%string := 3%nat; "B"%string := 4%nat ]} ]} ]} ]}.

Lemma minimize_memory_idempotent_witness :
  ∃ zpp',
    minimize_memory_zeroshot_pred_proba stored_pred_proba ["A"%string] = Some zpp'
    ∧ minimize_memory_zeroshot_pred_proba zpp' ["A"%string] = Some zpp'.
Proof.
  destruct (minimize_memory_zeroshot_pred_proba stored_pred_proba ["A"%string])
    as [zpp'|] eqn:Hrun; [|by vm_compute in Hrun].
  exists zpp'. split; [reflexivity|].
  exact (minimize_memory_idempotent stored_pred_proba zpp' ["A"%string] Hrun).
Defined.

(** A context that expects the task [1] with the folds [0] and [1], and
    loaded dictionaries that also hold a fold [2], a second known dataset
    and an unknown one. *)
Definition loading_context : ZeroshotSimulatorContext (tid := Z) (raw := string) := {|
  folds := [0; 1]%Z;
  dataset_name_to_tid_dict := {[ "adult"%string := 1%Z; "wine"%string := 2%Z ]};
  dataset_to_tid_dict :=
    {[ "raw_adult"%string := "adult"%string; "raw_wine"%string := "wine"%string ]};
  unique_dataset_folds := ["1_0"; "1_1"]%string;
  unique_datasets := [1%Z];
  dataset_to_problem_type_dict :=
    {[ "1_0"%string := "binary"%string; "1_1"%string := "binary"%string ]};
  tid_to_problem_type_dict := {[ 1%Z := "binary"%string ]};
|}.

Definition loaded_pred_proba : list (string * gmap Z nat) :=
  [ ("raw_adult"%string, {[ 0%Z := 10%nat; 1%Z := 11%nat; 2%Z := 12%nat ]});
    ("raw_wine"%string, {[ 0%Z := 20%nat ]});
    ("raw_other"%string, ∅) ].

Definition loaded_gt : list (string * gmap Z bool) :=
  [ ("raw_adult"%string, {[ 0%Z := true; 1%Z := false; 2%Z := true ]});
    ("raw_wine"%string, {[ 0%Z := false ]}) ].

Lemma load_returns_expected_folds_witness :
  ∃ zpp' gt',
    load_zeroshot_pred_proba loading_context loaded_pred_proba loaded_gt
    = Ok (zpp', gt')
    ∧ ∃ zpp0,
        rekey loading_context loaded_pred_proba = Some zpp0
        ∧ (∀ d, is_Some (zpp' !! d) ↔ d ∈ unique_datasets loading_context)
        ∧ (∀ d f, is_Some (fold_at zpp' d f)
                  ↔ d ∈ unique_datasets loading_context ∧ f ∈ folds loading_context)
        ∧ (∀ d f, d ∈ unique_datasets loading_context → f ∈ folds loading_context →
                  fold_at zpp' d f = fold_at zpp0 d f).
Proof.
  destruct (load_zeroshot_pred_proba loading_context loaded_pred_proba loaded_gt)
    as [[zpp' gt']|e] eqn:Hload; [|by vm_compute in Hload].
  exists zpp', gt'. split; [reflexivity|].
  exact (load_returns_expected_folds loading_context loaded_pred_proba loaded_gt
           zpp' gt' Hload).
Defined.


End SimContext.

(** * [minimize_memory_zeroshot_pred_proba] on dictionary objects

    The method pops keys from the dictionaries it finds under
    ['pred_proba_dict_val'] and ['pred_proba_dict_test'], in place.  Here
    these dictionaries are objects in a store, and the outer dictionaries,
    which the method only reads, hold references to them: the same object
    may sit under several tasks, folds or keys.  An outer dictionary is given
    by its items in iteration order.  [None] stands for a raised
    exception. *)
Module SimHeap.

Definition loc := positive.

Section store.
Context {tid V : Type}.

(** The store: the dictionary, from model keys to payloads, at each
    reference. *)
Definition store : Type := loc → gmap string V.

(** The store with the object at [l] replaced by [d]. *)
Definition store_set (l : loc) (d : gmap string V) (σ : store) : store :=
  λ l', if decide (l' = l) then d else σ l'.

Lemma store_set_eq l d σ : store_set l d σ l = d.
Proof. unfold store_set. by rewrite decide_True. Qed.

Lemma store_set_ne l d σ l' : l ≠ l' → store_set l d σ l' = σ l'.
Proof. unfold store_set. intros ?. by rewrite decide_False. Qed.

(** [zeroshot_pred_proba[t][f]]: from keys such as ['pred_proba_dict_val']
    to references. *)
Abbreviation fold_entry := (gmap string loc).

(** The items of [zeroshot_pred_proba], each task with the items of its
    folds. *)
Abbreviation pred_proba := (list (tid * list (Z * fold_entry))).

(** [sys.getsizeof(pickle.dumps(zeroshot_pred_proba, protocol=4))]: the
    size, or [None] when the library call raises.  What can be pickled is
    the library's business and is left open. *)
Variable pickle_dumps : pred_proba → store → option N.

(** Body of [for k in model_keys]. *)
Definition pop_model (configs : gset string) (entry : fold_entry) (σ : store)
    (k : string) : option store :=
  if decide (k ∉ configs) then
    val ← entry !! "pred_proba_dict_val";
    _ ← σ val !! k;
    let σ := store_set val (delete k (σ val)) σ in
    test ← entry !! "pred_proba_dict_test";
    _ ← σ test !! k;
    Some (store_set test (delete k (σ test)) σ)
  else Some σ.

(** Body of [for f in available_folds]. *)
Definition minimize_entry (configs : gset string) (σ : store) (entry : fold_entry)
    : option store :=
  val ← entry !! "pred_proba_dict_val";
  let model_keys := SimContext.keys (σ val) in
  SimContext.foldM_opt (pop_model configs entry) model_keys σ.

(** Body of [for t in task_names]. *)
Definition minimize_task (configs : gset string) (σ : store)
    (task : list (Z * fold_entry)) : option store :=
  SimContext.foldM_opt (λ σ f_entry, minimize_entry configs σ f_entry.2) task σ.

(** The three nested loops. *)
Definition pop_models (zeroshot_pred_proba : pred_proba) (configs : gset string)
    (σ : store) : option store :=
  SimContext.foldM_opt (λ σ t_task, minimize_task configs σ t_task.2)
    zeroshot_pred_proba σ.

(** The method returns its argument; what it leaves behind is the store. *)
Definition minimize_memory_zeroshot_pred_proba (zeroshot_pred_proba : pred_proba)
    (configs : list string) (σ : store) : option store :=
  _ ← pickle_dumps zeroshot_pred_proba σ;
  let configs : gset string := list_to_set configs in
  σ ← pop_models zeroshot_pred_proba configs σ;
  _ ← pickle_dumps zeroshot_pred_proba σ;
  Some σ.

(** ** Which objects an entry refers to *)

Definition refs_entry (entry : fold_entry) : list loc :=
  option_list (entry !! "pred_proba_dict_val")
  ++ option_list (entry !! "pred_proba_dict_test").

(** The entries of all tasks and folds, in the order of the loops. *)
Definition entries (zeroshot_pred_proba : pred_proba) : list fold_entry :=
  t_task ← zeroshot_pred_proba; t_task.2.*2.

(** The references under ['pred_proba_dict_val'] and
    ['pred_proba_dict_test'] of all tasks and folds; without a repetition
    when no dictionary object is shared. *)
Definition refs (zeroshot_pred_proba : pred_proba) : list loc :=
  entries zeroshot_pred_proba ≫= refs_entry.

Lemma refs_entry_val entry val :
  entry !! "pred_proba_dict_val" = Some val → val ∈ refs_entry entry.
Proof. unfold refs_entry. intros ->. set_solver. Qed.

Lemma refs_entry_test entry test :
  entry !! "pred_proba_dict_test" = Some test → test ∈ refs_entry entry.
Proof. unfold refs_entry. intros ->. set_solver. Qed.

Lemma refs_entry_NoDup entry val test :
  NoDup (refs_entry entry) →
  entry !! "pred_proba_dict_val" = Some val →
  entry !! "pred_proba_dict_test" = Some test → test ≠ val.
Proof.
  unfold refs_entry. intros Hnd Hv Ht. rewrite Hv, Ht in Hnd. simpl in Hnd.
  apply NoDup_cons in Hnd as [Hnin _]. set_solver.
Qed.

Lemma elem_of_entries zpp entry :
  entry ∈ entries zpp ↔ ∃ t task f, (t, task) ∈ zpp ∧ (f, entry) ∈ task.
Proof.
  unfold entries. rewrite list_elem_of_bind. split.
  - intros ([t task] & ([f e] & -> & Hf)%list_elem_of_fmap & Ht). by exists t, task, f.
  - intros (t & task & f & Ht & Hf). exists (t, task). split; [|done].
    apply list_elem_of_fmap. by exists (f, entry).
Qed.

(** ** One entry *)

Lemma store_pop_model_Some configs entry σ σ1 k :
  pop_model configs entry σ k = Some σ1 ↔
  (k ∈ configs ∧ σ1 = σ)
  ∨ ((k ∉ configs)
     ∧ ∃ val test,
         entry !! "pred_proba_dict_val" = Some val ∧ is_Some (σ val !! k)
         ∧ entry !! "pred_proba_dict_test" = Some test
         ∧ is_Some ((store_set val (delete k (σ val)) σ) test !! k)
         ∧ σ1 = store_set test (delete k ((store_set val (delete k (σ val)) σ) test))
                  (store_set val (delete k (σ val)) σ)).
Proof.
  unfold pop_model. case_decide as Hc.
  - destruct (entry !! "pred_proba_dict_val") as [val|] eqn:Hval; cbn [mbind option_bind].
    2:{ split; [done|]. intros [[? _] | (_ & ? & ? & ? & _)]; done. }
    destruct (σ val !! k) as [v|] eqn:Hv; cbn [mbind option_bind].
    2:{ split; [done|]. intros [[? _] | (_ & ? & ? & [= <-] & [? Hx] & _)]; [done|].
        by rewrite Hv in Hx. }
    destruct (entry !! "pred_proba_dict_test") as [test|] eqn:Htest;
      cbn [mbind option_bind].
    2:{ split; [done|]. intros [[? _] | (_ & ? & ? & _ & _ & ? & _)]; done. }
    destruct ((store_set val (delete k (σ val)) σ) test !! k) as [v'|] eqn:Hv';
      cbn [mbind option_bind].
    2:{ split; [done|].
        intros [[? _] | (_ & ? & ? & [= <-] & _ & [= <-] & [? Hx] & _)]; [done|].
        by rewrite Hv' in Hx. }
    split.
    + intros [= <-]. right. split; [done|]. exists val, test.
      rewrite Hv'. eauto 10.
    + intros [[? _] | (_ & ? & ? & [= <-] & _ & [= <-] & _ & ->)]; done.
  - split.
    + intros [= <-]. by left.
    + intros [[_ ->] | [? _]]; done.
Qed.

Lemma store_pop_fold_spec configs entry ks σ σ' val :
  entry !! "pred_proba_dict_val" = Some val →
  (∀ test, entry !! "pred_proba_dict_test" = Some test → test ≠ val) →
  SimContext.foldM_opt (pop_model configs entry) ks σ = Some σ' →
  (∀ k, σ' val !! k = if decide (k ∈ ks ∧ k ∉ configs) then None else σ val !! k)
  ∧ (∀ test, entry !! "pred_proba_dict_test" = Some test →
       ∀ k, σ' test !! k
            = if decide (k ∈ ks ∧ k ∉ configs) then None else σ test !! k)
  ∧ (∀ l, l ∉ refs_entry entry → σ' l = σ l).
Proof.
  intros Hval Hne. revert σ. induction ks as [|k0 ks IH]; intros σ.
  - intros [= <-]. split; [|split; [|done]].
    + intros k. rewrite decide_False; [done|]. by intros [?%elem_of_nil _].
    + intros test _ k. rewrite decide_False; [done|]. by intros [?%elem_of_nil _].
  - cbn [SimContext.foldM_opt].
    destruct (pop_model configs entry σ k0) as [σ1|] eqn:Hpop; [|done].
    cbn [mbind option_bind]. intros Hfold.
    destruct (IH _ Hfold) as (Hv & Ht & Hother).
    apply store_pop_model_Some in Hpop
      as [[Hc ->] | (Hc & val0 & test & Hval0 & _ & Htest & _ & ->)].
    + assert (∀ k, k ∈ ks ∧ k ∉ configs ↔ k ∈ k0 :: ks ∧ k ∉ configs) as Hiff.
      { intros k. split; [intros [? ?]; split; [by right | done]|].
        intros [[-> | ?]%elem_of_cons ?]; [done | by split]. }
      split; [|split; [|done]].
      * intros k. rewrite Hv. by apply decide_ext.
      * intros test Htest k. rewrite (Ht test Htest). by apply decide_ext.
    + rewrite Hval in Hval0. injection Hval0 as <-.
      pose proof (Hne test Htest) as Hlt.
      assert (∀ (m : gmap string V) k,
                (if decide (k ∈ ks ∧ k ∉ configs) then None else delete k0 m !! k)
                = if decide (k ∈ k0 :: ks ∧ k ∉ configs) then None else m !! k) as Hdel.
      { intros m k. destruct (decide (k = k0)) as [-> | Hk].
        - rewrite (decide_True (P := k0 ∈ k0 :: ks ∧ _)) by (split; [left | done]).
          rewrite lookup_delete_eq. by destruct (decide _).
        - rewrite lookup_delete_ne by done. apply decide_ext.
          split; [intros [? ?]; split; [by right | done]|].
          intros [[-> | ?]%elem_of_cons ?]; [done | by split]. }
      split; [|split].
      * intros k. rewrite Hv.
        rewrite store_set_ne by done. rewrite store_set_eq. apply Hdel.
      * intros test' Htest' k. rewrite Htest in Htest'. injection Htest' as <-.
        rewrite (Ht test Htest). rewrite store_set_eq.
        rewrite store_set_ne by done. apply Hdel.
      * intros l Hl. rewrite (Hother l Hl).
        rewrite !store_set_ne; [done| |].
        -- intros ->. apply Hl. by apply refs_entry_val.
        -- intros ->. apply Hl. by apply refs_entry_test.
Qed.

Lemma store_pop_fold_is_Some configs entry ks σ val :
  NoDup ks →
  entry !! "pred_proba_dict_val" = Some val →
  (∀ test, entry !! "pred_proba_dict_test" = Some test → test ≠ val) →
  is_Some (SimContext.foldM_opt (pop_model configs entry) ks σ)
  ↔ ∀ k, k ∈ ks → k ∉ configs →
      is_Some (σ val !! k)
      ∧ ∃ test, entry !! "pred_proba_dict_test" = Some test ∧ is_Some (σ test !! k).
Proof.
  intros Hnd Hval Hne. revert σ. induction ks as [|k0 ks IH]; intros σ.
  - split; [by intros _ k ?%elem_of_nil | by eexists].
  - apply NoDup_cons in Hnd as [Hk0 Hnd]. cbn [SimContext.foldM_opt].
    destruct (pop_model configs entry σ k0) as [σ1|] eqn:Hpop; cbn [mbind option_bind].
    + rewrite (IH Hnd).
      apply store_pop_model_Some in Hpop
        as [[Hc ->] | (Hc & val0 & test & Hval0 & Hv & Htest & Hv' & ->)].
      * split.
        -- intros Hall k [-> | Hk]%elem_of_cons Hkc; [done | by apply Hall].
        -- intros Hall k Hk Hkc. apply Hall; [by right | done].
      * rewrite Hval in Hval0. injection Hval0 as <-.
        pose proof (Hne test Htest) as Hlt.
        rewrite store_set_ne in Hv' by done.
        rewrite store_set_ne by done. rewrite store_set_eq.
        split.
        -- intros Hall k [-> | Hk]%elem_of_cons Hkc.
           ++ split; [done|]. by exists test.
           ++ destruct (Hall k Hk Hkc) as [Hvk (t & Ht & Htk)].
              rewrite Htest in Ht. injection Ht as <-.
              rewrite store_set_eq in Htk.
              rewrite store_set_ne in Htk by done.
              assert (k ≠ k0) by (by intros ->).
              rewrite lookup_delete_ne in Hvk, Htk by done.
              split; [done|]. by exists test.
        -- intros Hall k Hk Hkc.
           destruct (Hall k ltac:(by right) Hkc) as [Hvk (t & Ht & Htk)].
           rewrite Htest in Ht. injection Ht as <-.
           assert (k ≠ k0) by (by intros ->).
           split; [by rewrite lookup_delete_ne|].
           exists test. split; [done|]. rewrite store_set_eq.
           rewrite store_set_ne by done. by rewrite lookup_delete_ne.
    + split; [by intros [? ?]|]. intros Hall. exfalso.
      destruct (decide (k0 ∈ configs)) as [Hc | Hc].
      * assert (pop_model configs entry σ k0 = Some σ) as Heq
          by (apply store_pop_model_Some; by left).
        by rewrite Heq in Hpop.
      * destruct (Hall k0 ltac:(left) Hc) as [Hv (test & Htest & Hv')].
        assert (is_Some (pop_model configs entry σ k0)) as [? Heq].
        { eexists. apply store_pop_model_Some. right. split; [done|].
          exists val, test. split; [done|]. split; [done|]. split; [done|].
          split; [|done]. pose proof (Hne test Htest).
          by rewrite store_set_ne by done. }
        by rewrite Heq in Hpop.
Qed.

(** What the loops leave of the dictionaries of one entry: the validation
    dictionary keeps the models of [configs]; the test dictionary loses the
    models outside [configs] that the validation dictionary had. *)
Definition entry_post (configs : gset string) (σ σ' : store) (entry : fold_entry)
    : Prop :=
  ∃ val, entry !! "pred_proba_dict_val" = Some val
    ∧ (∀ k, σ' val !! k = if decide (k ∈ configs) then σ val !! k else None)
    ∧ (∀ test, entry !! "pred_proba_dict_test" = Some test →
         ∀ k, σ' test !! k
              = if decide (k ∈ configs ∨ σ val !! k = None) then σ test !! k
                else None).

(** The loops pass an entry without a [KeyError]: it has a validation
    dictionary, and every model of it outside [configs] is in its test
    dictionary. *)
Definition entry_ok (configs : gset string) (σ : store) (entry : fold_entry) : Prop :=
  ∃ val, entry !! "pred_proba_dict_val" = Some val
    ∧ ∀ k, is_Some (σ val !! k) → k ∉ configs →
        ∃ test, entry !! "pred_proba_dict_test" = Some test ∧ is_Some (σ test !! k).

Lemma store_minimize_entry_spec configs σ σ' entry :
  NoDup (refs_entry entry) →
  minimize_entry configs σ entry = Some σ' →
  entry_post configs σ σ' entry ∧ ∀ l, l ∉ refs_entry entry → σ' l = σ l.
Proof.
  intros Hnd. unfold minimize_entry.
  destruct (entry !! "pred_proba_dict_val") as [val|] eqn:Hval; [|done].
  cbn [mbind option_bind]. intros Hfold.
  destruct (store_pop_fold_spec configs entry _ σ σ' val Hval
              (λ test Ht, refs_entry_NoDup _ _ _ Hnd Hval Ht) Hfold)
    as (Hv & Ht & Hother).
  split; [|done]. exists val. split; [done|].
  assert (∀ k, k ∈ SimContext.keys (σ val) ∧ k ∉ configs
               ↔ ¬ (k ∈ configs ∨ σ val !! k = None)) as Hiff.
  { intros k. rewrite SimContext.elem_of_keys. split.
    - intros [[v Hk] Hc] [? | Hn]; [done|]. by rewrite Hk in Hn.
    - intros Hn. split; [|intros ?; apply Hn; by left].
      destruct (σ val !! k) as [v|] eqn:Hk; [by eexists|]. destruct Hn. by right. }
  split.
  - intros k. rewrite Hv. destruct (decide (k ∈ configs)) as [Hc | Hc].
    + rewrite decide_False; [done|]. by intros [_ ?].
    + destruct (σ val !! k) as [v|] eqn:Hk.
      * rewrite decide_True; [done|]. split; [|done].
        apply SimContext.elem_of_keys. by eexists.
      * by destruct (decide _).
  - intros test Htest k. rewrite (Ht test Htest).
    destruct (decide (k ∈ configs ∨ σ val !! k = None)) as [Hy | Hn].
    + rewrite decide_False; [done|]. intros Hx. by apply Hiff in Hx.
    + rewrite decide_True; [done|]. by apply Hiff.
Qed.

Lemma store_minimize_entry_is_Some configs σ entry :
  NoDup (refs_entry entry) →
  is_Some (minimize_entry configs σ entry) ↔ entry_ok configs σ entry.
Proof.
  intros Hnd. unfold minimize_entry, entry_ok.
  destruct (entry !! "pred_proba_dict_val") as [val|] eqn:Hval; cbn [mbind option_bind].
  2:{ split; [by intros [? ?] | by intros (? & ? & _)]. }
  rewrite (store_pop_fold_is_Some configs entry _ σ val
             (SimContext.keys_NoDup (σ val)) Hval
             (λ test Ht, refs_entry_NoDup _ _ _ Hnd Hval Ht)).
  split.
  - intros Hall. exists val. split; [done|]. intros k Hk Hc.
    apply Hall; [by apply SimContext.elem_of_keys | done].
  - intros (val0 & [= <-] & Hall) k Hk%SimContext.elem_of_keys Hc.
    split; [done|]. by apply Hall.
Qed.

(** Both depend on the store only at the references of the entry. *)
Lemma entry_ok_ext configs σ1 σ2 entry :
  (∀ l, l ∈ refs_entry entry → σ1 l = σ2 l) →
  entry_ok configs σ1 entry → entry_ok configs σ2 entry.
Proof.
  intros Hext (val & Hval & Hall). exists val. split; [done|].
  intros k Hk Hc. rewrite <- (Hext val (refs_entry_val _ _ Hval)) in Hk.
  destruct (Hall k Hk Hc) as (test & Htest & Htk).
  exists test. split; [done|]. by rewrite <- (Hext test (refs_entry_test _ _ Htest)).
Qed.

Lemma entry_post_ext configs σ1 σ2 σ1' σ2' entry :
  (∀ l, l ∈ refs_entry entry → σ1 l = σ2 l) →
  (∀ l, l ∈ refs_entry entry → σ1' l = σ2' l) →
  entry_post configs σ1 σ1' entry → entry_post configs σ2 σ2' entry.
Proof.
  intros Hext Hext' (val & Hval & Hv & Ht). exists val. split; [done|].
  pose proof (refs_entry_val _ _ Hval) as Hin.
  rewrite <- (Hext val Hin), <- (Hext' val Hin). split; [done|].
  intros test Htest k. pose proof (refs_entry_test _ _ Htest) as Hin'.
  rewrite <- (Hext test Hin'), <- (Hext' test Hin'). by apply Ht.
Qed.

(** ** All entries *)

Lemma foldM_opt_app {A B} (f : B → A → option B) l1 l2 b :
  SimContext.foldM_opt f (l1 ++ l2) b
  = SimContext.foldM_opt f l1 b ≫= SimContext.foldM_opt f l2.
Proof.
  revert b. induction l1 as [|a l1 IH]; intros b; simpl; [done|].
  destruct (f b a) as [b'|]; simpl; [apply IH | done].
Qed.

Lemma pop_models_entries zpp configs σ :
  pop_models zpp configs σ
  = SimContext.foldM_opt (minimize_entry configs) (entries zpp) σ.
Proof.
  unfold pop_models, entries. revert σ.
  induction zpp as [|[t task] zpp IH]; intros σ; [done|].
  cbn [SimContext.foldM_opt mbind list_bind snd]. rewrite foldM_opt_app.
  assert (∀ σ, minimize_task configs σ task
               = SimContext.foldM_opt (minimize_entry configs) task.*2 σ) as ->.
  { unfold minimize_task. induction task as [|[f e] task IHt]; intros σ0; [done|].
    simpl. destruct (minimize_entry configs σ0 e); simpl; [apply IHt | done]. }
  destruct (SimContext.foldM_opt (minimize_entry configs) task.*2 σ); simpl;
    [apply IH | done].
Qed.

Lemma store_entries_spec configs es σ σ' :
  NoDup (es ≫= refs_entry) →
  SimContext.foldM_opt (minimize_entry configs) es σ = Some σ' →
  (∀ entry, entry ∈ es → entry_post configs σ σ' entry)
  ∧ (∀ l, l ∉ es ≫= refs_entry → σ' l = σ l).
Proof.
  revert σ. induction es as [|e es IH]; intros σ Hnd.
  - intros [= <-]. split; [by intros ? ?%elem_of_nil | done].
  - cbn [mbind list_bind] in Hnd. apply NoDup_app in Hnd as (Hnde & Hdisj & Hnd).
    cbn [SimContext.foldM_opt].
    destruct (minimize_entry configs σ e) as [σ1|] eqn:Hstep; [|done].
    cbn [mbind option_bind]. intros Hfold.
    destruct (store_minimize_entry_spec _ _ _ _ Hnde Hstep) as [Hpost Hframe].
    destruct (IH _ Hnd Hfold) as [Hposts Hframes]. split.
    + intros entry [-> | Hin]%elem_of_cons.
      * eapply entry_post_ext; [done | | exact Hpost].
        intros l Hl. symmetry. apply Hframes. by apply Hdisj.
      * eapply entry_post_ext; [| done | by apply Hposts].
        intros l Hl. apply Hframe. intros Hle. apply (Hdisj l Hle).
        apply list_elem_of_bind. by exists entry.
    + intros l Hl. cbn [mbind list_bind] in Hl.
      apply not_elem_of_app in Hl as [Hle Hles].
      by rewrite (Hframes l Hles), (Hframe l Hle).
Qed.

Lemma store_entries_is_Some configs es σ :
  NoDup (es ≫= refs_entry) →
  is_Some (SimContext.foldM_opt (minimize_entry configs) es σ)
  ↔ ∀ entry, entry ∈ es → entry_ok configs σ entry.
Proof.
  revert σ. induction es as [|e es IH]; intros σ Hnd.
  - split; [by intros _ ? ?%elem_of_nil | by eexists].
  - cbn [mbind list_bind] in Hnd. apply NoDup_app in Hnd as (Hnde & Hdisj & Hnd).
    cbn [SimContext.foldM_opt].
    destruct (minimize_entry configs σ e) as [σ1|] eqn:Hstep; cbn [mbind option_bind].
    + rewrite (IH _ Hnd).
      destruct (store_minimize_entry_spec _ _ _ _ Hnde Hstep) as [_ Hframe].
      assert (∀ entry, entry ∈ es →
                entry_ok configs σ1 entry ↔ entry_ok configs σ entry) as Hiff.
      { intros entry Hin.
        assert (∀ l, l ∈ refs_entry entry → σ1 l = σ l) as Hext.
        { intros l Hl. apply Hframe. intros Hle. apply (Hdisj l Hle).
          apply list_elem_of_bind. by exists entry. }
        split; apply entry_ok_ext; [done|]. intros l Hl. symmetry. by apply Hext. }
      split.
      * intros Hall entry [-> | Hin]%elem_of_cons.
        -- apply (store_minimize_entry_is_Some _ _ _ Hnde). by eexists.
        -- apply Hiff; [done|]. by apply Hall.
      * intros Hall entry Hin. apply Hiff; [done|]. apply Hall. by right.
    + split; [by intros [? ?]|]. intros Hall.
      destruct (proj2 (store_minimize_entry_is_Some configs σ e Hnde)
                  (Hall e ltac:(left))) as [? Hx].
      by rewrite Hstep in Hx.
Qed.

(** ** The method *)

(** X16: when no dictionary object is shared (the references under
    ['pred_proba_dict_val'] and ['pred_proba_dict_test'] of all tasks and
    folds are pairwise different) and [minimize_memory_zeroshot_pred_proba]
    returns, then every task and fold has a validation dictionary, which
    keeps exactly its models in [configs]; its test dictionary loses
    exactly the models outside [configs] that the validation dictionary
    had; kept payloads are unchanged, and so is every other object. *)
Theorem minimize_memory_pops_in_place (zeroshot_pred_proba : pred_proba)
    (configs : list string) (σ σ' : store) :
  NoDup (refs zeroshot_pred_proba) →
  minimize_memory_zeroshot_pred_proba zeroshot_pred_proba configs σ = Some σ' →
  (∀ t task f entry, (t, task) ∈ zeroshot_pred_proba → (f, entry) ∈ task →
     ∃ val, entry !! "pred_proba_dict_val" = Some val
       ∧ (∀ k, σ' val !! k = if decide (k ∈ configs) then σ val !! k else None)
       ∧ (∀ test, entry !! "pred_proba_dict_test" = Some test →
            ∀ k, σ' test !! k
                 = if decide (k ∈ configs ∨ σ val !! k = None) then σ test !! k
                   else None))
  ∧ (∀ l, l ∉ refs zeroshot_pred_proba → σ' l = σ l).
Proof.
  intros Hnd. unfold minimize_memory_zeroshot_pred_proba.
  destruct (pickle_dumps zeroshot_pred_proba σ); [|done]. cbn [mbind option_bind].
  rewrite pop_models_entries.
  destruct (SimContext.foldM_opt _ _ σ) as [σ1|] eqn:Hpop; [|done].
  cbn [mbind option_bind].
  destruct (pickle_dumps zeroshot_pred_proba σ1); [|done]. cbn [mbind option_bind].
  intros [= <-].
  destruct (store_entries_spec _ _ _ _ Hnd Hpop) as [Hposts Hframe].
  split; [|done]. intros t task f entry Ht Hf.
  destruct (Hposts entry) as (val & Hval & Hv & Htest).
  { apply elem_of_entries. by exists t, task, f. }
  exists val. split; [done|]. split.
  - intros k. rewrite Hv. apply decide_ext.
    by rewrite (elem_of_list_to_set (C := gset string) k configs).
  - intros test Ht' k. rewrite (Htest test Ht'). apply decide_ext.
    by rewrite (elem_of_list_to_set (C := gset string) k configs).
Qed.

(** X17: when no dictionary object is shared,
    [minimize_memory_zeroshot_pred_proba] returns exactly when the first
    [pickle.dumps] returns, every task and fold has a validation dictionary
    each of whose models outside [configs] is also in the test dictionary of
    that task and fold (else a [KeyError] is raised), and the second
    [pickle.dumps], on what the loops leave, returns. *)
Theorem minimize_memory_returns_iff (zeroshot_pred_proba : pred_proba)
    (configs : list string) (σ : store) :
  NoDup (refs zeroshot_pred_proba) →
  is_Some (minimize_memory_zeroshot_pred_proba zeroshot_pred_proba configs σ)
  ↔ is_Some (pickle_dumps zeroshot_pred_proba σ)
    ∧ (∀ t task f entry, (t, task) ∈ zeroshot_pred_proba → (f, entry) ∈ task →
         ∃ val, entry !! "pred_proba_dict_val" = Some val
           ∧ ∀ k, is_Some (σ val !! k) → k ∉ configs →
               ∃ test, entry !! "pred_proba_dict_test" = Some test
                     ∧ is_Some (σ test !! k))
    ∧ (∀ σ', pop_models zeroshot_pred_proba (list_to_set configs) σ = Some σ' →
         is_Some (pickle_dumps zeroshot_pred_proba σ')).
Proof.
  intros Hnd.
  assert (is_Some (pop_models zeroshot_pred_proba (list_to_set configs) σ)
          ↔ ∀ t task f entry, (t, task) ∈ zeroshot_pred_proba → (f, entry) ∈ task →
              ∃ val, entry !! "pred_proba_dict_val" = Some val
                ∧ ∀ k, is_Some (σ val !! k) → k ∉ configs →
                    ∃ test, entry !! "pred_proba_dict_test" = Some test
                          ∧ is_Some (σ test !! k)) as Hpops.
  { rewrite pop_models_entries, (store_entries_is_Some _ _ _ Hnd). split.
    - intros Hall t task f entry Ht Hf.
      destruct (Hall entry) as (val & Hval & Hk).
      { apply elem_of_entries. by exists t, task, f. }
      exists val. split; [done|]. intros k Hv Hc. apply Hk; [done|].
      by rewrite elem_of_list_to_set.
    - intros Hall entry (t & task & f & Ht & Hf)%elem_of_entries.
      destruct (Hall t task f entry Ht Hf) as (val & Hval & Hk).
      exists val. split; [done|]. intros k Hv Hc. apply Hk; [done|].
      by rewrite elem_of_list_to_set in Hc. }
  rewrite <- Hpops. unfold minimize_memory_zeroshot_pred_proba.
  destruct (pickle_dumps zeroshot_pred_proba σ) as [n|]; cbn [mbind option_bind].
  2:{ split; [by intros [? ?] | by intros [[? ?] _]]. }
  destruct (pop_models zeroshot_pred_proba (list_to_set configs) σ) as [σ1|];
    cbn [mbind option_bind].
  2:{ split; [by intros [? ?] | by intros (_ & [? ?] & _)]. }
  destruct (pickle_dumps zeroshot_pred_proba σ1) as [n1|] eqn:Hdump;
    cbn [mbind option_bind].
  - split; [|by eexists]. intros _. split; [by eexists|]. split; [by eexists|].
    intros σ' [= <-]. by eexists.
  - split; [by intros [? ?]|]. intros (_ & _ & Hlast).
    destruct (Hlast σ1 eq_refl) as [? Hx]. by rewrite Hdump in Hx.
Qed.

End store.

(** ** Examples *)

(** A pickler that always succeeds. *)
Definition always_pickles {tid V} (zpp : list (tid * list (Z * gmap string loc)))
    (σ : loc → gmap string V) : option N := Some 0%N.

(** Objects 1 to 3 hold the models ["A"] and ["B"]. *)
Definition ab_store : store (V := nat) := λ l,
  if decide (l = 1%positive) then {[ "A"%string := 1%nat; "B"%string := 2%nat ]}
  else if decide (l = 2%positive) then {[ "A"%string := 3%nat; "B"%string := 4%nat ]}
  else if decide (l = 3%positive) then {[ "A"%string := 5%nat; "B"%string := 6%nat ]}
  else ∅.

(** One task with one fold, its validation dictionary the object 1 and its
    test dictionary the object 2. *)
Definition separate_dicts : list (Z * list (Z * gmap string loc)) :=
  [ (7%Z, [ (0%Z, {[ "pred_proba_dict_val"%string := 1%positive;
                     "pred_proba_dict_test"%string := 2%positive ]}) ]) ].

Lemma separate_dicts_NoDup : NoDup (refs separate_dicts).
Proof. apply (bool_decide_unpack _). vm_compute. exact I. Qed.

Lemma minimize_memory_pops_in_place_witness :
  NoDup (refs separate_dicts)
  ∧ ∃ σ',
      minimize_memory_zeroshot_pred_proba always_pickles separate_dicts
        ["A"%string] ab_store = Some σ'
      ∧ ∀ l, l ∉ refs separate_dicts → σ' l = ab_store l.
Proof.
  split; [exact separate_dicts_NoDup|].
  destruct (minimize_memory_zeroshot_pred_proba always_pickles separate_dicts
              ["A"%string] ab_store) as [σ'|] eqn:Hrun; [|by vm_compute in Hrun].
  exists σ'. split; [reflexivity|].
  exact (proj2 (minimize_memory_pops_in_place always_pickles separate_dicts
                  ["A"%string] ab_store σ' separate_dicts_NoDup Hrun)).
Defined.

Lemma minimize_memory_returns_iff_witness :
  NoDup (refs separate_dicts)
  ∧ is_Some (minimize_memory_zeroshot_pred_proba always_pickles separate_dicts
               ["A"%string] ab_store).
Proof.
  split; [exact separate_dicts_NoDup|].
  apply (minimize_memory_returns_iff always_pickles separate_dicts ["A"%string]
           ab_store separate_dicts_NoDup).
  split; [by eexists|]. split; [|by eexists].
  intros t task f entry
    [[= -> ->] | []%elem_of_nil]%elem_of_cons [[= -> ->] | []%elem_of_nil]%elem_of_cons.
  exists 1%positive. split; [reflexivity|]. intros k Hk Hc.
  exists 2%positive. split; [reflexivity|].
  destruct (decide (k = "A"%string)) as [-> | Ha]; [by eexists|].
  destruct (decide (k = "B"%string)) as [-> | Hb]; [by eexists|].
  destruct Hk as [v Hk]. exfalso. revert Hk.
  change (ab_store 1%positive) with ({[ "A"%string := 1%nat; "B"%string := 2%nat ]}
    : gmap string nat).
  by rewrite lookup_insert_ne, lookup_singleton_ne by done.
Defined.

(** One validation dictionary (object 1) under two folds, with the test
    dictionaries 2 and 3. *)
Definition shared_val_dict : list (Z * list (Z * gmap string loc)) :=
  [ (7%Z, [ (0%Z, {[ "pred_proba_dict_val"%string := 1%positive;
                     "pred_proba_dict_test"%string := 2%positive ]});
            (1%Z, {[ "pred_proba_dict_val"%string := 1%positive;
                     "pred_proba_dict_test"%string := 3%positive ]}) ]) ].

(** With a shared validation dictionary the second fold finds the model
    ["B"] already popped, and leaves it in its test dictionary. *)
Example scenario_shared_val_dict :
  ∃ σ',
    minimize_memory_zeroshot_pred_proba always_pickles shared_val_dict
      ["A"%string] ab_store = Some σ'
    ∧ σ' 2%positive !! "B"%string = None
    ∧ σ' 3%positive !! "B"%string = Some 6%nat.
Proof. eexists. split; [reflexivity|]. split; vm_compute; reflexivity. Qed.

(** One object as both dictionaries of a fold: the second [pop] of a model
    raises [KeyError]. *)
Example scenario_same_dict_twice :
  minimize_memory_zeroshot_pred_proba always_pickles
    [ (7%Z, [ (0%Z, {[ "pred_proba_dict_val"%string := 1%positive;
                       "pred_proba_dict_test"%string := 1%positive ]}) ]) ]
    ["A"%string] ab_store
  = None.
Proof. vm_compute. reflexivity. Qed.

End SimHeap.
